(** * ContactBook: a shallow embedding of [contactbook.py]

    The program is a single class, [ContactBook], holding a dictionary
    [contacts : Dict[str, Dict[str, str]]], a JSON file it is loaded from
    and saved to, and five interactive operations that read their
    arguments with [input()] and report with [print()].

    The embedding keeps that shape.  A [world] holds the dictionary, the
    file, the lines still to be read on standard input and everything
    written to standard output; every method is a computation in a small
    state-and-exception monad over worlds.  The [while True] loop of
    [run] is a relation between the world it starts in and the way it
    ends.

    Two limits of the model.  Strings hold code points below 256.  And
    [self.contacts] keeps its declared type: a file that is a JSON
    document but no dictionary of dictionaries of such strings takes a
    run out of the model ([Untyped]), where nothing is claimed about it;
    so does a file on which the decoder meets a limit of the interpreter
    (an integer of more than 4300 digits, more than 400 arrays and
    objects open at once) and raises what [load_contacts] does not
    catch.  A file that is no JSON document is in the model, whatever it
    holds: [json.load] raises JSONDecodeError on it. *)

From Stdlib Require Import Strings.String Strings.Ascii Lists.List.
From Stdlib Require Import Arith.PeanoNat NArith.BinNat Bool.Bool micromega.Lia.
From Stdlib Require Import Sorting.Sorted Sorting.Permutation.
From Stdlib Require Import Numbers.DecimalString.
Import ListNotations.

Local Open Scope list_scope.
Local Open Scope string_scope.

(** ** Python strings

    A [str] is modelled as a [string]: a sequence of code points below 256
    (the Latin-1 range).  [isspace], [lower] and comparison are Python's
    on that range. *)

Module Str.

Definition code (c : ascii) : nat := nat_of_ascii c.

(** [c.isspace()]: TAB..CR, FS..US, SPACE, NEL and NBSP. *)
Definition isspace (c : ascii) : bool :=
  let n := code c in
  (((9 <=? n) && (n <=? 13)) || ((28 <=? n) && (n <=? 32))
   || (n =? 133) || (n =? 160))%nat.

(** [s.lstrip()] *)
Fixpoint lstrip (s : string) : string :=
  match s with
  | EmptyString => EmptyString
  | String c s' => if isspace c then lstrip s' else s
  end.

(** [s.rstrip()] *)
Fixpoint rstrip (s : string) : string :=
  match s with
  | EmptyString => EmptyString
  | String c s' =>
      match rstrip s' with
      | EmptyString => if isspace c then EmptyString else String c EmptyString
      | r => String c r
      end
  end.

(** [s.strip()] *)
Definition strip (s : string) : string := rstrip (lstrip s).

(** The lower-case mapping of one code point: A-Z and the Latin-1 capitals
    (all of 192..222 but the multiplication sign 215) move up by 32. *)
Definition lower_char (c : ascii) : ascii :=
  let n := code c in
  if (((65 <=? n) && (n <=? 90))
      || ((192 <=? n) && (n <=? 222) && negb (n =? 215)))%nat
  then ascii_of_nat (n + 32) else c.

(** [s.lower()] *)
Fixpoint lower (s : string) : string :=
  match s with
  | EmptyString => EmptyString
  | String c s' => String (lower_char c) (lower s')
  end.

(** [not s]: a string is falsy exactly when it is empty. *)
Definition is_empty (s : string) : bool :=
  match s with EmptyString => true | _ => false end.

(** [q in s] on strings: [q] occurs in [s] as a contiguous block. *)
Fixpoint contains (q s : string) : bool :=
  prefix q s ||
  match s with
  | EmptyString => false
  | String _ s' => contains q s'
  end.

(** [x in xs] on a list of strings. *)
Definition list_in (x : string) (xs : list string) : bool :=
  existsb (String.eqb x) xs.

(** [c * n] for a one-character string. *)
Fixpoint replicate (n : nat) (c : ascii) : string :=
  match n with
  | O => EmptyString
  | S n' => String c (replicate n' c)
  end.

(** The format spec [:<n]: left-aligned, padded with spaces to width [n],
    never truncated. *)
Definition ljust (n : nat) (s : string) : string :=
  s ++ replicate (n - String.length s) " "%char.

(** [str(n)] for a non-negative integer. *)
Definition of_nat (n : nat) : string :=
  NilZero.string_of_uint (Nat.to_uint n).

(** The newline character, as a string. *)
Definition nl : string := String (ascii_of_nat 10) EmptyString.

End Str.

(** ** Python dictionaries

    A [dict] keeps its items in insertion order, which [search_contact]
    and [json.dump] show; it is modelled as the list of its items.  A
    dictionary of the program never holds a key twice ([uniq]). *)

Module Dict.

Section Ops.
Context {V : Type}.

Definition dict := list (string * V).

Definition keys (d : dict) : list string := map fst d.

(** [d[k]] (None stands for KeyError) *)
Fixpoint get (k : string) (d : dict) : option V :=
  match d with
  | [] => None
  | (k', v) :: d' => if String.eqb k' k then Some v else get k d'
  end.

(** [d[k] = v]: an existing key keeps its place, a new one goes last. *)
Fixpoint set (k : string) (v : V) (d : dict) : dict :=
  match d with
  | [] => [(k, v)]
  | (k', v') :: d' =>
      if String.eqb k' k then (k', v) :: d' else (k', v') :: set k v d'
  end.

(** [del d[k]] *)
Fixpoint del (k : string) (d : dict) : dict :=
  match d with
  | [] => []
  | (k', v') :: d' => if String.eqb k' k then d' else (k', v') :: del k d'
  end.

(** [not d] *)
Definition is_empty (d : dict) : bool :=
  match d with [] => true | _ => false end.

Definition uniq (d : dict) : Prop := NoDup (keys d).

End Ops.

Arguments dict : clear implicits.

End Dict.

Import Dict.

(** A contact's details, [{"phone": .., "email": .., "address": ..}], and
    the whole book: the declared type of [self.contacts]. *)
Definition details := dict string.
Definition store := dict details.

(** ** The [json] module, as far as the program uses it

    [json.dump(obj, file, indent=2)] on a [store], and [json.load] on the
    text of a file.  Both follow CPython's [json.encoder] and
    [json.decoder]. *)

Module Json.

Definition dquote : ascii := ascii_of_nat 34.
Definition backslash : ascii := ascii_of_nat 92.

(** One lower-case hexadecimal digit. *)
Definition hex_digit (n : nat) : ascii :=
  ascii_of_nat (if n <? 10 then 48 + n else 87 + n)%nat.

(** The replacement of one character in [encode_basestring_ascii]
    ([ensure_ascii] is on by default): the quote, the backslash and the
    five short escapes, [\u00xx] for everything else outside SPACE..~. *)
Definition escape (c : ascii) : string :=
  let n := nat_of_ascii c in
  if (n =? 34)%nat then String backslash (String dquote "")
  else if (n =? 92)%nat then String backslash (String backslash "")
  else if (n =? 10)%nat then String backslash "n"
  else if (n =? 13)%nat then String backslash "r"
  else if (n =? 9)%nat then String backslash "t"
  else if (n =? 12)%nat then String backslash "f"
  else if (n =? 8)%nat then String backslash "b"
  else if ((n <? 32) || (126 <? n))%nat then
    String backslash
      (String "u" (String "0" (String "0"
        (String (hex_digit (n / 16)) (String (hex_digit (n mod 16)) "")))))
  else String c "".

Fixpoint escape_all (s : string) : string :=
  match s with
  | EmptyString => EmptyString
  | String c s' => escape c ++ escape_all s'
  end.

(** [encode_basestring_ascii(s)] *)
Definition encode_str (s : string) : string :=
  String dquote (escape_all s ++ String dquote "").

(** [sep.join(parts)] *)
Fixpoint join (sep : string) (parts : list string) : string :=
  match parts with
  | [] => ""
  | [p] => p
  | p :: ps => p ++ sep ++ join sep ps
  end.

(** [_iterencode_dict] at nesting level 2, where every value is a
    string: [{}] when empty, else one ["key": "value"] per line at
    four spaces, the closing brace at two. *)
Definition dumps_details (d : details) : string :=
  match d with
  | [] => "{}"
  | _ =>
      "{" ++ Str.nl ++ "    "
      ++ join ("," ++ Str.nl ++ "    ")
           (map (fun kv => encode_str (fst kv) ++ ": " ++ encode_str (snd kv)) d)
      ++ Str.nl ++ "  " ++ "}"
  end.

(** [json.dumps(contacts, indent=2)]: [_iterencode_dict] at level 1. *)
Definition dumps (s : store) : string :=
  match s with
  | [] => "{}"
  | _ =>
      "{" ++ Str.nl ++ "  "
      ++ join ("," ++ Str.nl ++ "  ")
           (map (fun kv => encode_str (fst kv) ++ ": " ++ dumps_details (snd kv)) s)
      ++ Str.nl ++ "}"
  end.

(** *** Decoding

    The decoder works in three steps.  [lex] cuts the text into tokens
    the way [scanstring], the number pattern [NUMBER_RE] and the
    whitespace pattern do; [element] walks the tokens in the order
    [scan_once], [JSONObject] and [JSONArray] consume them and builds
    the value; [as_store] says whether the value is a [store].

    A text that is not a JSON document ends in [DecodeError], whatever
    else it holds; a document that is no [store] ends in [Untyped].
    Numbers, constants and arrays are followed through, but what they
    hold is not kept: no [store] holds one. *)

Inductive token : Type :=
| TLBrace | TRBrace | TLBracket | TRBracket | TColon | TComma
| TString (s : string)  (* a complete string literal, decoded *)
| TBeyond               (* a complete string literal that holds a code
                           point above U+00FF *)
| TNumber (huge : bool) (* a number; [huge]: an integer of more digits
                           than [int] converts *)
| TConstant             (* null, true, false, NaN, Infinity, -Infinity *)
| TBad.                 (* no JSON token starts or goes on this way *)

Inductive mode : Type :=
| Plain                                    (* between tokens *)
| InString (buf : string)                  (* after the opening quote *)
| Escape (buf : string)                    (* after a backslash *)
| Unicode (buf : string) (k : nat) (acc : nat) (* after \u and k digits *)
| InBeyond                    (* in a string, past a code point above U+00FF *)
| EscapeBeyond
| UnicodeBeyond (k : nat)
| Word (rest : string)        (* in a constant, [rest] still to come *)
| Minus                       (* after the sign of a number *)
| Zero                        (* after the integer 0 *)
| Digits (k : nat)            (* after the k digits of an integer *)
| Point (k : nat)             (* after an integer of k digits and a point *)
| Fraction                    (* after a digit of the fraction *)
| Exponent (k : nat) (float : bool)     (* after e or E *)
| ExponentSign (k : nat) (float : bool) (* after the sign of the exponent *)
| ExponentDigits.             (* after a digit of the exponent *)

(** [WHITESPACE = [ \t\n\r]*] *)
Definition is_ws (c : ascii) : bool :=
  let n := nat_of_ascii c in
  ((n =? 32) || (n =? 9) || (n =? 10) || (n =? 13))%nat.

(** [BACKSLASH]: the one-character escapes of [scanstring]. *)
Definition unescape (c : ascii) : option ascii :=
  let n := nat_of_ascii c in
  if (n =? 34)%nat then Some dquote
  else if (n =? 92)%nat then Some backslash
  else if (n =? 47)%nat then Some "/"%char
  else if (n =? 98)%nat then Some (ascii_of_nat 8)
  else if (n =? 102)%nat then Some (ascii_of_nat 12)
  else if (n =? 110)%nat then Some (ascii_of_nat 10)
  else if (n =? 114)%nat then Some (ascii_of_nat 13)
  else if (n =? 116)%nat then Some (ascii_of_nat 9)
  else None.

(** The value of a hexadecimal digit, either case. *)
Definition hex_value (c : ascii) : option nat :=
  let n := nat_of_ascii c in
  if ((48 <=? n) && (n <=? 57))%nat then Some (n - 48)%nat
  else if ((97 <=? n) && (n <=? 102))%nat then Some (n - 87)%nat
  else if ((65 <=? n) && (n <=? 70))%nat then Some (n - 55)%nat
  else None.

(** [[0-9]] *)
Definition is_digit (c : ascii) : bool :=
  let n := nat_of_ascii c in ((48 <=? n) && (n <=? 57))%nat.

(** [[eE]] *)
Definition is_e (c : ascii) : bool :=
  let n := nat_of_ascii c in ((n =? 101) || (n =? 69))%nat.

(** [[-+]] *)
Definition is_sign (c : ascii) : bool :=
  let n := nat_of_ascii c in ((n =? 45) || (n =? 43))%nat.

(** The constants of [scan_once], by their first letter: what is to
    come after it. *)
Definition word_after (c : ascii) : option string :=
  let n := nat_of_ascii c in
  if (n =? 110)%nat then Some "ull"
  else if (n =? 116)%nat then Some "rue"
  else if (n =? 102)%nat then Some "alse"
  else if (n =? 78)%nat then Some "aN"
  else if (n =? 73)%nat then Some "nfinity"
  else None.

(** [sys.int_info.default_max_str_digits]: [int] raises ValueError, which
    is no JSONDecodeError, on a literal of more digits.  (Interpreters
    older than the limit convert any literal.) *)
Definition int_max_str_digits : nat := 4300.

Definition is_huge (k : nat) : bool := (int_max_str_digits <? k)%nat.

Definition snoc (buf : string) (c : ascii) : string := buf ++ String c "".

(** A number is the longest match of [NUMBER_RE]: an optional minus
    sign; the integer, 0 alone or a digit from 1 to 9 and any digits;
    optionally a point and one digit or more; optionally e or E, an
    optional sign and one digit or more.  A point or an exponent that no
    digit follows is not part of the number, and no token starts with
    one. *)

(** One character where a token may start: the tokens it completes and
    the mode it leaves the scanner in, None when no token starts so. *)
Definition start (c : ascii) : list token * option mode :=
  let n := nat_of_ascii c in
  if is_ws c then ([], Some Plain)
  else if (n =? 123)%nat then ([TLBrace], Some Plain)
  else if (n =? 125)%nat then ([TRBrace], Some Plain)
  else if (n =? 91)%nat then ([TLBracket], Some Plain)
  else if (n =? 93)%nat then ([TRBracket], Some Plain)
  else if (n =? 58)%nat then ([TColon], Some Plain)
  else if (n =? 44)%nat then ([TComma], Some Plain)
  else if (n =? 34)%nat then ([], Some (InString ""))
  else if (n =? 45)%nat then ([], Some Minus)
  else if (n =? 48)%nat then ([], Some Zero)
  else if is_digit c then ([], Some (Digits 1))
  else match word_after c with
       | Some rest => ([], Some (Word rest))
       | None => ([TBad], None) (* Expecting value *)
       end.

(** The number read so far ends before [c]. *)
Definition number_then (huge : bool) (c : ascii) : list token * option mode :=
  let (out, next) := start c in (TNumber huge :: out, next).

(** One character in mode [m]. *)
Definition step (m : mode) (c : ascii) : list token * option mode :=
  let n := nat_of_ascii c in
  match m with
  | Plain => start c
  | InString buf =>
      if (n =? 34)%nat then ([TString buf], Some Plain)
      else if (n =? 92)%nat then ([], Some (Escape buf))
      else if (n <? 32)%nat then ([TBad], None) (* Invalid control character *)
      else ([], Some (InString (snoc buf c)))
  | Escape buf =>
      if (n =? 117)%nat then ([], Some (Unicode buf 0 0))
      else match unescape c with
           | Some c' => ([], Some (InString (snoc buf c')))
           | None => ([TBad], None) (* Invalid \escape *)
           end
  | Unicode buf k acc =>
      match hex_value c with
      | None => ([TBad], None) (* Invalid \uXXXX escape *)
      | Some d =>
          let acc' := (16 * acc + d)%nat in
          if (k =? 3)%nat then
            if (acc' <? 256)%nat
            then ([], Some (InString (snoc buf (ascii_of_nat acc'))))
            else ([], Some InBeyond)
          else ([], Some (Unicode buf (S k) acc'))
      end
  | InBeyond =>
      if (n =? 34)%nat then ([TBeyond], Some Plain)
      else if (n =? 92)%nat then ([], Some EscapeBeyond)
      else if (n <? 32)%nat then ([TBad], None)
      else ([], Some InBeyond)
  | EscapeBeyond =>
      if (n =? 117)%nat then ([], Some (UnicodeBeyond 0))
      else match unescape c with
           | Some _ => ([], Some InBeyond)
           | None => ([TBad], None)
           end
  | UnicodeBeyond k =>
      match hex_value c with
      | None => ([TBad], None)
      | Some _ =>
          if (k =? 3)%nat then ([], Some InBeyond)
          else ([], Some (UnicodeBeyond (S k)))
      end
  | Word rest =>
      match rest with
      | String d rest' =>
          if Ascii.eqb c d then
            match rest' with
            | EmptyString => ([TConstant], Some Plain)
            | _ => ([], Some (Word rest'))
            end
          else ([TBad], None)
      | EmptyString => ([TBad], None)
      end
  | Minus =>
      if (n =? 48)%nat then ([], Some Zero)
      else if is_digit c then ([], Some (Digits 1))
      else if (n =? 73)%nat then ([], Some (Word "nfinity"))
      else ([TBad], None)
  | Zero =>
      if (n =? 46)%nat then ([], Some (Point 1))
      else if is_e c then ([], Some (Exponent 1 false))
      else number_then false c
  | Digits k =>
      if is_digit c then ([], Some (Digits (S k)))
      else if (n =? 46)%nat then ([], Some (Point k))
      else if is_e c then ([], Some (Exponent k false))
      else number_then (is_huge k) c
  | Point k =>
      if is_digit c then ([], Some Fraction)
      else ([TNumber (is_huge k); TBad], None)
  | Fraction =>
      if is_digit c then ([], Some Fraction)
      else if is_e c then ([], Some (Exponent 0 true))
      else number_then false c
  | Exponent k float =>
      if is_sign c then ([], Some (ExponentSign k float))
      else if is_digit c then ([], Some ExponentDigits)
      else ([TNumber (negb float && is_huge k); TBad], None)
  | ExponentSign k float =>
      if is_digit c then ([], Some ExponentDigits)
      else ([TNumber (negb float && is_huge k); TBad], None)
  | ExponentDigits =>
      if is_digit c then ([], Some ExponentDigits)
      else number_then false c
  end.

(** The end of the text in mode [m]. *)
Definition finish (m : mode) : list token :=
  match m with
  | Plain => []
  | Zero | Fraction | ExponentDigits => [TNumber false]
  | Digits k => [TNumber (is_huge k)]
  | Point k => [TNumber (is_huge k); TBad]
  | Exponent k float | ExponentSign k float =>
      [TNumber (negb float && is_huge k); TBad]
  | _ => [TBad] (* Unterminated string; Expecting value *)
  end.

Fixpoint lex (m : mode) (s : string) : list token :=
  match s with
  | EmptyString => finish m
  | String c s' =>
      let (out, next) := step m c in
      (out ++ match next with
              | Some m' => lex m' s'
              | None => []
              end)%list
  end.

(** What [json.load] comes to on a text. *)
Inductive loaded : Type :=
| Decoded (s : store) (* it returns this dictionary *)
| DecodeError         (* it raises json.JSONDecodeError: the text is not
                         a JSON document *)
| Untyped.            (* the text is a JSON document and no [store]
                         written in Latin-1, or decoding it runs into a
                         limit of the interpreter: it returns a value of
                         another type, or raises another exception *)

(** A decoded value, as far as a [store] can hold it.  An object keeps
    its pairs as they come; a name that holds a code point above U+00FF
    is [None]. *)
#[warnings="-register-all"] Inductive value : Type :=
| VString (s : string)
| VOther (* a number, a constant, an array, a string above U+00FF *)
| VObject (pairs : list (option string * value)).

(** Where [scan_once] stands: in an array, or in an object after the
    name of a member, with the members read before. *)
Inductive frame : Type :=
| InArray
| InObject (pairs : list (option string * value)) (name : option string).

Inductive parsed : Type :=
| Value (v : value) (* the text is a JSON document of this value *)
| Invalid           (* json.JSONDecodeError *)
| Outside.          (* ValueError from [int], or RecursionError *)

(** [scan_once] calls itself for every array and object that is open, and
    CPython gives up with RecursionError, which is no JSONDecodeError,
    at a depth that depends on the interpreter and its settings (near
    1000 with the default recursion limit).  Documents are followed
    down to this depth, which is below that point; deeper ones are left
    out. *)
Definition depth_limit : nat := 400.

Definition too_deep (st : list frame) : bool :=
  (depth_limit <=? List.length st)%nat.

(** [element st ts]: [ts] starts where a value is due ([scan_once]).
    [close st v ts]: [ts] starts after the value [v]; what is due is the
    comma or the closing bracket of the innermost open array or object
    ([JSONArray], [JSONObject]), or the end of the text. *)
Fixpoint element (st : list frame) (ts : list token) {struct ts} : parsed :=
  match ts with
  | TString s :: ts1 => close st (VString s) ts1
  | TBeyond :: ts1 | TConstant :: ts1 | TNumber false :: ts1 =>
      close st VOther ts1
  | TNumber true :: _ => Outside
  | TLBracket :: ts1 =>
      if too_deep st then Outside
      else match ts1 with
           | TRBracket :: ts2 => close st VOther ts2
           | _ => element (InArray :: st) ts1
           end
  | TLBrace :: ts1 =>
      if too_deep st then Outside
      else match ts1 with
           | TRBrace :: ts2 => close st (VObject []) ts2
           | TString k :: TColon :: ts2 =>
               element (InObject [] (Some k) :: st) ts2
           | TBeyond :: TColon :: ts2 =>
               element (InObject [] None :: st) ts2
           | _ => Invalid (* Expecting property name, or ':' delimiter *)
           end
  | _ => Invalid (* Expecting value *)
  end
with close (st : list frame) (v : value) (ts : list token) {struct ts}
    : parsed :=
  match st with
  | [] =>
      match ts with
      | [] => Value v
      | _ => Invalid (* Extra data *)
      end
  | InArray :: st' =>
      match ts with
      | TComma :: ts1 => element st ts1
      | TRBracket :: ts1 => close st' VOther ts1
      | _ => Invalid (* Expecting ',' delimiter *)
      end
  | InObject pairs name :: st' =>
      let pairs := (pairs ++ [(name, v)])%list in
      match ts with
      | TComma :: TString k :: TColon :: ts2 =>
          element (InObject pairs (Some k) :: st') ts2
      | TComma :: TBeyond :: TColon :: ts2 =>
          element (InObject pairs None :: st') ts2
      | TRBrace :: ts1 => close st' (VObject pairs) ts1
      | _ => Invalid (* Expecting ',' delimiter, property name or ':' *)
      end
  end.

(** [dict(pairs)] on top of [acc]: a repeated name keeps its first place
    and takes the last value.  None when a name is above U+00FF. *)
Fixpoint gather {V} (pairs : list (option string * V)) (acc : dict V)
    : option (dict V) :=
  match pairs with
  | [] => Some acc
  | (Some k, v) :: pairs' => gather pairs' (set k v acc)
  | (None, _) :: _ => None
  end.

(** The dictionary with every value read by [f], when [f] reads them
    all. *)
Fixpoint read_all {A B} (f : A -> option B) (d : dict A) : option (dict B) :=
  match d with
  | [] => Some []
  | (k, a) :: d' =>
      match f a, read_all f d' with
      | Some b, Some r => Some ((k, b) :: r)
      | _, _ => None
      end
  end.

Definition as_string (v : value) : option string :=
  match v with
  | VString s => Some s
  | _ => None
  end.

(** The value as a [Dict[str, str]]. *)
Definition as_details (v : value) : option details :=
  match v with
  | VObject pairs =>
      match gather pairs [] with
      | Some d => read_all as_string d
      | None => None
      end
  | _ => None
  end.

(** The value as a [Dict[str, Dict[str, str]]]. *)
Definition as_store (v : value) : option store :=
  match v with
  | VObject pairs =>
      match gather pairs [] with
      | Some d => read_all as_details d
      | None => None
      end
  | _ => None
  end.

(** How many arrays and objects the tokens open. *)
Fixpoint opens (ts : list token) : nat :=
  match ts with
  | [] => 0
  | TLBrace :: ts' | TLBracket :: ts' => S (opens ts')
  | _ :: ts' => opens ts'
  end.

(** [json.loads(text)] *)
Definition loads (text : string) : loaded :=
  match element [] (lex Plain text) with
  | Value v =>
      match as_store v with
      | Some s => Decoded s
      | None => Untyped
      end
  | Invalid => DecodeError
  | Outside => Untyped
  end.

End Json.

(** ** The world of a run *)

(** The exceptions that can travel through the program. *)
Inductive exn : Type :=
| JSONDecodeError
| FileNotFoundError
| PermissionError
| IsADirectoryError
| UnicodeDecodeError
| EOFError
| KeyError (key : string).

(** The path [self.filename] on disk. *)
Inductive file : Type :=
| Missing                 (* os.path.exists is False *)
| Text (text : string)    (* a file that opens and reads as this text *)
| Unreadable (e : exn).   (* it exists; opening or reading it raises e *)

Record world : Type := mkWorld {
  contacts : store;           (* self.contacts *)
  disk : file;                (* the file named self.filename *)
  write_fault : option exn;   (* what open(.., 'w') raises, if anything *)
  stdin : list string;        (* the lines input() has still to return *)
  stdout : list string;       (* every piece written, oldest first *)
  written : list string       (* every text saved to the file, oldest first *)
}.

(** How a call ends. *)
Inductive result (A : Type) : Type :=
| Ok (a : A) (w : world)      (* it returns a *)
| Raise (e : exn) (w : world) (* e propagates to the caller *)
| Untyped.                    (* the run has left the model: the file
                                 decoded to no [store], or the decoder
                                 met a limit of the interpreter *)

Arguments Ok {A} a w.
Arguments Raise {A} e w.
Arguments Untyped {A}.

Definition M (A : Type) : Type := world -> result A.

Definition ret {A} (a : A) : M A := fun w => Ok a w.

Definition bind {A B} (m : M A) (k : A -> M B) : M B :=
  fun w =>
    match m w with
    | Ok a w' => k a w'
    | Raise e w' => Raise e w'
    | Untyped => Untyped
    end.

Definition raise {A} (e : exn) : M A := fun w => Raise e w.

Declare Scope py_scope.
Delimit Scope py_scope with py.
Notation "x <- m ;; k" := (bind m (fun x => k))
  (at level 61, m at next level, right associativity) : py_scope.
Notation "m ;; k" := (bind m (fun _ => k))
  (at level 61, right associativity) : py_scope.
Local Open Scope py_scope.

(** [try: body except (..): handler], the handled classes given by
    [handles]. *)
Definition try_except {A} (body : M A) (handles : exn -> bool)
    (handler : M A) : M A :=
  fun w =>
    match body w with
    | Raise e w' => if handles e then handler w' else Raise e w'
    | r => r
    end.

Definition get_contacts : M store := fun w => Ok (contacts w) w.

Definition set_contacts (cs : store) : M unit :=
  fun w => Ok tt (mkWorld cs (disk w) (write_fault w) (stdin w) (stdout w)
                    (written w)).

Definition write_stdout (s : string) : M unit :=
  fun w => Ok tt (mkWorld (contacts w) (disk w) (write_fault w) (stdin w)
                    (stdout w ++ [s]) (written w)).

(** [print(s)] *)
Definition print (s : string) : M unit := write_stdout (s ++ Str.nl).

(** [input(prompt)]: the prompt is written, then a line is read; at the
    end of input EOFError is raised. *)
Definition input (prompt : string) : M string :=
  write_stdout prompt ;;
  fun w =>
    match stdin w with
    | [] => Raise EOFError w
    | line :: rest =>
        Ok line (mkWorld (contacts w) (disk w) (write_fault w) rest
                   (stdout w) (written w))
    end.

(** [os.path.exists(self.filename)] *)
Definition path_exists : M bool :=
  fun w => Ok (match disk w with Missing => false | _ => true end) w.

(** [with open(self.filename, 'r') as file: file.read()] *)
Definition read_file : M string :=
  fun w =>
    match disk w with
    | Missing => Raise FileNotFoundError w
    | Text text => Ok text w
    | Unreadable e => Raise e w
    end.

(** [with open(self.filename, 'w') as file: file.write(text)] *)
Definition write_file (text : string) : M unit :=
  fun w =>
    match write_fault w with
    | Some e => Raise e w
    | None =>
        Ok tt (mkWorld (contacts w) (Text text) None (stdin w) (stdout w)
                 (written w ++ [text]))
    end.

(** [json.load(file)], on the text read: the dictionary, or
    JSONDecodeError on a text that is no JSON document. *)
Definition json_load (text : string) : M store :=
  match Json.loads text with
  | Json.Decoded cs => ret cs
  | Json.DecodeError => raise JSONDecodeError
  | Json.Untyped => fun _ => Untyped
  end.

(** [d[key]]: KeyError when the key is absent. *)
Definition getitem {V} (d : dict V) (key : string) : M V :=
  match get key d with
  | Some v => ret v
  | None => raise (KeyError key)
  end.

(** [for x in xs: body(x)] *)
Fixpoint for_each {A} (xs : list A) (body : A -> M unit) : M unit :=
  match xs with
  | [] => ret tt
  | x :: xs' => body x ;; for_each xs' body
  end.

(** [sorted(items)] on the items of a dictionary: tuples compare by their
    first component, the name, in code-point order.  (Python compares the
    second components only when two names are equal, which the keys of a
    dictionary never are.) *)
Fixpoint insert_item {V} (x : string * V) (l : list (string * V))
    : list (string * V) :=
  match l with
  | [] => [x]
  | y :: l' =>
      if (fst x <=? fst y)%string then x :: l else y :: insert_item x l'
  end.

Fixpoint sorted {V} (l : list (string * V)) : list (string * V) :=
  match l with
  | [] => []
  | x :: l' => insert_item x (sorted l')
  end.

(** ** class ContactBook *)

Module ContactBook.

(** The table line of [view_contacts] and [search_contact]:
    [f"{name:<20} {phone:<15} {email:<25} {address:<30}"]. *)
Definition row (name phone email address : string) : string :=
  Str.ljust 20 name ++ " " ++ Str.ljust 15 phone ++ " "
  ++ Str.ljust 25 email ++ " " ++ Str.ljust 30 address.

Definition header : string := row "Name" "Phone" "Email" "Address".

Definition rule : string := Str.replicate 90 "-"%char.

(** [print(f"{name:<20} {details['phone']:<15} ...")] *)
Definition print_row (item : string * details) : M unit :=
  let (name, d) := item in
  phone <- getitem d "phone" ;;
  email <- getitem d "email" ;;
  address <- getitem d "address" ;;
  print (row name phone email address).

Definition load_contacts : M unit :=
  there <- path_exists ;;
  if there then
    try_except
      (text <- read_file ;;
       cs <- json_load text ;;
       set_contacts cs)
      (fun e =>
         match e with
         | JSONDecodeError | FileNotFoundError => true
         | _ => false
         end)
      (set_contacts [])
  else ret tt.

(** [__init__]: [self.contacts = {}], then [self.load_contacts()]. *)
Definition init : M unit :=
  set_contacts [] ;; load_contacts.

Definition save_contacts : M unit :=
  cs <- get_contacts ;;
  write_file (Json.dumps cs).

Definition add_contact : M unit :=
  print (Str.nl ++ "=== ADD NEW CONTACT ===") ;;
  line <- input "Enter contact name: " ;;
  let name := Str.strip line in
  if Str.is_empty name then print "ERROR: Name cannot be empty!"
  else
    cs <- get_contacts ;;
    if Str.list_in (Str.lower name) (map Str.lower (keys cs)) then
      print ("ERROR: Contact '" ++ name ++ "' already exists!")
    else
      line <- input "Enter phone number: " ;;
      let phone := Str.strip line in
      line <- input "Enter email address: " ;;
      let email := Str.strip line in
      line <- input "Enter address: " ;;
      let address := Str.strip line in
      if Str.is_empty phone then print "ERROR: Phone number is required!"
      else
        set_contacts
          (set name [("phone", phone); ("email", email); ("address", address)]
             cs) ;;
        save_contacts ;;
        print ("SUCCESS: Contact '" ++ name ++ "' added successfully!").

Definition view_contacts : M unit :=
  cs <- get_contacts ;;
  if is_empty cs then print (Str.nl ++ "No contacts found!")
  else
    print (Str.nl ++ "=== CONTACT LIST ===") ;;
    print header ;;
    print rule ;;
    for_each (sorted cs) print_row ;;
    print (Str.nl ++ "Total contacts: " ++ Str.of_nat (List.length cs)).

(** The condition of the search loop; [or] stops at the first operand
    that holds, so the later fields are not looked up then. *)
Definition is_match (query : string) (item : string * details) : M bool :=
  let (name, d) := item in
  if Str.contains query (Str.lower name) then ret true
  else
    phone <- getitem d "phone" ;;
    if Str.contains query phone then ret true
    else
      email <- getitem d "email" ;;
      ret (Str.contains query (Str.lower email)).

(** The loop that fills [matches]. *)
Fixpoint collect_matches (query : string) (items : store) : M store :=
  match items with
  | [] => ret []
  | item :: rest =>
      hit <- is_match query item ;;
      more <- collect_matches query rest ;;
      ret (if hit then item :: more else more)
  end.

Definition search_contact : M unit :=
  cs <- get_contacts ;;
  if is_empty cs then print (Str.nl ++ "No contacts to search!")
  else
    print (Str.nl ++ "=== SEARCH CONTACT ===") ;;
    line <- input "Enter name or phone number to search: " ;;
    let query := Str.lower (Str.strip line) in
    if Str.is_empty query then print "ERROR: Search query cannot be empty!"
    else
      matches <- collect_matches query cs ;;
      if negb (is_empty matches) then
        print (Str.nl ++ "Found " ++ Str.of_nat (List.length matches)
               ++ " match(es):") ;;
        print header ;;
        print rule ;;
        for_each matches print_row
      else print "No contacts found matching your search!".

(** The lookup loop of [update_contact] and [delete_contact]:
    the first key equal to [name] once both are lower-cased. *)
Fixpoint find_actual_name (name : string) (ks : list string)
    : option string :=
  match ks with
  | [] => None
  | contact_name :: ks' =>
      if (Str.lower contact_name =? Str.lower name)%string
      then Some contact_name
      else find_actual_name name ks'
  end.

(** [not actual_name]: true for None and for the empty string. *)
Definition falsy (actual_name : option string) : bool :=
  match actual_name with
  | None => true
  | Some s => Str.is_empty s
  end.

(** The string a truthy [actual_name] is. *)
Definition the (actual_name : option string) : string :=
  match actual_name with
  | Some s => s
  | None => ""
  end.

Definition update_contact : M unit :=
  cs <- get_contacts ;;
  if is_empty cs then print (Str.nl ++ "No contacts to update!")
  else
    print (Str.nl ++ "=== UPDATE CONTACT ===") ;;
    line <- input "Enter the name of the contact to update: " ;;
    let name := Str.strip line in
    let actual_name := find_actual_name name (keys cs) in
    if falsy actual_name
    then print ("ERROR: Contact '" ++ name ++ "' not found!")
    else
      let actual_name := the actual_name in
      print (Str.nl ++ "Current details for '" ++ actual_name ++ "':") ;;
      current <- getitem cs actual_name ;;
      phone <- getitem current "phone" ;;
      print ("Phone: " ++ phone) ;;
      email <- getitem current "email" ;;
      print ("Email: " ++ email) ;;
      address <- getitem current "address" ;;
      print ("Address: " ++ address) ;;
      print (Str.nl
             ++ "Enter new details (press Enter to keep current value):") ;;
      line <- input ("Phone (" ++ phone ++ "): ") ;;
      let new_phone := Str.strip line in
      line <- input ("Email (" ++ email ++ "): ") ;;
      let new_email := Str.strip line in
      line <- input ("Address (" ++ address ++ "): ") ;;
      let new_address := Str.strip line in
      (* [current] is the dictionary stored under [actual_name]: the
         assignments below change the book in place. *)
      let current :=
        if Str.is_empty new_phone then current
        else set "phone" new_phone current in
      let current :=
        if Str.is_empty new_email then current
        else set "email" new_email current in
      let current :=
        if Str.is_empty new_address then current
        else set "address" new_address current in
      set_contacts (set actual_name current cs) ;;
      save_contacts ;;
      print ("SUCCESS: Contact '" ++ actual_name
             ++ "' updated successfully!").

Definition delete_contact : M unit :=
  cs <- get_contacts ;;
  if is_empty cs then print (Str.nl ++ "No contacts to delete!")
  else
    print (Str.nl ++ "=== DELETE CONTACT ===") ;;
    line <- input "Enter the name of the contact to delete: " ;;
    let name := Str.strip line in
    let actual_name := find_actual_name name (keys cs) in
    if falsy actual_name
    then print ("ERROR: Contact '" ++ name ++ "' not found!")
    else
      let actual_name := the actual_name in
      print (Str.nl ++ "Contact to delete:") ;;
      d <- getitem cs actual_name ;;
      print ("Name: " ++ actual_name) ;;
      phone <- getitem d "phone" ;;
      print ("Phone: " ++ phone) ;;
      email <- getitem d "email" ;;
      print ("Email: " ++ email) ;;
      address <- getitem d "address" ;;
      print ("Address: " ++ address) ;;
      line <- input (Str.nl ++ "Are you sure you want to delete '"
                     ++ actual_name ++ "'? (y/N): ") ;;
      let confirm := Str.lower (Str.strip line) in
      if (confirm =? "y")%string || (confirm =? "yes")%string then
        set_contacts (del actual_name cs) ;;
        save_contacts ;;
        print ("SUCCESS: Contact '" ++ actual_name
               ++ "' deleted successfully!")
      else print "Deletion cancelled.".

Definition display_menu : M unit :=
  print (Str.nl ++ Str.replicate 50 "="%char) ;;
  print "CONTACT BOOK MANAGER" ;;
  print (Str.replicate 50 "="%char) ;;
  print "1. Add Contact" ;;
  print "2. View All Contacts" ;;
  print "3. Search Contact" ;;
  print "4. Update Contact" ;;
  print "5. Delete Contact" ;;
  print "6. Exit" ;;
  print (Str.replicate 50 "="%char).

(** The end of a round of the loop that goes on. *)
Definition press_enter : M bool :=
  input (Str.nl ++ "Press Enter to continue...") ;;
  ret true.

(** The body of the [while True] loop of [run]; it returns whether the
    loop goes on ([false] stands for [break]). *)
Definition menu_round : M bool :=
  display_menu ;;
  line <- input "Choose an option (1-6): " ;;
  let choice := Str.strip line in
  if (choice =? "1")%string then add_contact ;; press_enter
  else if (choice =? "2")%string then view_contacts ;; press_enter
  else if (choice =? "3")%string then search_contact ;; press_enter
  else if (choice =? "4")%string then update_contact ;; press_enter
  else if (choice =? "5")%string then delete_contact ;; press_enter
  else if (choice =? "6")%string then
    print (Str.nl ++ "Thank you for using Contact Book Manager!") ;;
    print "All contacts have been saved automatically." ;;
    ret false
  else
    print "ERROR: Invalid choice! Please select 1-6." ;;
    press_enter.

(** [run]: the welcome line, then rounds of the menu until one breaks out
    of the loop or raises.  [loops w r]: the loop started in [w] ends
    as [r]. *)
Inductive loops : world -> result unit -> Prop :=
| loops_break (w w' : world) :
    menu_round w = Ok false w' -> loops w (Ok tt w')
| loops_raise (w w' : world) (e : exn) :
    menu_round w = Raise e w' -> loops w (Raise e w')
| loops_on (w w1 : world) (r : result unit) :
    menu_round w = Ok true w1 -> loops w1 r -> loops w r.

Definition run (w : world) (r : result unit) : Prop :=
  exists w1,
    print "Welcome to Contact Book Manager!" w = Ok tt w1 /\ loops w1 r.

(** [main]: [contact_book = ContactBook()], then [contact_book.run()]. *)
Definition main (w : world) (r : result unit) : Prop :=
  match init w with
  | Ok _ w0 => run w0 r
  | Raise e w' => r = Raise e w'
  | Untyped => r = Untyped
  end.

End ContactBook.

(** * Vocabulary of the properties *)

(** [q] occurs in [s]: some text before it and some after it make [s]. *)
Definition Substring (q s : string) : Prop :=
  exists before after, s = before ++ q ++ after.

(** A duplicate-free list of strings, as a test. *)
Fixpoint nodupb (l : list string) : bool :=
  match l with
  | [] => true
  | x :: l' => negb (Str.list_in x l') && nodupb l'
  end.

(** The order [sorted] puts items in: by name, in code-point order. *)
Definition name_le {V} (x y : string * V) : Prop :=
  (fst x <=? fst y)%string = true.

(** The tokens of [Json.dumps]: what [Json.lex] cuts its output into. *)
Module Tokens.
Import Json.

Fixpoint join (parts : list (list token)) : list token :=
  match parts with
  | [] => []
  | [p] => p
  | p :: ps => (p ++ TComma :: join ps)%list
  end.

Definition of_field (kv : string * string) : list token :=
  [TString (fst kv); TColon; TString (snd kv)].

Definition of_details (d : details) : list token :=
  (TLBrace :: join (map of_field d) ++ [TRBrace])%list.

Definition of_entry (kv : string * details) : list token :=
  TString (fst kv) :: TColon :: of_details (snd kv).

Definition of_store (s : store) : list token :=
  (TLBrace :: join (map of_entry s) ++ [TRBrace])%list.

(** The dictionary [dict(pairs)] builds on top of [acc]. *)
Definition set_all {V} (pairs : list (string * V)) (acc : dict V) : dict V :=
  fold_left (fun a kv => set (fst kv) (snd kv) a) pairs acc.

(** The value [Json.element] reads off the tokens of a contact's details,
    and of a book. *)
Definition value_of_details (d : details) : value :=
  VObject (map (fun kv => (Some (fst kv), VString (snd kv))) d).

Definition value_of_store (s : store) : value :=
  VObject (map (fun kv => (Some (fst kv), value_of_details (snd kv))) s).

End Tokens.

(** A [store] as Python holds one: no name twice, and in no contact's
    details a field twice. *)
Definition store_ok (cs : store) : bool :=
  nodupb (keys cs) && forallb (fun kv => nodupb (keys (snd kv))) cs.

(** ** Outcomes

    The methods return None and say how they ended on standard output;
    an outcome of the specification is the message a call ends with. *)

(** What [print(s)] writes. *)
Definition line (s : string) : string := s ++ Str.nl.

(** The messages of the validation failures: an empty name, a name
    already taken, an empty phone number, an empty search query. *)
Inductive ValidationError : string -> Prop :=
| name_empty : ValidationError "ERROR: Name cannot be empty!"
| name_exists (name : string) :
    ValidationError ("ERROR: Contact '" ++ name ++ "' already exists!")
| phone_required : ValidationError "ERROR: Phone number is required!"
| query_empty : ValidationError "ERROR: Search query cannot be empty!".

(** The message of a failed lookup. *)
Inductive NotFoundError : string -> Prop :=
| not_found (name : string) :
    NotFoundError ("ERROR: Contact '" ++ name ++ "' not found!").

(** The notices of [search_contact], [update_contact] and
    [delete_contact] on an empty book. *)
Inductive NoContacts : string -> Prop :=
| none_to_search : NoContacts (Str.nl ++ "No contacts to search!")
| none_to_update : NoContacts (Str.nl ++ "No contacts to update!")
| none_to_delete : NoContacts (Str.nl ++ "No contacts to delete!").

(** The notice of a deletion that was not confirmed. *)
Inductive Cancelled : string -> Prop :=
| deletion_cancelled : Cancelled "Deletion cancelled.".

(** The call returns, and the last thing it printed is a message of the
    kind [E]. *)
Definition ends_with (E : string -> Prop) (r : result unit) : Prop :=
  exists w' before msg,
    r = Ok tt w' /\ stdout w' = (before ++ [line msg])%list /\ E msg.

(** The world a call leaves behind, however it ends. *)
Definition final {A} (r : result A) : option world :=
  match r with
  | Ok _ w | Raise _ w => Some w
  | Untyped => None
  end.

(** ** Names *)

(** Two names are the same name when their lower-case forms are equal. *)
Definition same_name (a b : string) : Prop := Str.lower a = Str.lower b.

(** Some contact of the book goes by [name]. *)
Definition name_taken (name : string) (cs : store) : Prop :=
  exists k, In k (keys cs) /\ same_name k name.

(** The uniqueness invariant: no two keys are the same name. *)
Definition names_distinct (cs : store) : bool :=
  nodupb (map Str.lower (keys cs)).

(** ** Records *)

(** The value of a field, the empty string when the field is missing. *)
Definition field (key : string) (d : details) : string :=
  match get key d with
  | Some v => v
  | None => ""
  end.

(** A contact's details hold a phone, an email and an address. *)
Definition record_ok (d : details) : bool :=
  match get "phone" d, get "email" d, get "address" d with
  | Some _, Some _, Some _ => true
  | _, _, _ => false
  end.

Definition records_ok (cs : store) : bool :=
  forallb (fun kv => record_ok (snd kv)) cs.

(** The details [add_contact] stores. *)
Definition new_record (phone email address : string) : details :=
  [("phone", phone); ("email", email); ("address", address)].

(** The table line of a contact. *)
Definition row_of (item : string * details) : string :=
  line (ContactBook.row (fst item) (field "phone" (snd item))
          (field "email" (snd item)) (field "address" (snd item))).

(** [w] with another book. *)
Definition with_contacts (cs : store) (w : world) : world :=
  mkWorld cs (disk w) (write_fault w) (stdin w) (stdout w) (written w).

(** [w] with more written to standard output. *)
Definition saying (pieces : list string) (w : world) : world :=
  mkWorld (contacts w) (disk w) (write_fault w) (stdin w)
    (stdout w ++ pieces) (written w).

(** The exceptions [load_contacts] catches. *)
Definition caught_on_load (e : exn) : bool :=
  match e with
  | JSONDecodeError | FileNotFoundError => true
  | _ => false
  end.

(** In what was written, the piece [x] comes first and the piece [y]
    somewhere after it. *)
Fixpoint listed_before (x y : string) (out : list string) : bool :=
  match out with
  | [] => false
  | z :: out' =>
      if (z =? x)%string then Str.list_in y out' else listed_before x y out'
  end.

(** The contact is a hit for the query: the query occurs in its
    lower-cased name, in its phone number as stored, or in its
    lower-cased email. *)
Definition matches (query : string) (item : string * details) : bool :=
  Str.contains query (Str.lower (fst item))
  || Str.contains query (field "phone" (snd item))
  || Str.contains query (Str.lower (field "email" (snd item))).

(** What [search_contact] prints about the contacts it found. *)
Definition search_report (found : store) : list string :=
  match found with
  | [] => [line "No contacts found matching your search!"]
  | _ =>
      ([line (Str.nl ++ "Found " ++ Str.of_nat (List.length found)
              ++ " match(es):");
        line ContactBook.header; line ContactBook.rule]
       ++ map row_of found)%list
  end.

(** The details [update_contact] leaves, from the three values read
    (trimmed): a value that is not empty replaces the field. *)
Definition revised (new_phone new_email new_address : string)
    (current : details) : details :=
  let current :=
    if Str.is_empty new_phone then current
    else set "phone" new_phone current in
  let current :=
    if Str.is_empty new_email then current
    else set "email" new_email current in
  if Str.is_empty new_address then current
  else set "address" new_address current.

(** The messages of success. *)
Inductive Added : string -> Prop :=
| added (name : string) :
    Added ("SUCCESS: Contact '" ++ name ++ "' added successfully!").

Inductive Updated : string -> Prop :=
| updated (name : string) :
    Updated ("SUCCESS: Contact '" ++ name ++ "' updated successfully!").

Inductive Deleted : string -> Prop :=
| deleted (name : string) :
    Deleted ("SUCCESS: Contact '" ++ name ++ "' deleted successfully!").

(** What [update_contact] shows of the contact found before it saves. *)
Definition update_dialogue (name : string) (d : details) : list string :=
  [line (Str.nl ++ "=== UPDATE CONTACT ===");
   "Enter the name of the contact to update: ";
   line (Str.nl ++ "Current details for '" ++ name ++ "':");
   line ("Phone: " ++ field "phone" d);
   line ("Email: " ++ field "email" d);
   line ("Address: " ++ field "address" d);
   line (Str.nl ++ "Enter new details (press Enter to keep current value):");
   "Phone (" ++ field "phone" d ++ "): ";
   "Email (" ++ field "email" d ++ "): ";
   "Address (" ++ field "address" d ++ "): "].

(** What [delete_contact] shows of the contact found before it acts. *)
Definition delete_dialogue (name : string) (d : details) : list string :=
  [line (Str.nl ++ "=== DELETE CONTACT ===");
   "Enter the name of the contact to delete: ";
   line (Str.nl ++ "Contact to delete:");
   line ("Name: " ++ name);
   line ("Phone: " ++ field "phone" d);
   line ("Email: " ++ field "email" d);
   line ("Address: " ++ field "address" d);
   Str.nl ++ "Are you sure you want to delete '" ++ name ++ "'? (y/N): "].

(** ** Invariants of the book *)

(** Whatever way the call ends, a property of the book that held before
    holds after. *)
Definition keeps {A} (I : store -> Prop) (m : M A) : Prop :=
  forall w,
    I (contacts w) ->
    match m w with
    | Ok _ w' | Raise _ w' => I (contacts w')
    | Untyped => True
    end.

(** The five operations of the menu. *)
Inductive operation : Type := Add | View | Search | Update | Delete.

Definition perform (o : operation) : M unit :=
  match o with
  | Add => ContactBook.add_contact
  | View => ContactBook.view_contacts
  | Search => ContactBook.search_contact
  | Update => ContactBook.update_contact
  | Delete => ContactBook.delete_contact
  end.

(** One step of a session: an operation runs to its end, or the menu
    loop reads and prints on its own, which leaves the book alone. *)
Inductive step (w w' : world) : Prop :=
| step_call (o : operation) : final (perform o w) = Some w' -> step w w'
| step_io : contacts w' = contacts w -> step w w'.

(** The worlds a session can get to from [w]. *)
Inductive reachable (w : world) : world -> Prop :=
| reach_start : reachable w w
| reach_step (w1 w2 : world) :
    reachable w w1 -> step w1 w2 -> reachable w w2.

(** * Vocabulary of the further properties *)

(** However the call ends, the world it leaves is in the relation [R] to
    the one it started in, and the book has kept its type. *)
Definition stays {A} (R : world -> world -> Prop) (m : M A) : Prop :=
  forall w,
    match m w with
    | Ok _ w' | Raise _ w' => R w w'
    | Untyped => False
    end.

(** Nothing but standard input and output differs between the worlds. *)
Definition untouched (w w' : world) : Prop :=
  contacts w' = contacts w /\ disk w' = disk w
  /\ write_fault w' = write_fault w /\ written w' = written w.

(** No line has been put back on standard input. *)
Definition no_more_input (w w' : world) : Prop :=
  List.length (stdin w') <= List.length (stdin w).

(** The call saved the book it leaves: the file holds its text, and the
    text is the last one written. *)
Definition saved (w w' : world) : Prop :=
  write_fault w = None
  /\ disk w' = Text (Json.dumps (contacts w'))
  /\ written w' = (written w ++ [Json.dumps (contacts w')])%list.

(** The call came to save and the file could not be opened: file and
    record of saves are as before. *)
Definition save_failed (e : exn) (w w' : world) : Prop :=
  write_fault w = Some e /\ disk w' = disk w /\ written w' = written w.

(** The ways a call may end, seen from the file: nothing but input and
    output happened; or it returns with the book saved; or the save
    failed and its exception is the one raised. *)
Definition ending (w : world) (r : result unit) : Prop :=
  match r with
  | Ok _ w' => untouched w w' \/ saved w w'
  | Raise e w' => untouched w w' \/ save_failed e w w'
  | Untyped => False
  end.

(** A program started afresh on the file of [w] finds the book of [w]. *)
Definition restorable (w : world) : Prop :=
  forall v : world,
    disk v = disk w ->
    ContactBook.init v = Ok tt (with_contacts (contacts w) v).



(** On a book whose records are complete, [m] returns a value that is
    [Q], or raises because input ended or because the file could not be
    opened for writing; the records it leaves are complete, and what
    opening the file for writing would do is as before. *)
Definition runs_clean {A} (Q : A -> Prop) (m : M A) : Prop :=
  forall w,
    records_ok (contacts w) = true ->
    match m w with
    | Ok a w' =>
        Q a /\ records_ok (contacts w') = true
        /\ write_fault w' = write_fault w
    | Raise e w' =>
        records_ok (contacts w') = true
        /\ (e = EOFError \/ write_fault w = Some e)
    | Untyped => False
    end.

(** Any value will do. *)
Definition any {A} (_ : A) : Prop := True.

(** The three fields of a record. *)
Definition field_name (key : string) : Prop :=
  key = "phone" \/ key = "email" \/ key = "address".

(** The two lines [run] prints on its way out. *)
Definition farewell : list string :=
  [line (Str.nl ++ "Thank you for using Contact Book Manager!");
   line "All contacts have been saved automatically."].

(** The book is a dictionary and the file holds it. *)
Definition settled (w : world) : Prop :=
  store_ok (contacts w) = true /\ restorable w.
(** * Properties *)

(** ** Strings *)

Section StringFacts.

Lemma is_empty_true (s : string) : Str.is_empty s = true <-> s = "".
Proof. destruct s; simpl; split; congruence. Qed.

Lemma is_empty_false (s : string) : Str.is_empty s = false <-> s <> "".
Proof. destruct s; simpl; split; congruence. Qed.

Lemma append_nil_r (s : string) : s ++ "" = s.
Proof. induction s; simpl; congruence. Qed.

Lemma append_assoc (a b c : string) : (a ++ b) ++ c = a ++ (b ++ c).
Proof. induction a; simpl; congruence. Qed.

Lemma prefix_iff (q s : string) :
  prefix q s = true <-> exists after, s = q ++ after.
Proof.
  revert s; induction q as [|c q IH]; intros s.
  - split; [intros _; now exists s | intros _; now destruct s].
  - destruct s as [|c' s]; simpl.
    + split; [discriminate | intros [after H]; discriminate].
    + destruct (Ascii.ascii_dec c c') as [->|Hne].
      * rewrite IH. split; intros [after H]; exists after.
        -- now rewrite H.
        -- now inversion H.
      * split; [discriminate | intros [after H]; inversion H; congruence].
Qed.

(** Python's [q in s] is the substring relation. *)
Lemma contains_iff (q s : string) :
  Str.contains q s = true <-> Substring q s.
Proof.
  unfold Substring. induction s as [|c s IH].
  - cbn [Str.contains]. rewrite orb_false_r, prefix_iff. split.
    + intros [after H]. exists "", after. exact H.
    + intros [before [after H]]. destruct before; simpl in H.
      * now exists after.
      * discriminate.
  - cbn [Str.contains]. rewrite orb_true_iff, IH, prefix_iff. split.
    + intros [[after H] | [before [after H]]].
      * exists "", after. exact H.
      * exists (String c before), after. simpl. now rewrite H.
    + intros [before [after H]]. destruct before as [|c' before]; simpl in H.
      * left. now exists after.
      * right. inversion H. now exists before, after.
Qed.

Lemma list_in_iff (x : string) (xs : list string) :
  Str.list_in x xs = true <-> In x xs.
Proof.
  unfold Str.list_in. rewrite existsb_exists. split.
  - intros [y [Hy E]]. apply String.eqb_eq in E. now subst.
  - intros H. exists x. split; [assumption | apply String.eqb_refl].
Qed.

(** Code-point order on characters and strings. *)

Lemma ascii_compare_refl (c : ascii) : Ascii.compare c c = Eq.
Proof. unfold Ascii.compare. apply N.compare_refl. Qed.

Lemma ascii_compare_lt_trans (a b c : ascii) :
  Ascii.compare a b = Lt -> Ascii.compare b c = Lt -> Ascii.compare a c = Lt.
Proof.
  unfold Ascii.compare. rewrite !N.compare_lt_iff. apply N.lt_trans.
Qed.

Lemma string_compare_refl (s : string) : String.compare s s = Eq.
Proof.
  induction s as [|c s IH]; simpl; [reflexivity|].
  now rewrite ascii_compare_refl.
Qed.

Lemma string_compare_lt_trans (a b c : string) :
  String.compare a b = Lt -> String.compare b c = Lt ->
  String.compare a c = Lt.
Proof.
  revert b c; induction a as [|x a IH]; intros [|y b] [|z c]; simpl;
    try congruence.
  destruct (Ascii.compare x y) eqn:Exy; try discriminate;
    destruct (Ascii.compare y z) eqn:Eyz; try discriminate; intros H1 H2.
  - apply Ascii.compare_eq_iff in Exy, Eyz. subst.
    rewrite ascii_compare_refl. eauto.
  - apply Ascii.compare_eq_iff in Exy. subst. now rewrite Eyz.
  - apply Ascii.compare_eq_iff in Eyz. subst. now rewrite Exy.
  - now rewrite (ascii_compare_lt_trans _ _ _ Exy Eyz).
Qed.

Lemma leb_refl (s : string) : (s <=? s)%string = true.
Proof. unfold String.leb. now rewrite string_compare_refl. Qed.

Lemma leb_trans (a b c : string) :
  (a <=? b)%string = true -> (b <=? c)%string = true ->
  (a <=? c)%string = true.
Proof.
  unfold String.leb.
  destruct (String.compare a b) eqn:Eab; try discriminate;
    destruct (String.compare b c) eqn:Ebc; try discriminate; intros _ _.
  - apply String.compare_eq_iff in Eab, Ebc. subst.
    now rewrite string_compare_refl.
  - apply String.compare_eq_iff in Eab. subst. now rewrite Ebc.
  - apply String.compare_eq_iff in Ebc. subst. now rewrite Eab.
  - now rewrite (string_compare_lt_trans _ _ _ Eab Ebc).
Qed.

Lemma leb_false_flip (a b : string) :
  (a <=? b)%string = false -> (b <=? a)%string = true.
Proof.
  intros H. destruct (String.leb_total a b) as [E|E]; congruence.
Qed.

(** Lower-casing moves no white space: it commutes with [strip]. *)

Lemma isspace_lower_char (c : ascii) :
  Str.isspace (Str.lower_char c) = Str.isspace c.
Proof. destruct c as [[] [] [] [] [] [] [] []]; reflexivity. Qed.

Lemma lstrip_lower (s : string) :
  Str.lstrip (Str.lower s) = Str.lower (Str.lstrip s).
Proof.
  induction s as [|c s IH]; simpl; [reflexivity|].
  rewrite isspace_lower_char. destruct (Str.isspace c); [exact IH|reflexivity].
Qed.

Lemma rstrip_lower (s : string) :
  Str.rstrip (Str.lower s) = Str.lower (Str.rstrip s).
Proof.
  induction s as [|c s IH]; simpl; [reflexivity|].
  rewrite IH, isspace_lower_char.
  destruct (Str.rstrip s); simpl; [|reflexivity].
  destruct (Str.isspace c); reflexivity.
Qed.

Lemma strip_lower (s : string) :
  Str.strip (Str.lower s) = Str.lower (Str.strip s).
Proof. unfold Str.strip. now rewrite lstrip_lower, rstrip_lower. Qed.

End StringFacts.

(** ** Dictionaries *)

Lemma nodupb_iff (l : list string) : nodupb l = true <-> NoDup l.
Proof.
  induction l as [|x l IH]; simpl.
  - split; [constructor | reflexivity].
  - rewrite andb_true_iff, negb_true_iff, IH. split.
    + intros [H1 H2]. constructor; [|assumption].
      intros Hin. apply list_in_iff in Hin. congruence.
    + intros H. inversion H as [|? ? Hn Hd]; subst. split; [|assumption].
      destruct (Str.list_in x l) eqn:E; [|reflexivity].
      apply list_in_iff in E. contradiction.
Qed.

Section DictFacts.
Context {V : Type}.
Implicit Types (d : dict V) (k : string) (v : V).

Lemma get_some_in d k v : get k d = Some v -> In k (keys d).
Proof.
  induction d as [|[k' v'] d IH]; simpl; [discriminate|].
  destruct (String.eqb_spec k' k); intros H; [left; assumption | right; auto].
Qed.

Lemma in_keys_get d k : In k (keys d) -> exists v, get k d = Some v.
Proof.
  induction d as [|[k' v'] d IH]; simpl; [contradiction|].
  destruct (String.eqb_spec k' k) as [->|Hne]; intros H.
  - now exists v'.
  - destruct H as [H|H]; [contradiction | auto].
Qed.

Lemma get_none_iff d k : get k d = None <-> ~ In k (keys d).
Proof.
  split.
  - intros H Hin. apply in_keys_get in Hin. destruct Hin as [v Hv]. congruence.
  - intros H. destruct (get k d) eqn:E; [|reflexivity].
    apply get_some_in in E. contradiction.
Qed.

Lemma get_in_items d k v : get k d = Some v -> In (k, v) d.
Proof.
  induction d as [|[k' v'] d IH]; simpl; [discriminate|].
  destruct (String.eqb_spec k' k) as [->|Hne]; intros H.
  - left. congruence.
  - right. auto.
Qed.

Lemma in_items_get d k v : uniq d -> In (k, v) d -> get k d = Some v.
Proof.
  unfold uniq. induction d as [|[k' v'] d IH]; simpl; [contradiction|].
  intros Hnd [H|H]; inversion Hnd as [|? ? Hn Hd]; subst.
  - inversion H; subst. now rewrite String.eqb_refl.
  - destruct (String.eqb_spec k' k) as [->|Hne]; [|auto].
    exfalso. apply Hn. change (In (fst (k, v)) (map fst d)). now apply in_map.
Qed.

Lemma set_fresh d k v : ~ In k (keys d) -> set k v d = (d ++ [(k, v)])%list.
Proof.
  induction d as [|[k' v'] d IH]; simpl; [reflexivity|].
  intros H. destruct (String.eqb_spec k' k) as [->|Hne].
  - exfalso. apply H. now left.
  - rewrite IH; [reflexivity | tauto].
Qed.

Lemma keys_set_present d k v : In k (keys d) -> keys (set k v d) = keys d.
Proof.
  induction d as [|[k' v'] d IH]; simpl; [contradiction|].
  destruct (String.eqb_spec k' k) as [->|Hne]; intros H; simpl.
  - reflexivity.
  - destruct H as [H|H]; [contradiction|]. now rewrite IH.
Qed.

Lemma get_set_same d k v : get k (set k v d) = Some v.
Proof.
  induction d as [|[k' v'] d IH]; simpl.
  - now rewrite String.eqb_refl.
  - destruct (String.eqb_spec k' k) as [->|Hne]; simpl.
    + now rewrite String.eqb_refl.
    + destruct (String.eqb_spec k' k); [contradiction | assumption].
Qed.

Lemma get_set_other d k k' v : k <> k' -> get k' (set k v d) = get k' d.
Proof.
  intros Hne. induction d as [|[k0 v0] d IH]; simpl.
  - destruct (String.eqb_spec k k'); [contradiction | reflexivity].
  - destruct (String.eqb_spec k0 k) as [->|H0]; simpl.
    + destruct (String.eqb_spec k k'); [contradiction | reflexivity].
    + now rewrite IH.
Qed.

Lemma set_get_id d k v : get k d = Some v -> set k v d = d.
Proof.
  induction d as [|[k' v'] d IH]; simpl; [discriminate|].
  destruct (String.eqb_spec k' k) as [->|Hne]; intros H.
  - congruence.
  - now rewrite IH.
Qed.

Lemma keys_del_subset d k x : In x (keys (del k d)) -> In x (keys d).
Proof.
  induction d as [|[k' v'] d IH]; simpl; [contradiction|].
  destruct (String.eqb_spec k' k); simpl; intros H; [now right|].
  destruct H; [now left | right; auto].
Qed.

(** Deleting a key keeps any duplicate-freeness of the keys' images. *)
Lemma nodup_map_del (f : string -> string) d k :
  NoDup (map f (keys d)) -> NoDup (map f (keys (del k d))).
Proof.
  induction d as [|[k' v'] d IH]; simpl; [auto|].
  intros H. inversion H as [|? ? Hn Hd]; subst.
  destruct (String.eqb_spec k' k); simpl; [assumption|].
  constructor; [|auto].
  intros Hin. apply Hn. apply in_map_iff in Hin. destruct Hin as [x [E Hx]].
  apply in_map_iff. exists x. split; [assumption|].
  eapply keys_del_subset; eassumption.
Qed.

Lemma get_del_same d k : uniq d -> get k (del k d) = None.
Proof.
  unfold uniq. induction d as [|[k' v'] d IH]; simpl; [reflexivity|].
  intros H. inversion H as [|? ? Hn Hd]; subst.
  destruct (String.eqb_spec k' k) as [->|Hne]; simpl.
  - now apply get_none_iff.
  - destruct (String.eqb_spec k' k); [contradiction | auto].
Qed.

Lemma get_del_other d k k' : k <> k' -> get k' (del k d) = get k' d.
Proof.
  intros Hne. induction d as [|[k0 v0] d IH]; simpl; [reflexivity|].
  destruct (String.eqb_spec k0 k) as [->|H0]; simpl.
  - destruct (String.eqb_spec k k'); [contradiction | reflexivity].
  - now rewrite IH.
Qed.

Lemma nodup_map_injective (f : string -> string) (l : list string) :
  NoDup (map f l) -> NoDup l.
Proof.
  induction l as [|x l IH]; simpl; intros H; [constructor|].
  inversion H as [|? ? Hn Hd]; subst. constructor; [|auto].
  intros Hin. apply Hn. now apply in_map.
Qed.

End DictFacts.

(** ** Sorting *)

Section SortFacts.
Context {V : Type}.

Lemma insert_item_perm (x : string * V) l :
  Permutation (insert_item x l) (x :: l).
Proof.
  induction l as [|y l IH]; simpl; [apply Permutation_refl|].
  destruct (fst x <=? fst y)%string; [apply Permutation_refl|].
  eapply perm_trans; [apply perm_skip, IH | apply perm_swap].
Qed.

Lemma sorted_perm (l : list (string * V)) : Permutation (sorted l) l.
Proof.
  induction l as [|x l IH]; simpl; [constructor|].
  eapply perm_trans; [apply insert_item_perm | now apply perm_skip].
Qed.

Lemma insert_item_hdrel (a x : string * V) l :
  name_le a x -> HdRel name_le a l -> HdRel name_le a (insert_item x l).
Proof.
  intros Hax Hl. destruct l as [|y l]; simpl; [now constructor|].
  destruct (fst x <=? fst y)%string; constructor; [assumption|].
  now inversion Hl.
Qed.

Lemma insert_item_sorted (x : string * V) l :
  Sorted name_le l -> Sorted name_le (insert_item x l).
Proof.
  induction l as [|y l IH]; simpl; intros H.
  - repeat constructor.
  - destruct (fst x <=? fst y)%string eqn:E.
    + constructor; [assumption | now constructor].
    + inversion H; subst. constructor; [auto|].
      apply insert_item_hdrel; [|assumption].
      now apply leb_false_flip.
Qed.

Lemma name_le_trans : Relations_1.Transitive (@name_le V).
Proof. intros x y z. unfold name_le. apply leb_trans. Qed.

Lemma sorted_ordered (l : list (string * V)) :
  StronglySorted name_le (sorted l).
Proof.
  apply Sorted_StronglySorted; [exact name_le_trans|].
  induction l as [|x l IH]; simpl; [constructor|].
  now apply insert_item_sorted.
Qed.

Lemma sorted_length (l : list (string * V)) :
  List.length (sorted l) = List.length l.
Proof. apply Permutation_length, sorted_perm. Qed.

End SortFacts.

(** ** The JSON encoding and its decoder *)

Section JsonFacts.
Import Json.

(** One escaped character is read back as that character. *)
Lemma lex_escape (c : ascii) (buf rest : string) :
  lex (InString buf) (escape c ++ rest) = lex (InString (snoc buf c)) rest.
Proof.
  destruct c as [[] [] [] [] [] [] [] []]; reflexivity.
Qed.

Lemma lex_escape_all (s buf rest : string) :
  lex (InString buf) (escape_all s ++ String dquote rest)
  = TString (buf ++ s) :: lex Plain rest.
Proof.
  revert buf; induction s as [|c s IH]; intros buf.
  - simpl. now rewrite append_nil_r.
  - cbn [escape_all]. rewrite append_assoc, lex_escape, IH.
    unfold snoc. now rewrite append_assoc.
Qed.

(** A string literal written by [encode_str] is one [TString] token. *)
Lemma lex_encode_str (s rest : string) :
  lex Plain (encode_str s ++ rest) = TString s :: lex Plain rest.
Proof.
  unfold encode_str. cbn [append]. rewrite append_assoc.
  change (lex Plain (String dquote (escape_all s ++ String dquote "" ++ rest)))
    with (lex (InString "") (escape_all s ++ String dquote rest)).
  now rewrite lex_escape_all.
Qed.

Lemma lex_field (kv : string * string) (rest : string) :
  lex Plain ((encode_str (fst kv) ++ ": " ++ encode_str (snd kv)) ++ rest)
  = (Tokens.of_field kv ++ lex Plain rest)%list.
Proof.
  rewrite !append_assoc, lex_encode_str.
  change (lex Plain (": " ++ encode_str (snd kv) ++ rest))
    with (TColon :: lex Plain (encode_str (snd kv) ++ rest)).
  now rewrite lex_encode_str.
Qed.

Lemma join_cons (sep p q : string) (ps : list string) :
  join sep (p :: q :: ps) = p ++ sep ++ join sep (q :: ps).
Proof. reflexivity. Qed.

Lemma tokens_join_cons (p q : list token) (ps : list (list token)) :
  Tokens.join (p :: q :: ps) = (p ++ TComma :: Tokens.join (q :: ps))%list.
Proof. reflexivity. Qed.

(** Parts put together with a separator that holds one comma are read
    back as the parts' tokens with a comma between them. *)
Lemma lex_joined {A} (f : A -> string) (g : A -> list token) (sep : string) :
  (forall rest, lex Plain (sep ++ rest) = TComma :: lex Plain rest) ->
  (forall x rest, lex Plain (f x ++ rest) = (g x ++ lex Plain rest)%list) ->
  forall (l : list A) (rest : string),
    lex Plain (join sep (map f l) ++ rest)
    = (Tokens.join (map g l) ++ lex Plain rest)%list.
Proof.
  intros Hsep Hf l. induction l as [|x l IH]; intros rest; [reflexivity|].
  destruct l as [|y l].
  - cbn [map join Tokens.join]. apply Hf.
  - change (map f (x :: y :: l)) with (f x :: f y :: map f l).
    change (map g (x :: y :: l)) with (g x :: g y :: map g l).
    rewrite join_cons, tokens_join_cons.
    rewrite !append_assoc, Hf, Hsep.
    rewrite <- app_assoc, <- app_comm_cons.
    do 2 f_equal. apply (IH rest).
Qed.

Lemma lex_details (d : details) (rest : string) :
  lex Plain (dumps_details d ++ rest)
  = (Tokens.of_details d ++ lex Plain rest)%list.
Proof.
  unfold dumps_details, Tokens.of_details. destruct d as [|kv d].
  - reflexivity.
  - rewrite !append_assoc.
    change (lex Plain ("{" ++ Str.nl ++ "    " ++ ?x))
      with (TLBrace :: lex Plain x).
    rewrite lex_joined with (g := Tokens.of_field).
    + rewrite <- app_comm_cons, <- app_assoc. reflexivity.
    + reflexivity.
    + intros x r. apply lex_field.
Qed.

Lemma lex_entry (kv : string * details) (rest : string) :
  lex Plain ((encode_str (fst kv) ++ ": " ++ dumps_details (snd kv)) ++ rest)
  = (Tokens.of_entry kv ++ lex Plain rest)%list.
Proof.
  rewrite !append_assoc, lex_encode_str.
  change (lex Plain (": " ++ ?x)) with (TColon :: lex Plain x).
  now rewrite lex_details.
Qed.

(** The text [dumps] writes is cut into the tokens of the store. *)
Lemma lex_dumps (s : store) : lex Plain (dumps s) = Tokens.of_store s.
Proof.
  unfold dumps, Tokens.of_store. destruct s as [|kv s].
  - reflexivity.
  - change (lex Plain ("{" ++ Str.nl ++ "  " ++ ?x))
      with (TLBrace :: lex Plain x).
    rewrite lex_joined with (g := Tokens.of_entry).
    + reflexivity.
    + reflexivity.
    + intros x r. apply lex_entry.
Qed.

(** [dict(pairs)] on pairs with fresh, distinct keys appends them. *)
Lemma set_all_fresh {V} (pairs : list (string * V)) (acc : dict V) :
  NoDup (keys (acc ++ pairs)%list) -> Tokens.set_all pairs acc = (acc ++ pairs)%list.
Proof.
  unfold Tokens.set_all. revert acc.
  induction pairs as [|[k v] pairs IH]; intros acc H; simpl.
  - now rewrite app_nil_r.
  - assert (Hk : ~ In k (keys acc)).
    { unfold keys in *. rewrite map_app in H. simpl in H.
      apply NoDup_remove_2 in H. intros Hin. apply H.
      apply in_or_app. now left. }
    rewrite (set_fresh _ _ _ Hk), IH.
    + now rewrite <- app_assoc.
    + now rewrite <- app_assoc.
Qed.

(** Parts joined by commas: the first, then each of the others after a
    comma. *)
Lemma tokens_join_flat {A} (g : A -> list token) (x : A) (l : list A) :
  Tokens.join (map g (x :: l))
  = (g x ++ flat_map (fun y => TComma :: g y) l)%list.
Proof.
  revert x. induction l as [|y l IH]; intros x.
  - cbn. now rewrite app_nil_r.
  - change (map g (x :: y :: l)) with (g x :: g y :: map g l).
    rewrite tokens_join_cons.
    change (g y :: map g l) with (map g (y :: l)). rewrite IH. reflexivity.
Qed.

(** The fields of a contact after the first, up to the closing brace. *)
Lemma close_fields (d : details) :
  forall (pairs : list (option string * value)) (name : option string)
         (v : value) (st : list frame) (ts : list token),
    close (InObject pairs name :: st) v
      (flat_map (fun kv => TComma :: Tokens.of_field kv) d ++ TRBrace :: ts)%list
    = close st
        (VObject ((pairs ++ [(name, v)])
                  ++ map (fun kv => (Some (fst kv), VString (snd kv))) d)%list)
        ts.
Proof.
  induction d as [|[k x] d IH]; intros pairs name v st ts.
  - cbn [flat_map map app]. rewrite app_nil_r. destruct ts; reflexivity.
  - cbn [flat_map map fst snd].
    change (Tokens.of_field (k, x)) with [TString k; TColon; TString x].
    cbn [app close element].
    rewrite IH. now rewrite <- app_assoc.
Qed.

(** The tokens of a contact's details are read as its value. *)
Lemma element_details (d : details) (st : list frame) (ts : list token) :
  too_deep st = false ->
  element st (Tokens.of_details d ++ ts)%list
  = close st (Tokens.value_of_details d) ts.
Proof.
  intros Hst. unfold Tokens.of_details, Tokens.value_of_details.
  destruct d as [|[k x] d].
  - cbn [map Tokens.join app element]. now rewrite Hst.
  - rewrite tokens_join_flat.
    change (Tokens.of_field (k, x)) with [TString k; TColon; TString x].
    rewrite <- app_assoc. cbn [app element]. rewrite Hst.
    rewrite <- app_assoc. cbn [app].
    rewrite close_fields. reflexivity.
Qed.

(** The contacts of a book after the first, up to the closing brace. *)
Lemma close_entries (s : store) :
  forall (pairs : list (option string * value)) (name : option string)
         (v : value) (ts : list token),
    close [InObject pairs name] v
      (flat_map (fun kv => TComma :: Tokens.of_entry kv) s ++ TRBrace :: ts)%list
    = close []
        (VObject ((pairs ++ [(name, v)])
                  ++ map (fun kv => (Some (fst kv),
                                     Tokens.value_of_details (snd kv))) s)%list)
        ts.
Proof.
  induction s as [|[k d] s IH]; intros pairs name v ts.
  - cbn [flat_map map app]. rewrite app_nil_r. destruct ts; reflexivity.
  - cbn [flat_map map fst snd]. unfold Tokens.of_entry at 1. cbn [fst snd].
    cbn [app close]. rewrite <- app_assoc.
    rewrite element_details by reflexivity.
    rewrite IH. now rewrite <- app_assoc.
Qed.

(** The tokens of a book are read as its value. *)
Lemma element_store (s : store) :
  element [] (Tokens.of_store s) = Value (Tokens.value_of_store s).
Proof.
  unfold Tokens.of_store, Tokens.value_of_store. destruct s as [|[k d] s].
  - reflexivity.
  - rewrite tokens_join_flat. unfold Tokens.of_entry at 1. cbn [fst snd].
    rewrite <- !app_assoc. cbn [app element].
    change (too_deep []) with false. cbv iota.
    rewrite element_details by reflexivity.
    rewrite close_entries. reflexivity.
Qed.

(** [dict(pairs)] is [set] on every pair in turn. *)
Lemma gather_named {A V} (f : A -> V) (l : list (string * A)) (acc : dict V) :
  gather (map (fun kv => (Some (fst kv), f (snd kv))) l) acc
  = Some (Tokens.set_all (map (fun kv => (fst kv, f (snd kv))) l) acc).
Proof.
  unfold Tokens.set_all. revert acc.
  induction l as [|[k a] l IH]; intros acc; [reflexivity|].
  cbn [map gather fold_left fst snd]. apply IH.
Qed.

Lemma read_all_map {A B} (f : A -> option B) (g : B -> A) (d : dict B) :
  (forall kv, In kv d -> f (g (snd kv)) = Some (snd kv)) ->
  read_all f (map (fun kv => (fst kv, g (snd kv))) d) = Some d.
Proof.
  induction d as [|[k b] d IH]; intros H; [reflexivity|].
  cbn [map read_all fst snd].
  pose proof (H (k, b) (or_introl eq_refl)) as Hb. cbn [snd] in Hb.
  rewrite Hb, IH; [reflexivity|]. intros kv Hin. apply H. now right.
Qed.

Lemma keys_map_values {A B} (g : A -> B) (d : dict A) :
  keys (map (fun kv => (fst kv, g (snd kv))) d) = keys d.
Proof. unfold keys. rewrite map_map. reflexivity. Qed.

Lemma as_details_value (d : details) :
  NoDup (keys d) -> as_details (Tokens.value_of_details d) = Some d.
Proof.
  intros Hd. unfold as_details, Tokens.value_of_details.
  rewrite (gather_named VString). rewrite set_all_fresh.
  - cbn [app]. apply read_all_map. reflexivity.
  - cbn [app]. now rewrite keys_map_values.
Qed.

Lemma as_store_value (s : store) :
  store_ok s = true -> as_store (Tokens.value_of_store s) = Some s.
Proof.
  unfold store_ok. rewrite andb_true_iff, forallb_forall.
  intros [Hk Hd]. apply nodupb_iff in Hk.
  unfold as_store, Tokens.value_of_store.
  rewrite (gather_named Tokens.value_of_details). rewrite set_all_fresh.
  - cbn [app]. apply read_all_map. intros kv Hin.
    apply as_details_value, nodupb_iff, Hd, Hin.
  - cbn [app]. now rewrite keys_map_values.
Qed.

(** What [json.dump] writes, [json.load] reads back. *)
Lemma loads_dumps (s : store) :
  store_ok s = true -> loads (dumps s) = Decoded s.
Proof.
  intros Hs. unfold loads.
  now rewrite lex_dumps, element_store, (as_store_value s Hs).
Qed.

(** The decoder on texts [dumps] does not write: no white space, the
    escapes [\u0041] and [\/], a repeated key, a value that a later one
    replaces, and documents that are no book. *)

Let q : string := String dquote "".

Example loads_compact :
  loads ("{" ++ q ++ "Al" ++ q ++ ":{" ++ q ++ "phone" ++ q ++ ":"
         ++ q ++ "1\u0041\/" ++ q ++ "}}")
  = Decoded [("Al", [("phone", "1A/")])].
Proof. reflexivity. Qed.

Example loads_repeated_key :
  loads ("{" ++ q ++ "a" ++ q ++ ": {}, " ++ q ++ "b" ++ q ++ ": {}, "
         ++ q ++ "a" ++ q ++ ": {" ++ q ++ "x" ++ q ++ ": " ++ q ++ "y" ++ q
         ++ "}}")
  = Decoded [("a", [("x", "y")]); ("b", [])].
Proof. reflexivity. Qed.

Example loads_replaced_value :
  loads ("{" ++ q ++ "a" ++ q ++ ": [1, null], " ++ q ++ "a" ++ q ++ ": {}}")
  = Decoded [("a", [])].
Proof. reflexivity. Qed.

Example loads_array : loads "[]" = Json.Untyped.
Proof. reflexivity. Qed.

Example loads_number_for_details :
  loads ("{" ++ q ++ "a" ++ q ++ ": 1}") = Json.Untyped.
Proof. reflexivity. Qed.

Example loads_other_values :
  loads ("{" ++ q ++ "a" ++ q ++ ": [1.5e-3, -0, true, {" ++ q ++ "\u4e2d"
         ++ q ++ ": NaN}]}")
  = Json.Untyped.
Proof. reflexivity. Qed.

(** Texts that are no JSON document: each raises JSONDecodeError,
    wherever the text goes wrong. *)

Example loads_empty_text : loads "" = DecodeError.
Proof. reflexivity. Qed.

Example loads_extra_data : loads "{} {}" = DecodeError.
Proof. reflexivity. Qed.

Example loads_trailing_comma :
  loads ("{" ++ q ++ "a" ++ q ++ ": {},}") = DecodeError.
Proof. reflexivity. Qed.

Example loads_bare_word : loads "nonsense" = DecodeError.
Proof. reflexivity. Qed.

Example loads_bare_value :
  loads ("{" ++ q ++ "a" ++ q ++ ": nope}") = DecodeError.
Proof. reflexivity. Qed.

Example loads_cut_constant : loads "tru" = DecodeError.
Proof. reflexivity. Qed.

Example loads_bare_sign : loads "-" = DecodeError.
Proof. reflexivity. Qed.

Example loads_open_array : loads "[1, 2" = DecodeError.
Proof. reflexivity. Qed.

Example loads_after_string :
  loads (q ++ "abc" ++ q ++ " xyz") = DecodeError.
Proof. reflexivity. Qed.

Example loads_number_cut_short :
  loads ("{" ++ q ++ "a" ++ q ++ ": 01}") = DecodeError
  /\ loads "[1.]" = DecodeError
  /\ loads "[1e+]" = DecodeError
  /\ loads "[.5]" = DecodeError.
Proof. repeat split; reflexivity. Qed.

Example loads_single_quotes : loads "{'a': {}}" = DecodeError.
Proof. reflexivity. Qed.

Example loads_unclosed :
  loads ("{" ++ q ++ "a" ++ q ++ ": {" ++ q ++ "phone" ++ q ++ ": "
         ++ q ++ "1" ++ q ++ "}")
  = DecodeError.
Proof. reflexivity. Qed.

(** A text with a character that no token can start or go on with is no
    JSON document, wherever the character stands; below the limits of
    the interpreter, decoding it raises JSONDecodeError. *)

Lemma element_eq (st : list frame) (ts : list token) :
  element st ts
  = match ts with
    | TString s :: ts1 => close st (VString s) ts1
    | TBeyond :: ts1 | TConstant :: ts1 | TNumber false :: ts1 =>
        close st VOther ts1
    | TNumber true :: _ => Outside
    | TLBracket :: ts1 =>
        if too_deep st then Outside
        else match ts1 with
             | TRBracket :: ts2 => close st VOther ts2
             | _ => element (InArray :: st) ts1
             end
    | TLBrace :: ts1 =>
        if too_deep st then Outside
        else match ts1 with
             | TRBrace :: ts2 => close st (VObject []) ts2
             | TString k :: TColon :: ts2 =>
                 element (InObject [] (Some k) :: st) ts2
             | TBeyond :: TColon :: ts2 =>
                 element (InObject [] None :: st) ts2
             | _ => Invalid
             end
    | _ => Invalid
    end.
Proof. destruct ts; reflexivity. Qed.

Lemma close_eq (st : list frame) (v : value) (ts : list token) :
  close st v ts
  = match st with
    | [] =>
        match ts with
        | [] => Value v
        | _ => Invalid
        end
    | InArray :: st' =>
        match ts with
        | TComma :: ts1 => element st ts1
        | TRBracket :: ts1 => close st' VOther ts1
        | _ => Invalid
        end
    | InObject pairs name :: st' =>
        match ts with
        | TComma :: TString k :: TColon :: ts2 =>
            element (InObject (pairs ++ [(name, v)]) (Some k) :: st') ts2
        | TComma :: TBeyond :: TColon :: ts2 =>
            element (InObject (pairs ++ [(name, v)]) None :: st') ts2
        | TRBrace :: ts1 => close st' (VObject (pairs ++ [(name, v)])) ts1
        | _ => Invalid
        end
    end.
Proof. destruct ts; reflexivity. Qed.

Lemma too_deep_false (st : list frame) (n : nat) :
  List.length st + S n <= depth_limit -> too_deep st = false.
Proof. unfold too_deep. intros H. apply Nat.leb_gt. lia. Qed.

Ltac shorter Hlen Hbad Hhuge Hdeep :=
  match goal with
  | |- _ <= _ => cbn [List.length opens] in *; lia
  | |- In _ _ => simpl in Hbad |- *; intuition discriminate
  | |- ~ In _ _ =>
      let Hin := fresh in
      intros Hin; apply Hhuge; simpl in Hin |- *; tauto
  end.

Lemma bad_token_invalid (n : nat) :
  forall (ts : list token) (st : list frame),
    List.length ts <= n ->
    In TBad ts ->
    ~ In (TNumber true) ts ->
    List.length st + opens ts <= depth_limit ->
    element st ts = Invalid /\ forall v, close st v ts = Invalid.
Proof.
  induction n as [|n IH]; intros ts st Hlen Hbad Hhuge Hdeep.
  { destruct ts; [destruct Hbad | simpl in Hlen; lia]. }
  split.
  - rewrite element_eq. destruct ts as [|t ts1]; [reflexivity|].
    destruct t; try reflexivity.
    + (* an object *)
      cbn [opens] in Hdeep. rewrite (too_deep_false st (opens ts1)) by lia.
      destruct ts1 as [|t1 ts2]; [reflexivity|].
      destruct t1; try reflexivity.
      * refine (proj2 (IH ts2 st _ _ _ _) _); shorter Hlen Hbad Hhuge Hdeep.
      * destruct ts2 as [|t2 ts3]; [reflexivity|].
        destruct t2; try reflexivity.
        refine (proj1 (IH ts3 (_ :: st) _ _ _ _));
          shorter Hlen Hbad Hhuge Hdeep.
      * destruct ts2 as [|t2 ts3]; [reflexivity|].
        destruct t2; try reflexivity.
        refine (proj1 (IH ts3 (_ :: st) _ _ _ _));
          shorter Hlen Hbad Hhuge Hdeep.
    + (* an array *)
      cbn [opens] in Hdeep. rewrite (too_deep_false st (opens ts1)) by lia.
      destruct ts1 as [|t1 ts2]; [reflexivity|].
      destruct t1;
        try (refine (proj1 (IH (_ :: ts2) (InArray :: st) _ _ _ _));
             shorter Hlen Hbad Hhuge Hdeep).
      refine (proj2 (IH ts2 st _ _ _ _) _); shorter Hlen Hbad Hhuge Hdeep.
    + refine (proj2 (IH ts1 st _ _ _ _) _); shorter Hlen Hbad Hhuge Hdeep.
    + refine (proj2 (IH ts1 st _ _ _ _) _); shorter Hlen Hbad Hhuge Hdeep.
    + destruct huge; [exfalso; apply Hhuge; now left|].
      refine (proj2 (IH ts1 st _ _ _ _) _); shorter Hlen Hbad Hhuge Hdeep.
    + refine (proj2 (IH ts1 st _ _ _ _) _); shorter Hlen Hbad Hhuge Hdeep.
  - intros v. rewrite close_eq.
    destruct st as [|[|pairs name] st'].
    + destruct ts; [destruct Hbad | reflexivity].
    + destruct ts as [|t ts1]; [reflexivity|].
      destruct t; try reflexivity.
      * refine (proj2 (IH ts1 st' _ _ _ _) _); shorter Hlen Hbad Hhuge Hdeep.
      * refine (proj1 (IH ts1 (InArray :: st') _ _ _ _));
          shorter Hlen Hbad Hhuge Hdeep.
    + destruct ts as [|t ts1]; [reflexivity|].
      destruct t; try reflexivity.
      * refine (proj2 (IH ts1 st' _ _ _ _) _); shorter Hlen Hbad Hhuge Hdeep.
      * destruct ts1 as [|t1 ts2]; [reflexivity|].
        destruct t1; try reflexivity;
          (destruct ts2 as [|t2 ts3]; [reflexivity|]);
          destruct t2; try reflexivity;
          refine (proj1 (IH ts3 (_ :: st') _ _ _ _));
          shorter Hlen Hbad Hhuge Hdeep.
Qed.

Lemma loads_bad_token (text : string) :
  In TBad (lex Plain text) ->
  ~ In (TNumber true) (lex Plain text) ->
  opens (lex Plain text) <= depth_limit ->
  loads text = DecodeError.
Proof.
  intros Hbad Hhuge Hdeep. unfold loads.
  destruct (bad_token_invalid _ (lex Plain text) [] (Nat.le_refl _)
              Hbad Hhuge Hdeep) as [-> _].
  reflexivity.
Qed.

End JsonFacts.

(** ** Running the methods *)

(** Unfolds the monad and the primitive actions, leaving the string
    functions folded. *)
Ltac exec :=
  cbv beta iota zeta delta
    [bind ret raise print write_stdout input get_contacts set_contacts
     write_file read_file path_exists try_except getitem
     ContactBook.save_contacts
     contacts disk write_fault stdin stdout written].

(** Closes a goal between two worlds that differ in how the pieces of
    standard output are grouped. *)
Ltac same_world := rewrite <- ?app_assoc; reflexivity.

Lemma name_taken_iff (name : string) (cs : store) :
  Str.list_in (Str.lower name) (map Str.lower (keys cs)) = true
  <-> name_taken name cs.
Proof.
  unfold name_taken, same_name. rewrite list_in_iff, in_map_iff.
  split; intros [k [H1 H2]]; exists k; auto.
Qed.

Section AddContact.
Import ContactBook.
Variables (w : world) (l1 : string).

Let banner : string := line (Str.nl ++ "=== ADD NEW CONTACT ===").

Lemma add_name_empty (rest : list string) :
  stdin w = l1 :: rest ->
  Str.strip l1 = "" ->
  add_contact w
  = Ok tt (mkWorld (contacts w) (disk w) (write_fault w) rest
             (stdout w ++ [banner; "Enter contact name: ";
                           line "ERROR: Name cannot be empty!"])
             (written w)).
Proof.
  intros Hin Hname. destruct w as [cs dk wf inp out wr]. simpl in Hin.
  subst inp. apply is_empty_true in Hname.
  unfold add_contact. exec. rewrite Hname. exec. same_world.
Qed.

Lemma add_name_taken (rest : list string) :
  stdin w = l1 :: rest ->
  Str.strip l1 <> "" ->
  name_taken (Str.strip l1) (contacts w) ->
  add_contact w
  = Ok tt (mkWorld (contacts w) (disk w) (write_fault w) rest
             (stdout w ++ [banner; "Enter contact name: ";
                           line ("ERROR: Contact '" ++ Str.strip l1
                                 ++ "' already exists!")])
             (written w)).
Proof.
  intros Hin Hname Htaken. destruct w as [cs dk wf inp out wr].
  simpl in Hin, Htaken. subst inp.
  apply is_empty_false in Hname. apply name_taken_iff in Htaken.
  unfold add_contact. exec. rewrite Hname. exec. rewrite Htaken. exec.
  same_world.
Qed.

Variables (l2 l3 l4 : string) (rest : list string).
Hypothesis Hin : stdin w = l1 :: l2 :: l3 :: l4 :: rest.
Hypothesis Hname : Str.strip l1 <> "".
Hypothesis Hfree : ~ name_taken (Str.strip l1) (contacts w).

Let prompts : list string :=
  [banner; "Enter contact name: "; "Enter phone number: ";
   "Enter email address: "; "Enter address: "].

Lemma add_phone_empty :
  Str.strip l2 = "" ->
  add_contact w
  = Ok tt (mkWorld (contacts w) (disk w) (write_fault w) rest
             (stdout w ++ prompts ++ [line "ERROR: Phone number is required!"])
             (written w)).
Proof.
  intros Hphone. destruct w as [cs dk wf inp out wr].
  simpl in Hin, Hfree. subst inp.
  apply is_empty_false in Hname. apply is_empty_true in Hphone.
  rewrite <- name_taken_iff in Hfree. apply not_true_is_false in Hfree.
  unfold add_contact. exec. rewrite Hname. exec. rewrite Hfree. exec.
  rewrite Hphone. exec. same_world.
Qed.

(** The book after a successful [add_contact]. *)
Let added : store :=
  set (Str.strip l1)
    (new_record (Str.strip l2) (Str.strip l3) (Str.strip l4)) (contacts w).

Lemma add_saved :
  Str.strip l2 <> "" ->
  write_fault w = None ->
  add_contact w
  = Ok tt (mkWorld added (Text (Json.dumps added)) None rest
             (stdout w ++ prompts
              ++ [line ("SUCCESS: Contact '" ++ Str.strip l1
                        ++ "' added successfully!")])
             (written w ++ [Json.dumps added])).
Proof.
  intros Hphone Hwf. subst added. destruct w as [cs dk wf inp out wr].
  simpl in Hin, Hfree, Hwf |- *. subst inp wf.
  apply is_empty_false in Hname, Hphone.
  rewrite <- name_taken_iff in Hfree. apply not_true_is_false in Hfree.
  unfold add_contact. exec. rewrite Hname. exec. rewrite Hfree. exec.
  rewrite Hphone. exec. same_world.
Qed.

Lemma add_not_saved (e : exn) :
  Str.strip l2 <> "" ->
  write_fault w = Some e ->
  add_contact w
  = Raise e (mkWorld added (disk w) (Some e) rest (stdout w ++ prompts)
               (written w)).
Proof.
  intros Hphone Hwf. subst added. destruct w as [cs dk wf inp out wr].
  simpl in Hin, Hfree, Hwf |- *. subst inp wf.
  apply is_empty_false in Hname, Hphone.
  rewrite <- name_taken_iff in Hfree. apply not_true_is_false in Hfree.
  unfold add_contact. exec. rewrite Hname. exec. rewrite Hfree. exec.
  rewrite Hphone. exec. same_world.
Qed.

End AddContact.

(** ** Outcomes *)

Lemma ends_with_intro (E : string -> Prop) (r : result unit) (w' : world)
    (out pre : list string) (msg : string) :
  r = Ok tt w' ->
  stdout w' = (out ++ pre ++ [line msg])%list ->
  E msg ->
  ends_with E r.
Proof.
  intros Hr Hout HE. exists w', (out ++ pre)%list, msg.
  rewrite <- app_assoc. auto.
Qed.

Lemma ends_with_inv (E : string -> Prop) (r : result unit) (w' : world)
    (out pre : list string) (last : string) :
  ends_with E r ->
  r = Ok tt w' ->
  stdout w' = (out ++ pre ++ [last])%list ->
  exists msg, last = line msg /\ E msg.
Proof.
  intros [w1 [before [msg [Hr [Hout HE]]]]] Hr' Hout'.
  rewrite Hr in Hr'. inversion Hr'; subst w1.
  rewrite Hout, app_assoc in Hout'. apply app_inj_tail in Hout'.
  exists msg. split; [symmetry; tauto | assumption].
Qed.

(** A message that starts with SUCCESS is no failure. *)
Lemma success_not_validation (tail : string) :
  ~ exists msg, line ("SUCCESS: " ++ tail) = line msg /\ ValidationError msg.
Proof.
  intros [msg [E H]]. destruct H; discriminate E.
Qed.

Lemma success_not_not_found (tail : string) :
  ~ exists msg, line ("SUCCESS: " ++ tail) = line msg /\ NotFoundError msg.
Proof.
  intros [msg [E H]]. destruct H; discriminate E.
Qed.

(** * The claims *)

(** C1. [add_contact] ends with a validation failure exactly when the
    name read is empty after trimming, or some contact already goes by
    that name up to case, or the phone number read is empty after
    trimming; and then the book, the file and the record of saves are as
    they were before the call. *)
Theorem add_contact_validation (w : world) (name phone email address : string)
    (rest : list string) :
  stdin w = name :: phone :: email :: address :: rest ->
  (ends_with ValidationError (ContactBook.add_contact w)
   <-> Str.strip name = ""
       \/ name_taken (Str.strip name) (contacts w)
       \/ Str.strip phone = "")
  /\ (ends_with ValidationError (ContactBook.add_contact w) ->
      exists w',
        ContactBook.add_contact w = Ok tt w'
        /\ contacts w' = contacts w
        /\ List.length (contacts w') = List.length (contacts w)
        /\ disk w' = disk w
        /\ written w' = written w).
Proof.
  intros Hin.
  destruct (string_dec (Str.strip name) "") as [Hname|Hname].
  { pose proof (add_name_empty w name _ Hin Hname) as Hrun. split.
    - split; [auto|]. intros _.
      eapply ends_with_intro with (pre := [_; _]);
        [exact Hrun | reflexivity | constructor].
    - intros _. eexists. split; [exact Hrun|]. simpl. auto. }
  destruct (Str.list_in (Str.lower (Str.strip name))
              (map Str.lower (keys (contacts w)))) eqn:Htaken.
  { apply name_taken_iff in Htaken.
    pose proof (add_name_taken w name _ Hin Hname Htaken) as Hrun. split.
    - split; [auto|]. intros _.
      eapply ends_with_intro with (pre := [_; _]);
        [exact Hrun | reflexivity | constructor].
    - intros _. eexists. split; [exact Hrun|]. simpl. auto. }
  assert (Hfree : ~ name_taken (Str.strip name) (contacts w)).
  { rewrite <- name_taken_iff. congruence. }
  destruct (string_dec (Str.strip phone) "") as [Hphone|Hphone].
  { pose proof (add_phone_empty w name phone email address rest Hin Hname
                  Hfree Hphone) as Hrun. split.
    - split; [auto|]. intros _.
      eapply ends_with_intro with (pre := [_; _; _; _; _]);
        [exact Hrun | reflexivity | constructor].
    - intros _. eexists. split; [exact Hrun|]. simpl. auto. }
  assert (Hnot : ~ ends_with ValidationError (ContactBook.add_contact w)).
  { destruct (write_fault w) as [e|] eqn:Hwf.
    - rewrite (add_not_saved w name phone email address rest Hin Hname Hfree
                 e Hphone Hwf).
      intros [w' [before [msg [Hr _]]]]. discriminate Hr.
    - pose proof (add_saved w name phone email address rest Hin Hname Hfree
                    Hphone Hwf) as Hrun.
      intros H.
      eapply ends_with_inv with (pre := [_; _; _; _; _]) in H;
        [|exact Hrun | reflexivity].
      revert H. apply success_not_validation. }
  split; [split|]; tauto.
Qed.

(** C1 at work: a second "alice" is refused and nothing is saved. *)
Lemma add_contact_validation_witness :
  let w := mkWorld [("Alice", new_record "123" "a@x.com" "1 Main St")]
             Missing None ["alice"; "555"; ""; ""] [] [] in
  stdin w = ["alice"; "555"; ""; ""]
  /\ ends_with ValidationError (ContactBook.add_contact w)
  /\ exists w',
       ContactBook.add_contact w = Ok tt w'
       /\ contacts w' = contacts w
       /\ List.length (contacts w') = List.length (contacts w)
       /\ disk w' = disk w
       /\ written w' = written w.
Proof.
  intros w. split; [reflexivity|].
  destruct (add_contact_validation w "alice" "555" "" "" [] eq_refl)
    as [Hiff Hkeep].
  assert (H : ends_with ValidationError (ContactBook.add_contact w)).
  { apply Hiff. right. left. exists "Alice". split; [now left | reflexivity]. }
  split; [exact H | exact (Hkeep H)].
Defined.

(** ** Loading and saving *)

Section Persistence.
Import ContactBook.

Lemma save_written (w : world) :
  write_fault w = None ->
  save_contacts w
  = Ok tt (mkWorld (contacts w) (Text (Json.dumps (contacts w))) None
             (stdin w) (stdout w) (written w ++ [Json.dumps (contacts w)])).
Proof.
  intros H. destruct w as [cs dk wf inp out wr]. simpl in H. subst wf.
  reflexivity.
Qed.

Lemma load_missing (w : world) :
  disk w = Missing -> load_contacts w = Ok tt w.
Proof.
  intros H. destruct w as [cs dk wf inp out wr]. simpl in H. subst dk.
  reflexivity.
Qed.

Lemma load_text (w : world) (text : string) :
  disk w = Text text ->
  load_contacts w
  = match Json.loads text with
    | Json.Decoded cs => Ok tt (with_contacts cs w)
    | Json.DecodeError => Ok tt (with_contacts [] w)
    | Json.Untyped => Untyped
    end.
Proof.
  intros H. destruct w as [cs dk wf inp out wr]. simpl in H. subst dk.
  unfold load_contacts, json_load. exec.
  destruct (Json.loads text); reflexivity.
Qed.

Lemma load_unreadable (w : world) (e : exn) :
  disk w = Unreadable e ->
  load_contacts w
  = if caught_on_load e then Ok tt (with_contacts [] w) else Raise e w.
Proof.
  intros H. destruct w as [cs dk wf inp out wr]. simpl in H. subst dk.
  unfold load_contacts. exec. destruct e; reflexivity.
Qed.

Lemma init_load (w : world) :
  init w = load_contacts (with_contacts [] w).
Proof. reflexivity. Qed.

End Persistence.



(** C3, as the code has it.  With no file the book stays as it is, so a
    fresh book stays empty.  A file that is no JSON document, or one that
    vanishes between the test and the opening, empties the book and
    nothing is printed or raised; a file is no JSON document when the
    decoder finds no value in it, or text after the value, and so
    whenever it holds a character that no token starts or goes on with.
    Any other failure to open or read the file is raised to the caller,
    the book untouched.  A file holding a book replaces the book by
    it. *)
Theorem load_contacts_cases (w : world) :
  (disk w = Missing ->
     ContactBook.load_contacts w = Ok tt w
     /\ ContactBook.init w = Ok tt (with_contacts [] w))
  /\ (forall text,
        disk w = Text text -> Json.loads text = Json.DecodeError ->
        ContactBook.load_contacts w = Ok tt (with_contacts [] w))
  /\ (forall e,
        disk w = Unreadable e ->
        e = JSONDecodeError \/ e = FileNotFoundError ->
        ContactBook.load_contacts w = Ok tt (with_contacts [] w))
  /\ (forall e,
        disk w = Unreadable e ->
        e <> JSONDecodeError -> e <> FileNotFoundError ->
        ContactBook.load_contacts w = Raise e w)
  /\ (forall text cs,
        disk w = Text text -> Json.loads text = Json.Decoded cs ->
        ContactBook.load_contacts w = Ok tt (with_contacts cs w))
  /\ (forall text,
        disk w = Text text ->
        Json.element [] (Json.lex Json.Plain text) = Json.Invalid ->
        ContactBook.load_contacts w = Ok tt (with_contacts [] w))
  /\ (forall text,
        disk w = Text text ->
        In Json.TBad (Json.lex Json.Plain text) ->
        ~ In (Json.TNumber true) (Json.lex Json.Plain text) ->
        Json.opens (Json.lex Json.Plain text) <= Json.depth_limit ->
        ContactBook.load_contacts w = Ok tt (with_contacts [] w)).
Proof.
  repeat split.
  - now apply load_missing.
  - rewrite init_load. now apply load_missing.
  - intros text Hd Hl. now rewrite (load_text _ _ Hd), Hl.
  - intros e Hd [He|He]; subst e; now rewrite (load_unreadable _ _ Hd).
  - intros e Hd H1 H2. rewrite (load_unreadable _ _ Hd).
    destruct e; try reflexivity; congruence.
  - intros text cs Hd Hl. now rewrite (load_text _ _ Hd), Hl.
  - intros text Hd Hl. rewrite (load_text _ _ Hd). unfold Json.loads.
    now rewrite Hl.
  - intros text Hd Hbad Hhuge Hdeep. rewrite (load_text _ _ Hd).
    now rewrite (loads_bad_token text Hbad Hhuge Hdeep).
Qed.

(** C3 at work: a file whose one value is a bare word empties a book of
    one contact. *)
Lemma load_contacts_cases_witness :
  let q := String Json.dquote "" in
  let text := "{" ++ q ++ "Alice" ++ q ++ ": nope}" in
  let w := mkWorld [("Alice", new_record "1" "" "")] (Text text)
             None [] [] [] in
  Json.loads text = Json.DecodeError
  /\ ContactBook.load_contacts w = Ok tt (with_contacts [] w).
Proof.
  intros q text w. split; [reflexivity|].
  destruct (load_contacts_cases w) as [_ [H _]].
  apply (H text eq_refl). reflexivity.
Defined.

(** C3 as stated fails: a file that may not be read is not treated as an
    empty book; PermissionError reaches the caller. *)
Lemma load_unreadable_counterexample :
  let w := mkWorld [] (Unreadable PermissionError) None [] [] [] in
  ContactBook.init w = Raise PermissionError w
  /\ ~ exists w', ContactBook.init w = Ok tt w' /\ contacts w' = [].
Proof.
  intros w. split; [reflexivity|].
  intros [w' [H _]]. discriminate H.
Qed.

(** ** Listing *)

Section Listing.
Import ContactBook.

Lemma print_row_ok (item : string * details) (w : world) :
  record_ok (snd item) = true ->
  print_row item w = Ok tt (saying [row_of item] w).
Proof.
  destruct item as [name d]. unfold record_ok, row_of, field. cbn [fst snd].
  unfold print_row, getitem.
  destruct (get "phone" d); [|discriminate].
  destruct (get "email" d); [|discriminate].
  destruct (get "address" d); [|discriminate].
  intros _. reflexivity.
Qed.

Lemma for_each_rows (items : store) (w : world) :
  records_ok items = true ->
  for_each items print_row w = Ok tt (saying (map row_of items) w).
Proof.
  revert w. induction items as [|item items IH]; intros w; simpl.
  - intros _. destruct w. unfold saying, ret. simpl. now rewrite app_nil_r.
  - rewrite andb_true_iff. intros [Hitem Hitems].
    unfold bind. rewrite (print_row_ok _ _ Hitem), (IH _ Hitems).
    destruct w. unfold saying. simpl. same_world.
Qed.

Lemma records_ok_perm (l l' : store) :
  Permutation l l' -> records_ok l = true -> records_ok l' = true.
Proof.
  unfold records_ok. rewrite !forallb_forall. intros Hp H x Hx.
  apply H. eapply Permutation_in; [apply Permutation_sym|]; eassumption.
Qed.

Lemma view_empty (w : world) :
  contacts w = [] ->
  view_contacts w = Ok tt (saying [line (Str.nl ++ "No contacts found!")] w).
Proof.
  intros H. destruct w as [cs dk wf inp out wr]. simpl in H. subst cs.
  reflexivity.
Qed.

Lemma view_listing (w : world) :
  contacts w <> [] ->
  records_ok (contacts w) = true ->
  view_contacts w
  = Ok tt (saying
             ([line (Str.nl ++ "=== CONTACT LIST ==="); line header; line rule]
              ++ map row_of (sorted (contacts w))
              ++ [line (Str.nl ++ "Total contacts: "
                        ++ Str.of_nat (List.length (contacts w)))]) w).
Proof.
  intros Hne Hok. destruct w as [cs dk wf inp out wr]. simpl in Hne, Hok |- *.
  destruct cs as [|c cs]; [congruence|].
  assert (Hs : records_ok (sorted (c :: cs)) = true).
  { eapply records_ok_perm; [apply Permutation_sym, sorted_perm | exact Hok]. }
  unfold view_contacts. exec. cbn [is_empty].
  rewrite (for_each_rows _ _ Hs).
  unfold saying. exec. same_world.
Qed.

End Listing.

(** C4, as the code has it.  On an empty book [view_contacts] prints
    "No contacts found!" and nothing else.  On any other book it prints a
    table of all contacts and then their number; the rows are the
    contacts of the book, each once, in ascending order of the stored
    name, compared code point by code point.  A capital letter comes
    before every small one there, so of the contacts "Bob" and "alice"
    the first row is Bob's. *)
Theorem view_contacts_sorted (w : world) :
  records_ok (contacts w) = true ->
  (contacts w = [] ->
     ContactBook.view_contacts w
     = Ok tt (saying [line (Str.nl ++ "No contacts found!")] w))
  /\ (contacts w <> [] ->
        ContactBook.view_contacts w
        = Ok tt (saying
                   ([line (Str.nl ++ "=== CONTACT LIST ===");
                     line ContactBook.header; line ContactBook.rule]
                    ++ map row_of (sorted (contacts w))
                    ++ [line (Str.nl ++ "Total contacts: "
                              ++ Str.of_nat (List.length (contacts w)))]) w))
  /\ Permutation (sorted (contacts w)) (contacts w)
  /\ StronglySorted name_le (sorted (contacts w))
  /\ (forall bob alice : details,
        contacts w = [("Bob", bob); ("alice", alice)] ->
        sorted (contacts w) = [("Bob", bob); ("alice", alice)]).
Proof.
  intros Hok. split; [apply view_empty|].
  split; [intros Hne; now apply view_listing|].
  split; [apply sorted_perm|]. split; [apply sorted_ordered|].
  intros bob alice H. rewrite H. reflexivity.
Qed.

(** C4 at work: Bob and alice, added in that order. *)
Lemma view_contacts_sorted_witness :
  let bob := ("Bob", new_record "555" "" "") in
  let alice := ("alice", new_record "123" "" "") in
  let w := mkWorld [bob; alice] Missing None [] [] [] in
  records_ok (contacts w) = true
  /\ sorted (contacts w) = [bob; alice]
  /\ ContactBook.view_contacts w
     = Ok tt (saying
                [line (Str.nl ++ "=== CONTACT LIST ===");
                 line ContactBook.header; line ContactBook.rule;
                 row_of bob; row_of alice;
                 line (Str.nl ++ "Total contacts: 2")] w).
Proof.
  intros bob alice w. split; [reflexivity|].
  destruct (view_contacts_sorted w eq_refl) as [_ [Hrun [_ [_ Horder]]]].
  split.
  - exact (Horder _ _ eq_refl).
  - rewrite Hrun by discriminate. reflexivity.
Defined.

(** C4 as stated fails: after adding "Bob" and then "alice",
    [view_contacts] lists Bob first, not alice. *)
Lemma view_alice_before_bob_counterexample :
  let w := mkWorld [] Missing None
             ["Bob"; "555"; ""; ""; "alice"; "123"; ""; ""] [] [] in
  let bob := ("Bob", new_record "555" "" "") in
  let alice := ("alice", new_record "123" "" "") in
  exists w',
    (ContactBook.add_contact ;; ContactBook.add_contact ;;
     ContactBook.view_contacts) w = Ok tt w'
    /\ contacts w' = [bob; alice]
    /\ listed_before (row_of alice) (row_of bob) (stdout w') = false
    /\ listed_before (row_of bob) (row_of alice) (stdout w') = true.
Proof.
  intros w bob alice. eexists. split; [vm_compute; reflexivity|].
  split; [reflexivity|]. split; vm_compute; reflexivity.
Qed.

(** ** Searching *)

Section Searching.
Import ContactBook.

Lemma is_match_ok (query : string) (item : string * details) (w : world) :
  record_ok (snd item) = true ->
  is_match query item w = Ok (matches query item) w.
Proof.
  destruct item as [name d]. unfold record_ok, matches, field. cbn [fst snd].
  unfold is_match, getitem.
  destruct (get "phone" d); [|discriminate].
  destruct (get "email" d); [|discriminate].
  destruct (get "address" d); [|discriminate].
  intros _. destruct (Str.contains query (Str.lower name)); [reflexivity|].
  exec. destruct (Str.contains query s); reflexivity.
Qed.

Lemma collect_matches_ok (query : string) (items : store) (w : world) :
  records_ok items = true ->
  collect_matches query items w = Ok (filter (matches query) items) w.
Proof.
  induction items as [|item items IH]; simpl; [reflexivity|].
  rewrite andb_true_iff. intros [Hitem Hitems].
  unfold bind. rewrite (is_match_ok _ _ _ Hitem), (IH Hitems).
  destruct (matches query item); reflexivity.
Qed.

Lemma records_ok_filter (f : string * details -> bool) (items : store) :
  records_ok items = true -> records_ok (filter f items) = true.
Proof.
  unfold records_ok. rewrite !forallb_forall. intros H x Hx.
  apply filter_In in Hx. apply H. tauto.
Qed.

Lemma lower_empty (s : string) : Str.lower s = "" <-> s = "".
Proof. destruct s; simpl; split; congruence. Qed.

Variables (w : world) (l : string) (rest : list string).
Hypothesis Hne : contacts w <> [].
Hypothesis Hin : stdin w = l :: rest.

Let asked : list string :=
  [line (Str.nl ++ "=== SEARCH CONTACT ===");
   "Enter name or phone number to search: "].

Lemma search_query_empty :
  Str.lower (Str.strip l) = "" ->
  search_contact w
  = Ok tt (mkWorld (contacts w) (disk w) (write_fault w) rest
             (stdout w ++ asked
              ++ [line "ERROR: Search query cannot be empty!"])
             (written w)).
Proof.
  intros Hq. destruct w as [cs dk wf inp out wr]. simpl in Hne, Hin |- *.
  subst inp. destruct cs as [|c cs]; [congruence|].
  apply is_empty_true in Hq.
  unfold search_contact. exec. cbn [is_empty]. rewrite Hq. exec. same_world.
Qed.

Lemma search_results :
  Str.lower (Str.strip l) <> "" ->
  records_ok (contacts w) = true ->
  search_contact w
  = Ok tt (mkWorld (contacts w) (disk w) (write_fault w) rest
             (stdout w ++ asked
              ++ search_report
                   (filter (matches (Str.lower (Str.strip l))) (contacts w)))
             (written w)).
Proof.
  intros Hq Hok. destruct w as [cs dk wf inp out wr].
  simpl in Hne, Hin, Hok |- *. subst inp.
  destruct cs as [|c cs]; [congruence|].
  apply is_empty_false in Hq.
  unfold search_contact. exec. cbn [is_empty]. rewrite Hq.
  rewrite (collect_matches_ok _ _ _ Hok).
  pose proof (records_ok_filter (matches (Str.lower (Str.strip l))) _ Hok)
    as Hf.
  destruct (filter (matches (Str.lower (Str.strip l))) (c :: cs))
    as [|m ms] eqn:E.
  - cbn [is_empty negb search_report]. exec. same_world.
  - cbn [is_empty negb search_report]. exec.
    rewrite (for_each_rows _ _ Hf). unfold saying. exec. same_world.
Qed.

End Searching.

Lemma matches_iff (query : string) (item : string * details) :
  matches query item = true
  <-> Substring query (Str.lower (fst item))
      \/ Substring query (field "phone" (snd item))
      \/ Substring query (Str.lower (field "email" (snd item))).
Proof.
  unfold matches. rewrite !orb_true_iff, !contains_iff. tauto.
Qed.

(** C5, as the code has it.  On a book that is not empty,
    [search_contact] takes the line it reads, trimmed and lower-cased, as
    the query.  A query that is empty then ends in a validation failure.  Otherwise the contacts reported are, in the
    book's order, exactly those whose lower-cased name, phone number as
    stored, or lower-cased email has the query as a substring. *)
Theorem search_contact_matches (w : world) (typed : string)
    (rest : list string) :
  contacts w <> [] ->
  records_ok (contacts w) = true ->
  stdin w = typed :: rest ->
  let query := Str.lower (Str.strip typed) in
  let asked := [line (Str.nl ++ "=== SEARCH CONTACT ===");
                "Enter name or phone number to search: "] in
  (query = "" ->
     ends_with ValidationError (ContactBook.search_contact w)
     /\ ContactBook.search_contact w
        = Ok tt (mkWorld (contacts w) (disk w) (write_fault w) rest
                   (stdout w ++ asked
                    ++ [line "ERROR: Search query cannot be empty!"])
                   (written w)))
  /\ (query <> "" ->
        exists found,
          ContactBook.search_contact w
          = Ok tt (mkWorld (contacts w) (disk w) (write_fault w) rest
                     (stdout w ++ asked ++ search_report found) (written w))
          /\ found = filter (matches query) (contacts w)
          /\ forall item,
               In item found
               <-> In item (contacts w)
                   /\ (Substring query (Str.lower (fst item))
                       \/ Substring query (field "phone" (snd item))
                       \/ Substring query (Str.lower (field "email" (snd item))))).
Proof.
  intros Hne Hok Hin query asked. split.
  - intros Hq.
    pose proof (search_query_empty w typed rest Hne Hin Hq) as Hrun.
    split; [|exact Hrun].
    eapply ends_with_intro with (pre := asked);
      [exact Hrun | reflexivity | constructor].
  - intros Hq. eexists. split; [|split; [reflexivity|]].
    + exact (search_results w typed rest Hne Hin Hq Hok).
    + intros item. rewrite filter_In, matches_iff. tauto.
Qed.

(** C5 at work: the query "  X.COM " finds the one contact with an
    email at x.com. *)
Lemma search_contact_matches_witness :
  let alice := ("Alice", new_record "123" "a@X.com" "1 Main St") in
  let bob := ("Bob", new_record "555" "bob@y.org" "") in
  let w := mkWorld [alice; bob] Missing None ["  X.COM "] [] [] in
  contacts w <> []
  /\ records_ok (contacts w) = true
  /\ stdin w = ["  X.COM "]
  /\ Str.lower (Str.strip "  X.COM ") <> ""
  /\ exists found,
       ContactBook.search_contact w
       = Ok tt (mkWorld (contacts w) (disk w) (write_fault w) []
                  (stdout w
                   ++ [line (Str.nl ++ "=== SEARCH CONTACT ===");
                       "Enter name or phone number to search: "]
                   ++ search_report found) (written w))
       /\ found = [alice].
Proof.
  intros alice bob w.
  split; [discriminate|]. split; [reflexivity|]. split; [reflexivity|].
  split; [discriminate|].
  destruct (search_contact_matches w "  X.COM " [])
    as [_ Hfound]; [discriminate | reflexivity | reflexivity |].
  destruct Hfound as [found [Hrun [Hfilter _]]]; [discriminate|].
  exists found. split; [exact Hrun | exact Hfilter].
Defined.

(** C5 as stated fails: the query of one space is not empty and occurs
    in the name "Ann Lee", yet the search ends in the validation failure
    and reports no contact. *)
Lemma search_blank_query_counterexample :
  let ann := ("Ann Lee", new_record "123" "ann@x.com" "") in
  let w := mkWorld [ann] Missing None [" "] [] [] in
  " " <> ""
  /\ matches (Str.lower " ") ann = true
  /\ ContactBook.search_contact w
     = Ok tt (mkWorld [ann] Missing None []
                [line (Str.nl ++ "=== SEARCH CONTACT ===");
                 "Enter name or phone number to search: ";
                 line "ERROR: Search query cannot be empty!"] [])
  /\ ends_with ValidationError (ContactBook.search_contact w).
Proof.
  intros ann w. split; [discriminate|]. split; [reflexivity|].
  split; [reflexivity|].
  eapply ends_with_intro
    with (out := []) (pre := [_; _])
         (msg := "ERROR: Search query cannot be empty!");
    [vm_compute; reflexivity | reflexivity | constructor].
Qed.

(** ** The empty book *)

Section EmptyBook.
Import ContactBook.
Variable w : world.
Hypothesis Hempty : contacts w = [].

Lemma search_none :
  search_contact w = Ok tt (saying [line (Str.nl ++ "No contacts to search!")] w).
Proof.
  destruct w as [cs dk wf inp out wr]. simpl in Hempty. subst cs. reflexivity.
Qed.

Lemma update_none :
  update_contact w = Ok tt (saying [line (Str.nl ++ "No contacts to update!")] w).
Proof.
  destruct w as [cs dk wf inp out wr]. simpl in Hempty. subst cs. reflexivity.
Qed.

Lemma delete_none :
  delete_contact w = Ok tt (saying [line (Str.nl ++ "No contacts to delete!")] w).
Proof.
  destruct w as [cs dk wf inp out wr]. simpl in Hempty. subst cs. reflexivity.
Qed.

End EmptyBook.

Lemma notice_not_validation (tail : string) :
  ~ exists msg, line (Str.nl ++ tail) = line msg /\ ValidationError msg.
Proof.
  intros [msg [E H]]. destruct H; discriminate E.
Qed.

Lemma notice_not_not_found (tail : string) :
  ~ exists msg, line (Str.nl ++ tail) = line msg /\ NotFoundError msg.
Proof.
  intros [msg [E H]]. destruct H; discriminate E.
Qed.

(** C10. On an empty book [search_contact], [update_contact] and
    [delete_contact] print their "no contacts" notice and return at once:
    no line is read, nothing is saved, and the call ends neither in a
    validation failure nor in a failed lookup, whatever is waiting on
    standard input. *)
Theorem empty_book_returns_at_once (w : world) :
  contacts w = [] ->
  (ContactBook.search_contact w
   = Ok tt (saying [line (Str.nl ++ "No contacts to search!")] w)
   /\ ends_with NoContacts (ContactBook.search_contact w)
   /\ ~ ends_with ValidationError (ContactBook.search_contact w))
  /\ (ContactBook.update_contact w
      = Ok tt (saying [line (Str.nl ++ "No contacts to update!")] w)
      /\ ends_with NoContacts (ContactBook.update_contact w)
      /\ ~ ends_with NotFoundError (ContactBook.update_contact w))
  /\ (ContactBook.delete_contact w
      = Ok tt (saying [line (Str.nl ++ "No contacts to delete!")] w)
      /\ ends_with NoContacts (ContactBook.delete_contact w)
      /\ ~ ends_with NotFoundError (ContactBook.delete_contact w)).
Proof.
  intros Hempty.
  pose proof (search_none w Hempty) as Hs.
  pose proof (update_none w Hempty) as Hu.
  pose proof (delete_none w Hempty) as Hd.
  repeat split; try assumption.
  - eapply ends_with_intro with (pre := []);
      [exact Hs | reflexivity | constructor].
  - intros H. eapply ends_with_inv with (pre := []) in H;
      [|exact Hs | reflexivity].
    revert H. apply notice_not_validation.
  - eapply ends_with_intro with (pre := []);
      [exact Hu | reflexivity | constructor].
  - intros H. eapply ends_with_inv with (pre := []) in H;
      [|exact Hu | reflexivity].
    revert H. apply notice_not_not_found.
  - eapply ends_with_intro with (pre := []);
      [exact Hd | reflexivity | constructor].
  - intros H. eapply ends_with_inv with (pre := []) in H;
      [|exact Hd | reflexivity].
    revert H. apply notice_not_not_found.
Qed.

(** C10 at work: an empty query and an unknown name on an empty book. *)
Lemma empty_book_returns_at_once_witness :
  let w := mkWorld [] Missing None [""; "nobody"] [] [] in
  contacts w = []
  /\ ContactBook.search_contact w
     = Ok tt (saying [line (Str.nl ++ "No contacts to search!")] w)
  /\ ~ ends_with ValidationError (ContactBook.search_contact w)
  /\ ~ ends_with NotFoundError (ContactBook.update_contact w)
  /\ ~ ends_with NotFoundError (ContactBook.delete_contact w).
Proof.
  intros w. split; [reflexivity|].
  destruct (empty_book_returns_at_once w eq_refl)
    as [[Hs [_ Hsv]] [[_ [_ Hu]] [_ [_ Hd]]]].
  auto.
Defined.

(** ** Looking a name up *)

Section Lookup.
Import ContactBook.

Lemma find_some (name : string) (ks : list string) (a : string) :
  find_actual_name name ks = Some a -> In a ks /\ same_name a name.
Proof.
  unfold same_name. induction ks as [|k ks IH]; simpl; [discriminate|].
  destruct (String.eqb_spec (Str.lower k) (Str.lower name)) as [E|E].
  - intros H. inversion H; subst. auto.
  - intros H. destruct (IH H). auto.
Qed.

Lemma find_none (name : string) (ks : list string) :
  find_actual_name name ks = None
  <-> ~ exists k, In k ks /\ same_name k name.
Proof.
  unfold same_name. induction ks as [|k ks IH]; simpl.
  - split; [intros _ [k [[] _]] | reflexivity].
  - destruct (String.eqb_spec (Str.lower k) (Str.lower name)) as [E|E].
    + split; [discriminate|]. intros H. exfalso. apply H. exists k. auto.
    + rewrite IH. split; intros H [k' [Hin Hk']]; apply H.
      * destruct Hin as [->|Hin]; [contradiction|]. exists k'. auto.
      * exists k'. auto.
Qed.

Lemma find_none_free (name : string) (cs : store) :
  find_actual_name name (keys cs) = None <-> ~ name_taken name cs.
Proof. apply find_none. Qed.

(** Past keys that are other names, the lookup goes on. *)
Lemma find_app (name : string) (ks ks' : list string) :
  find_actual_name name ks = None ->
  find_actual_name name (ks ++ ks') = find_actual_name name ks'.
Proof.
  induction ks as [|k ks IH]; simpl; [reflexivity|].
  destruct (Str.lower k =? Str.lower name)%string; [discriminate | exact IH].
Qed.

Lemma find_same_name (q name : string) (ks : list string) :
  same_name q name -> find_actual_name q ks = find_actual_name name ks.
Proof.
  unfold same_name. intros E. induction ks as [|k ks IH]; simpl;
    [reflexivity|].
  now rewrite E, IH.
Qed.

Lemma falsy_none_or_empty (o : option string) :
  falsy o = true <-> o = None \/ o = Some "".
Proof.
  destruct o as [s|]; simpl.
  - rewrite is_empty_true. split; [intros ->; auto | intros [H|H]; congruence].
  - split; auto.
Qed.

End Lookup.

(** ** Fields *)

Lemma field_set_same (k v : string) (d : details) :
  field k (set k v d) = v.
Proof. unfold field. now rewrite get_set_same. Qed.

Lemma field_set_other (k k' v : string) (d : details) :
  k <> k' -> field k' (set k v d) = field k' d.
Proof. intros H. unfold field. now rewrite get_set_other. Qed.

Lemma revised_fields (p e a : string) (d : details) :
  field "phone" (revised p e a d)
    = (if Str.is_empty p then field "phone" d else p)
  /\ field "email" (revised p e a d)
     = (if Str.is_empty e then field "email" d else e)
  /\ field "address" (revised p e a d)
     = (if Str.is_empty a then field "address" d else a).
Proof.
  unfold revised.
  destruct (Str.is_empty p), (Str.is_empty e), (Str.is_empty a);
    repeat split;
    repeat (rewrite field_set_same
            || (rewrite field_set_other by discriminate));
    reflexivity.
Qed.

Lemma revised_nothing (d : details) : revised "" "" "" d = d.
Proof. reflexivity. Qed.

(** ** Updating *)

Section Updating.
Import ContactBook.
Variables (w : world) (l : string).
Hypothesis Hne : contacts w <> [].

Lemma update_not_found (rest : list string) :
  stdin w = l :: rest ->
  falsy (find_actual_name (Str.strip l) (keys (contacts w))) = true ->
  update_contact w
  = Ok tt (mkWorld (contacts w) (disk w) (write_fault w) rest
             (stdout w
              ++ [line (Str.nl ++ "=== UPDATE CONTACT ===");
                  "Enter the name of the contact to update: ";
                  line ("ERROR: Contact '" ++ Str.strip l ++ "' not found!")])
             (written w)).
Proof.
  intros Hin Hf. destruct w as [cs dk wf inp out wr].
  simpl in Hne, Hin, Hf |- *. subst inp.
  destruct cs as [|c cs]; [congruence|].
  unfold update_contact. exec. cbn [is_empty]. rewrite Hf. exec. same_world.
Qed.

Variables (p e ad : string) (rest : list string) (a : string) (d : details).
Hypothesis Hin : stdin w = l :: p :: e :: ad :: rest.
Hypothesis Hfind : find_actual_name (Str.strip l) (keys (contacts w)) = Some a.
Hypothesis Ha : a <> "".
Hypothesis Hget : get a (contacts w) = Some d.
Hypothesis Hd : record_ok d = true.

Let after : store :=
  set a (revised (Str.strip p) (Str.strip e) (Str.strip ad) d) (contacts w).

Lemma update_saved :
  write_fault w = None ->
  update_contact w
  = Ok tt (mkWorld after (Text (Json.dumps after)) None rest
             (stdout w ++ update_dialogue a d
              ++ [line ("SUCCESS: Contact '" ++ a
                        ++ "' updated successfully!")])
             (written w ++ [Json.dumps after])).
Proof.
  intros Hwf. subst after. destruct w as [cs dk wf inp out wr].
  simpl in Hne, Hin, Hfind, Hget, Hwf |- *. subst inp wf.
  destruct cs as [|c cs]; [congruence|].
  apply is_empty_false in Ha.
  unfold update_dialogue, field. unfold record_ok in Hd.
  destruct (get "phone" d) as [ph|] eqn:Eph; [|discriminate].
  destruct (get "email" d) as [em|] eqn:Eem; [|discriminate].
  destruct (get "address" d) as [adr|] eqn:Ead; [|discriminate].
  unfold update_contact. exec. cbn [is_empty]. rewrite Hfind.
  cbn [falsy the]. rewrite Ha. exec. rewrite Hget. exec.
  rewrite Eph. exec. rewrite Eem. exec. rewrite Ead. exec.
  same_world.
Qed.

Lemma update_not_saved (x : exn) :
  write_fault w = Some x ->
  update_contact w
  = Raise x (mkWorld after (disk w) (Some x) rest
               (stdout w ++ update_dialogue a d) (written w)).
Proof.
  intros Hwf. subst after. destruct w as [cs dk wf inp out wr].
  simpl in Hne, Hin, Hfind, Hget, Hwf |- *. subst inp wf.
  destruct cs as [|c cs]; [congruence|].
  apply is_empty_false in Ha.
  unfold update_dialogue, field. unfold record_ok in Hd.
  destruct (get "phone" d) as [ph|] eqn:Eph; [|discriminate].
  destruct (get "email" d) as [em|] eqn:Eem; [|discriminate].
  destruct (get "address" d) as [adr|] eqn:Ead; [|discriminate].
  unfold update_contact. exec. cbn [is_empty]. rewrite Hfind.
  cbn [falsy the]. rewrite Ha. exec. rewrite Hget. exec.
  rewrite Eph. exec. rewrite Eem. exec. rewrite Ead. exec.
  same_world.
Qed.

End Updating.

(** C6, as the code has it.  On an empty book [update_contact] prints
    "No contacts to update!" and returns.  On any other book it looks the
    name it reads (trimmed) up among the keys, ignoring case.  When no
    contact goes by that name the call ends in a failed lookup and
    changes nothing; when one does, the lookup finds a contact that goes
    by it.  When the lookup finds a contact,
    each of phone, email and address takes the new value read for it if
    that value is not empty after trimming, and keeps its value
    otherwise; no key and no other contact changes.  So three empty
    values leave the book as it was, and a new email alone changes the
    email alone. *)
Theorem update_contact_fields (w : world) (typed p e ad : string)
    (rest : list string) :
  stdin w = typed :: p :: e :: ad :: rest ->
  let name := Str.strip typed in
  (contacts w = [] ->
     ContactBook.update_contact w
     = Ok tt (saying [line (Str.nl ++ "No contacts to update!")] w))
  /\ (contacts w <> [] -> ~ name_taken name (contacts w) ->
     ends_with NotFoundError (ContactBook.update_contact w)
     /\ exists w',
          ContactBook.update_contact w = Ok tt w'
          /\ contacts w' = contacts w /\ written w' = written w)
  /\ (forall a d,
        contacts w <> [] ->
        ContactBook.find_actual_name name (keys (contacts w)) = Some a ->
        a <> "" ->
        get a (contacts w) = Some d ->
        record_ok d = true ->
        In a (keys (contacts w)) /\ same_name a name
        /\ exists w' d',
             final (ContactBook.update_contact w) = Some w'
             /\ (write_fault w = None ->
                 ContactBook.update_contact w = Ok tt w'
                 /\ ends_with Updated (ContactBook.update_contact w)
                 /\ disk w' = Text (Json.dumps (contacts w')))
             /\ keys (contacts w') = keys (contacts w)
             /\ (forall k, k <> a -> get k (contacts w') = get k (contacts w))
             /\ get a (contacts w') = Some d'
             /\ field "phone" d'
                = (if Str.is_empty (Str.strip p) then field "phone" d
                   else Str.strip p)
             /\ field "email" d'
                = (if Str.is_empty (Str.strip e) then field "email" d
                   else Str.strip e)
             /\ field "address" d'
                = (if Str.is_empty (Str.strip ad) then field "address" d
                   else Str.strip ad)
             /\ (Str.strip p = "" -> Str.strip e = "" -> Str.strip ad = "" ->
                 d' = d /\ contacts w' = contacts w)
             /\ (Str.strip p = "" -> Str.strip ad = "" ->
                 field "phone" d' = field "phone" d
                 /\ field "address" d' = field "address" d))
  /\ (name_taken name (contacts w) ->
      exists a,
        ContactBook.find_actual_name name (keys (contacts w)) = Some a
        /\ In a (keys (contacts w)) /\ same_name a name).
Proof.
  intros Hin name. split; [apply update_none|]. split; [|split].
  - intros Hne Hfree. apply find_none_free in Hfree.
    assert (Hf : ContactBook.falsy
                   (ContactBook.find_actual_name name (keys (contacts w)))
                 = true) by now rewrite Hfree.
    pose proof (update_not_found w typed Hne _ Hin Hf) as Hrun. split.
    + eapply ends_with_intro with (pre := [_; _]);
        [exact Hrun | reflexivity | constructor].
    + eexists. split; [exact Hrun|]. simpl. auto.
  - intros a d Hne Hfind Ha Hget Hd.
    destruct (find_some _ _ _ Hfind) as [Hina Hsame].
    split; [exact Hina|]. split; [exact Hsame|].
    set (d' := revised (Str.strip p) (Str.strip e) (Str.strip ad) d).
    destruct (revised_fields (Str.strip p) (Str.strip e) (Str.strip ad) d)
      as [Fp [Fe Fa]].
    assert (Hrun : exists w',
               final (ContactBook.update_contact w) = Some w'
               /\ contacts w' = set a d' (contacts w)
               /\ (write_fault w = None ->
                   ContactBook.update_contact w = Ok tt w'
                   /\ ends_with Updated (ContactBook.update_contact w)
                   /\ disk w' = Text (Json.dumps (contacts w')))).
    { destruct (write_fault w) as [x|] eqn:Hwf.
      - eexists. split; [|split].
        + rewrite (update_not_saved w typed Hne p e ad rest a d Hin Hfind Ha
                     Hget Hd x Hwf). reflexivity.
        + reflexivity.
        + discriminate.
      - pose proof (update_saved w typed Hne p e ad rest a d Hin Hfind Ha
                      Hget Hd Hwf) as Hok.
        eexists. split; [|split].
        + rewrite Hok. reflexivity.
        + reflexivity.
        + intros _. split; [exact Hok|]. split; [|reflexivity].
          eapply ends_with_intro with (pre := update_dialogue a d);
            [exact Hok | reflexivity | constructor]. }
    destruct Hrun as [w' [Hfinal [Hcs Hsaved]]].
    exists w', d'. rewrite Hcs.
    split; [exact Hfinal|]. split; [rewrite <- Hcs; exact Hsaved|].
    split; [now apply keys_set_present|].
    split; [intros k Hk; now apply get_set_other|].
    split; [apply get_set_same|].
    split; [exact Fp|]. split; [exact Fe|]. split; [exact Fa|]. split.
    + intros Hp He Had. subst d'. rewrite Hp, He, Had, revised_nothing.
      split; [reflexivity | now apply set_get_id].
    + intros Hp Had. subst d'. rewrite Fp, Fa, Hp, Had. auto.
  - intros Htaken.
    destruct (ContactBook.find_actual_name name (keys (contacts w)))
      as [a|] eqn:Hfind.
    + exists a. split; [reflexivity|]. exact (find_some _ _ _ Hfind).
    + apply find_none_free in Hfind. contradiction.
Qed.

(** C6 at work: a new email alone for "alice", found as "ALICE". *)
Lemma update_contact_fields_witness :
  let d := new_record "123" "a@x.com" "1 Main St" in
  let w := mkWorld [("alice", d)] Missing None
             [" ALICE"; ""; "new@mail.org"; ""] [] [] in
  contacts w <> []
  /\ stdin w = [" ALICE"; ""; "new@mail.org"; ""]
  /\ ContactBook.find_actual_name (Str.strip " ALICE") (keys (contacts w))
     = Some "alice"
  /\ exists w' d',
       ContactBook.update_contact w = Ok tt w'
       /\ get "alice" (contacts w') = Some d'
       /\ field "email" d' = "new@mail.org"
       /\ field "phone" d' = "123"
       /\ field "address" d' = "1 Main St".
Proof.
  intros d w. split; [discriminate|]. split; [reflexivity|].
  split; [reflexivity|].
  destruct (update_contact_fields w " ALICE" "" "new@mail.org" "" [] eq_refl)
    as [_ [_ [Hfound _]]].
  destruct (Hfound "alice" d) as [_ [_ [w' [d' H]]]];
    [discriminate | reflexivity | discriminate | reflexivity | reflexivity |].
  destruct H as [_ [Hok [_ [_ [Hget [_ [He [_ [_ Hrest]]]]]]]]].
  destruct (Hok eq_refl) as [Hrun _].
  destruct (Hrest eq_refl eq_refl) as [Hp Ha].
  exists w', d'. auto.
Defined.

(** C6 as stated fails on the empty book: no contact goes by the name,
    and the call ends with the "no contacts" notice, not with a failed
    lookup. *)
Lemma update_empty_book_counterexample :
  let w := mkWorld [] Missing None ["ghost"; ""; ""; ""] [] [] in
  ~ name_taken (Str.strip "ghost") (contacts w)
  /\ ContactBook.update_contact w
     = Ok tt (saying [line (Str.nl ++ "No contacts to update!")] w)
  /\ ~ ends_with NotFoundError (ContactBook.update_contact w).
Proof.
  intros w. split; [intros [k [[] _]]|]. split; [reflexivity|].
  intros H. eapply ends_with_inv with (out := []) (pre := []) in H;
    [|reflexivity | reflexivity].
  revert H. apply notice_not_not_found.
Qed.

(** ** Deleting *)

(** In a book of distinct names, the keys left after [del a] are all
    other names than [a]. *)
Lemma del_other_names (cs : store) (a k : string) :
  names_distinct cs = true ->
  In a (keys cs) ->
  In k (keys (del a cs)) ->
  ~ same_name k a.
Proof.
  unfold names_distinct, same_name, keys. rewrite nodupb_iff.
  induction cs as [|[k0 v0] cs IH]; cbn [map fst del In]; [contradiction|].
  intros Hnd Ha Hk. inversion Hnd as [|? ? Hn Hd]; subst.
  destruct (String.eqb_spec k0 a) as [->|Hne].
  - intros E. apply Hn. rewrite <- E. now apply in_map.
  - destruct Ha as [Ha|Ha]; [contradiction|].
    cbn [map fst In] in Hk. destruct Hk as [<-|Hk].
    + intros E. apply Hn. rewrite E. now apply in_map.
    + now apply IH.
Qed.

Lemma find_after_del (cs : store) (a name q : string) :
  names_distinct cs = true ->
  In a (keys cs) ->
  same_name a name ->
  same_name q name ->
  ContactBook.find_actual_name q (keys (del a cs)) = None.
Proof.
  intros Hnd Ha Han Hqn. apply find_none. intros [k [Hk Hkq]].
  apply (del_other_names cs a k Hnd Ha Hk).
  unfold same_name in *. congruence.
Qed.

Section Deleting.
Import ContactBook.
Variables (w : world) (l : string).
Hypothesis Hne : contacts w <> [].

Lemma delete_not_found (rest : list string) :
  stdin w = l :: rest ->
  falsy (find_actual_name (Str.strip l) (keys (contacts w))) = true ->
  delete_contact w
  = Ok tt (mkWorld (contacts w) (disk w) (write_fault w) rest
             (stdout w
              ++ [line (Str.nl ++ "=== DELETE CONTACT ===");
                  "Enter the name of the contact to delete: ";
                  line ("ERROR: Contact '" ++ Str.strip l ++ "' not found!")])
             (written w)).
Proof.
  intros Hin Hf. destruct w as [cs dk wf inp out wr].
  simpl in Hne, Hin, Hf |- *. subst inp.
  destruct cs as [|c cs]; [congruence|].
  unfold delete_contact. exec. cbn [is_empty]. rewrite Hf. exec. same_world.
Qed.

Variables (answer : string) (rest : list string) (a : string) (d : details).
Hypothesis Hin : stdin w = l :: answer :: rest.
Hypothesis Hfind : find_actual_name (Str.strip l) (keys (contacts w)) = Some a.
Hypothesis Ha : a <> "".
Hypothesis Hget : get a (contacts w) = Some d.
Hypothesis Hd : record_ok d = true.

Let confirm : string := Str.lower (Str.strip answer).

(** Runs [delete_contact] up to the test of the answer. *)
Ltac to_the_answer :=
  destruct w as [cs dk wf inp out wr];
  simpl in Hne, Hin, Hfind, Hget |- *; subst inp;
  destruct cs as [|c cs]; [congruence|];
  apply is_empty_false in Ha;
  unfold delete_dialogue, field; unfold record_ok in Hd;
  destruct (get "phone" d) as [ph|] eqn:Eph; [|discriminate];
  destruct (get "email" d) as [em|] eqn:Eem; [|discriminate];
  destruct (get "address" d) as [adr|] eqn:Ead; [|discriminate];
  unfold delete_contact; exec; cbn [is_empty]; rewrite Hfind;
  cbn [falsy the]; rewrite Ha; exec; rewrite Hget; exec;
  rewrite Eph; exec; rewrite Eem; exec; rewrite Ead; exec.

Lemma delete_cancelled :
  ((confirm =? "y") || (confirm =? "yes"))%string = false ->
  delete_contact w
  = Ok tt (mkWorld (contacts w) (disk w) (write_fault w) rest
             (stdout w ++ delete_dialogue a d ++ [line "Deletion cancelled."])
             (written w)).
Proof.
  subst confirm. intros Hc. to_the_answer. rewrite Hc. exec. same_world.
Qed.

Lemma delete_saved :
  ((confirm =? "y") || (confirm =? "yes"))%string = true ->
  write_fault w = None ->
  delete_contact w
  = Ok tt (mkWorld (del a (contacts w))
             (Text (Json.dumps (del a (contacts w)))) None rest
             (stdout w ++ delete_dialogue a d
              ++ [line ("SUCCESS: Contact '" ++ a
                        ++ "' deleted successfully!")])
             (written w ++ [Json.dumps (del a (contacts w))])).
Proof.
  subst confirm. intros Hc Hwf. to_the_answer. simpl in Hwf. subst wf.
  rewrite Hc. exec. same_world.
Qed.

Lemma delete_not_saved (x : exn) :
  ((confirm =? "y") || (confirm =? "yes"))%string = true ->
  write_fault w = Some x ->
  delete_contact w
  = Raise x (mkWorld (del a (contacts w)) (disk w) (Some x) rest
               (stdout w ++ delete_dialogue a d) (written w)).
Proof.
  subst confirm. intros Hc Hwf. to_the_answer. simpl in Hwf. subst wf.
  rewrite Hc. exec. same_world.
Qed.

End Deleting.

Lemma confirmed_iff (confirm : string) :
  ((confirm =? "y") || (confirm =? "yes"))%string = true
  <-> confirm = "y" \/ confirm = "yes".
Proof. now rewrite orb_true_iff, !String.eqb_eq. Qed.

Lemma cancelled_not_validation :
  ~ exists msg, line "Deletion cancelled." = line msg /\ ValidationError msg.
Proof. intros [msg [E H]]. destruct H; discriminate E. Qed.

Lemma cancelled_not_not_found :
  ~ exists msg, line "Deletion cancelled." = line msg /\ NotFoundError msg.
Proof. intros [msg [E H]]. destruct H; discriminate E. Qed.

(** C7, as the code has it.  On an empty book [delete_contact] prints
    "No contacts to delete!" and returns.  On any other book it looks the
    name it reads (trimmed) up among the keys, ignoring case, and ends in
    a failed lookup, changing nothing, when no contact goes by it; when
    one does, the lookup finds a contact that goes by it.  When a contact
    is found it is removed, and the book saved, exactly when the answer read is "y" or "yes" once trimmed
    and lower-cased; in a book of distinct names a lookup of that name
    then finds nothing.  Any other answer leaves book and file as they
    were and ends with the cancellation notice, which is neither a
    validation failure nor a failed lookup. *)
Theorem delete_contact_confirmation (w : world) (typed answer : string)
    (rest : list string) :
  stdin w = typed :: answer :: rest ->
  let name := Str.strip typed in
  let confirm := Str.lower (Str.strip answer) in
  (contacts w = [] ->
     ContactBook.delete_contact w
     = Ok tt (saying [line (Str.nl ++ "No contacts to delete!")] w))
  /\ (contacts w <> [] -> ~ name_taken name (contacts w) ->
     ends_with NotFoundError (ContactBook.delete_contact w)
     /\ exists w',
          ContactBook.delete_contact w = Ok tt w'
          /\ contacts w' = contacts w /\ written w' = written w)
  /\ (forall a d,
        contacts w <> [] ->
        ContactBook.find_actual_name name (keys (contacts w)) = Some a ->
        a <> "" ->
        get a (contacts w) = Some d ->
        record_ok d = true ->
        In a (keys (contacts w)) /\ same_name a name
        /\ (confirm = "y" \/ confirm = "yes" ->
            exists w',
              final (ContactBook.delete_contact w) = Some w'
              /\ contacts w' = del a (contacts w)
              /\ (write_fault w = None ->
                  ContactBook.delete_contact w = Ok tt w'
                  /\ ends_with Deleted (ContactBook.delete_contact w)
                  /\ disk w' = Text (Json.dumps (contacts w')))
              /\ (names_distinct (contacts w) = true ->
                  get a (contacts w') = None
                  /\ forall q, same_name q name ->
                       ContactBook.find_actual_name q (keys (contacts w'))
                       = None))
        /\ (confirm <> "y" -> confirm <> "yes" ->
            ends_with Cancelled (ContactBook.delete_contact w)
            /\ ~ ends_with ValidationError (ContactBook.delete_contact w)
            /\ ~ ends_with NotFoundError (ContactBook.delete_contact w)
            /\ exists w',
                 ContactBook.delete_contact w = Ok tt w'
                 /\ contacts w' = contacts w
                 /\ disk w' = disk w
                 /\ written w' = written w))
  /\ (name_taken name (contacts w) ->
      exists a,
        ContactBook.find_actual_name name (keys (contacts w)) = Some a
        /\ In a (keys (contacts w)) /\ same_name a name).
Proof.
  intros Hin name confirm. split; [apply delete_none|]. split; [|split].
  - intros Hne Hfree. apply find_none_free in Hfree.
    assert (Hf : ContactBook.falsy
                   (ContactBook.find_actual_name name (keys (contacts w)))
                 = true) by now rewrite Hfree.
    pose proof (delete_not_found w typed Hne _ Hin Hf) as Hrun. split.
    + eapply ends_with_intro with (pre := [_; _]);
        [exact Hrun | reflexivity | constructor].
    + eexists. split; [exact Hrun|]. simpl. auto.
  - intros a d Hne Hfind Ha Hget Hd.
    destruct (find_some _ _ _ Hfind) as [Hina Hsame].
    split; [exact Hina|]. split; [exact Hsame|]. split.
    + intros Hyes. apply confirmed_iff in Hyes.
      assert (Hafter : names_distinct (contacts w) = true ->
                get a (del a (contacts w)) = None
                /\ forall q, same_name q name ->
                     ContactBook.find_actual_name q
                       (keys (del a (contacts w))) = None).
      { intros Hnd. split.
        - apply get_del_same. unfold uniq.
          apply nodupb_iff in Hnd.
          now apply nodup_map_injective in Hnd.
        - intros q Hq. now apply (find_after_del _ a name). }
      destruct (write_fault w) as [x|] eqn:Hwf.
      * eexists. split; [|split; [|split]].
        -- rewrite (delete_not_saved w typed Hne answer rest a d Hin Hfind Ha
                      Hget Hd x Hyes Hwf). reflexivity.
        -- reflexivity.
        -- discriminate.
        -- exact Hafter.
      * pose proof (delete_saved w typed Hne answer rest a d Hin Hfind Ha
                      Hget Hd Hyes Hwf) as Hok.
        eexists. split; [|split; [|split]].
        -- rewrite Hok. reflexivity.
        -- reflexivity.
        -- intros _. split; [exact Hok|]. split; [|reflexivity].
           eapply ends_with_intro with (pre := delete_dialogue a d);
             [exact Hok | reflexivity | constructor].
        -- exact Hafter.
    + intros Hy Hyes.
      assert (Hno : ((confirm =? "y") || (confirm =? "yes"))%string = false).
      { apply not_true_is_false. rewrite confirmed_iff. tauto. }
      pose proof (delete_cancelled w typed Hne answer rest a d Hin Hfind Ha
                    Hget Hd Hno) as Hrun.
      split; [|split; [|split]].
      * eapply ends_with_intro with (pre := delete_dialogue a d);
          [exact Hrun | reflexivity | constructor].
      * intros H. eapply ends_with_inv with (pre := delete_dialogue a d) in H;
          [|exact Hrun | reflexivity].
        revert H. apply cancelled_not_validation.
      * intros H. eapply ends_with_inv with (pre := delete_dialogue a d) in H;
          [|exact Hrun | reflexivity].
        revert H. apply cancelled_not_not_found.
      * eexists. split; [exact Hrun|]. simpl. auto.
  - intros Htaken.
    destruct (ContactBook.find_actual_name name (keys (contacts w)))
      as [a|] eqn:Hfind.
    + exists a. split; [reflexivity|]. exact (find_some _ _ _ Hfind).
    + apply find_none_free in Hfind. contradiction.
Qed.

(** C7 at work: "Alice" is deleted as "alice" on the answer "YES", and
    kept on the answer "n". *)
Lemma delete_contact_confirmation_witness :
  let d := new_record "123" "a@x.com" "1 Main St" in
  let yes := mkWorld [("Alice", d)] Missing None ["alice"; "YES"] [] [] in
  let no := mkWorld [("Alice", d)] Missing None ["alice"; "n"] [] [] in
  contacts yes <> []
  /\ stdin yes = ["alice"; "YES"]
  /\ stdin no = ["alice"; "n"]
  /\ (exists w',
        ContactBook.delete_contact yes = Ok tt w'
        /\ contacts w' = []
        /\ ContactBook.find_actual_name "alice" (keys (contacts w')) = None)
  /\ ends_with Cancelled (ContactBook.delete_contact no)
  /\ exists w',
       ContactBook.delete_contact no = Ok tt w'
       /\ contacts w' = contacts no.
Proof.
  intros d yes no. split; [discriminate|]. split; [reflexivity|].
  split; [reflexivity|]. split.
  - destruct (delete_contact_confirmation yes "alice" "YES" [] eq_refl)
      as [_ [_ [Hfound _]]].
    destruct (Hfound "Alice" d) as [_ [_ [Hyes _]]];
      [discriminate | reflexivity | discriminate | reflexivity
       | reflexivity |].
    destruct Hyes as [w' [_ [Hcs [Hok Hgone]]]]; [right; reflexivity|].
    destruct (Hok eq_refl) as [Hrun _].
    destruct (Hgone eq_refl) as [_ Hq].
    exists w'. split; [exact Hrun|]. split; [exact Hcs|].
    apply Hq. reflexivity.
  - destruct (delete_contact_confirmation no "alice" "n" [] eq_refl)
      as [_ [_ [Hfound _]]].
    destruct (Hfound "Alice" d) as [_ [_ [_ Hno]]];
      [discriminate | reflexivity | discriminate | reflexivity
       | reflexivity |].
    destruct Hno as [Hc [_ [_ [w' [Hrun [Hcs _]]]]]];
      [discriminate | discriminate |].
    split; [exact Hc|]. exists w'. auto.
Defined.

(** C7 as stated fails on the empty book: no contact goes by the name,
    and the call ends with the "no contacts" notice, not with a failed
    lookup. *)
Lemma delete_empty_book_counterexample :
  let w := mkWorld [] Missing None ["ghost"; "y"] [] [] in
  ~ name_taken (Str.strip "ghost") (contacts w)
  /\ ContactBook.delete_contact w
     = Ok tt (saying [line (Str.nl ++ "No contacts to delete!")] w)
  /\ ~ ends_with NotFoundError (ContactBook.delete_contact w).
Proof.
  intros w. split; [intros [k [[] _]]|]. split; [reflexivity|].
  intros H. eapply ends_with_inv with (out := []) (pre := []) in H;
    [|reflexivity | reflexivity].
  revert H. apply notice_not_not_found.
Qed.

(** ** Invariants *)

Section Keeps.
Variable I : store -> Prop.

Lemma keeps_ret {A} (a : A) : keeps I (ret a).
Proof. intros w H. exact H. Qed.

Lemma keeps_raise {A} (e : exn) : keeps I (@raise A e).
Proof. intros w H. exact H. Qed.

Lemma keeps_bind {A B} (m : M A) (k : A -> M B) :
  keeps I m -> (forall a, keeps I (k a)) -> keeps I (bind m k).
Proof.
  intros Hm Hk w H. unfold bind. specialize (Hm w H).
  destruct (m w) as [a w'| |]; [|assumption|exact Logic.I].
  apply Hk, Hm.
Qed.

(** After [get_contacts] the rest may use that the book it was given
    has the property. *)
Lemma keeps_get {A} (k : store -> M A) :
  (forall cs, I cs -> keeps I (k cs)) -> keeps I (bind get_contacts k).
Proof. intros Hk w H. unfold bind, get_contacts. now apply Hk. Qed.

Lemma keeps_set (cs : store) : I cs -> keeps I (set_contacts cs).
Proof. intros H w _. exact H. Qed.

Lemma keeps_write_stdout (s : string) : keeps I (write_stdout s).
Proof. intros w H. exact H. Qed.

Lemma keeps_print (s : string) : keeps I (print s).
Proof. apply keeps_write_stdout. Qed.

Lemma keeps_input (prompt : string) : keeps I (input prompt).
Proof.
  intros w H. unfold input, bind, write_stdout. cbn [stdin].
  destruct (stdin w); exact H.
Qed.

Lemma keeps_getitem {V} (d : dict V) (key : string) : keeps I (getitem d key).
Proof. intros w H. unfold getitem. destruct (get key d); exact H. Qed.

Lemma keeps_save : keeps I ContactBook.save_contacts.
Proof.
  intros w H. unfold ContactBook.save_contacts, bind, get_contacts, write_file.
  destruct (write_fault w); exact H.
Qed.

Lemma keeps_for_each {A} (xs : list A) (body : A -> M unit) :
  (forall x, keeps I (body x)) -> keeps I (for_each xs body).
Proof.
  intros Hb. induction xs as [|x xs IH]; simpl.
  - apply keeps_ret.
  - apply keeps_bind; [apply Hb | intros _; exact IH].
Qed.

End Keeps.

(** Takes a method apart along its binds; what is left are the branches
    and the assignments to the book. *)
Ltac keeps_steps :=
  repeat first
    [ apply keeps_print | apply keeps_input | apply keeps_getitem
    | apply keeps_save | apply keeps_ret | apply keeps_raise
    | apply keeps_get; intros ? ?
    | apply keeps_bind; [|intros ?] ].

(** Splits on the test of the conditional a method has come to. *)
Ltac branch :=
  cbv zeta;
  match goal with
  | |- keeps _ (if ?c then _ else _) => destruct c eqn:?
  end.

Section KeepsMethods.
Import ContactBook.
Variable I : store -> Prop.

Lemma keeps_print_row (item : string * details) : keeps I (print_row item).
Proof. destruct item as [name d]. unfold print_row. keeps_steps. Qed.

Lemma keeps_is_match (query : string) (item : string * details) :
  keeps I (is_match query item).
Proof.
  destruct item as [name d]. unfold is_match.
  branch; keeps_steps. branch; keeps_steps.
Qed.

Lemma keeps_collect_matches (query : string) (items : store) :
  keeps I (collect_matches query items).
Proof.
  induction items as [|item items IH]; simpl; keeps_steps.
  - apply keeps_is_match.
  - exact IH.
Qed.

Lemma keeps_view : keeps I view_contacts.
Proof.
  unfold view_contacts. keeps_steps. branch; keeps_steps.
  apply keeps_for_each, keeps_print_row.
Qed.

Lemma keeps_search : keeps I search_contact.
Proof.
  unfold search_contact. keeps_steps.
  branch; keeps_steps. branch; keeps_steps.
  - apply keeps_collect_matches.
  - branch; keeps_steps. apply keeps_for_each, keeps_print_row.
Qed.

(** [add_contact] keeps what survives a new entry under a free name. *)
Lemma keeps_add :
  (forall cs name r, I cs -> ~ name_taken name cs -> I (set name r cs)) ->
  keeps I add_contact.
Proof.
  intros Hset. unfold add_contact. keeps_steps.
  branch; keeps_steps. branch; keeps_steps. branch; keeps_steps.
  apply keeps_set, Hset; [assumption|].
  rewrite <- name_taken_iff. congruence.
Qed.

(** [update_contact] keeps what survives new details under a present
    key. *)
Lemma keeps_update :
  (forall cs a d, I cs -> In a (keys cs) -> I (set a d cs)) ->
  keeps I update_contact.
Proof.
  intros Hset. unfold update_contact. keeps_steps.
  branch; keeps_steps. cbv zeta.
  match goal with
  | |- context [find_actual_name ?n ?ks] =>
      destruct (find_actual_name n ks) as [found|] eqn:Hfind
  end; cbn [falsy the]; [|keeps_steps].
  branch; keeps_steps.
  apply keeps_set, Hset; [assumption|].
  now apply find_some in Hfind.
Qed.

(** [delete_contact] keeps what survives the removal of a key. *)
Lemma keeps_delete :
  (forall cs a, I cs -> I (del a cs)) ->
  keeps I delete_contact.
Proof.
  intros Hdel. unfold delete_contact. keeps_steps.
  branch; keeps_steps. cbv zeta.
  match goal with
  | |- context [find_actual_name ?n ?ks] =>
      destruct (find_actual_name n ks) as [found|] eqn:Hfind
  end; cbn [falsy the]; [|keeps_steps].
  branch; keeps_steps. branch; keeps_steps.
  now apply keeps_set, Hdel.
Qed.

End KeepsMethods.

Lemma keeps_final {A} (I : store -> Prop) (m : M A) (w w' : world) :
  keeps I m -> I (contacts w) -> final (m w) = Some w' -> I (contacts w').
Proof.
  intros Hk HI Hf. specialize (Hk w HI).
  destruct (m w); simpl in Hf; inversion Hf; subst; exact Hk.
Qed.

(** ** Distinct names *)

Lemma free_name_fresh (name : string) (cs : store) :
  ~ name_taken name cs -> ~ In name (keys cs).
Proof. intros H Hin. apply H. exists name. split; [assumption|reflexivity]. Qed.

Lemma names_distinct_add (cs : store) (name : string) (r : details) :
  names_distinct cs = true ->
  ~ name_taken name cs ->
  names_distinct (set name r cs) = true.
Proof.
  unfold names_distinct. rewrite !nodupb_iff. intros Hnd Hfree.
  rewrite (set_fresh _ _ _ (free_name_fresh _ _ Hfree)).
  unfold keys. rewrite !map_app. cbn [map fst].
  apply NoDup_app; [exact Hnd | repeat constructor; intros [] |].
  intros x Hx [E|[]]. apply Hfree. apply in_map_iff in Hx.
  destruct Hx as [k [Ek Hk]]. exists k. split; [exact Hk|].
  unfold same_name. congruence.
Qed.

Lemma names_distinct_update (cs : store) (a : string) (d : details) :
  names_distinct cs = true ->
  In a (keys cs) ->
  names_distinct (set a d cs) = true.
Proof.
  unfold names_distinct. intros Hnd Ha. now rewrite keys_set_present.
Qed.

Lemma names_distinct_del (cs : store) (a : string) :
  names_distinct cs = true -> names_distinct (del a cs) = true.
Proof.
  unfold names_distinct. rewrite !nodupb_iff. apply nodup_map_del.
Qed.

(** In a book of distinct names, one name is one key. *)
Lemma distinct_names_one_key (cs : store) (k1 k2 : string) :
  names_distinct cs = true ->
  In k1 (keys cs) -> In k2 (keys cs) -> same_name k1 k2 -> k1 = k2.
Proof.
  unfold names_distinct, same_name. rewrite nodupb_iff.
  induction (keys cs) as [|k ks IH]; simpl; [contradiction|].
  intros Hnd H1 H2 E. inversion Hnd as [|? ? Hn Hd]; subst.
  destruct H1 as [<-|H1], H2 as [<-|H2]; auto.
  - exfalso. apply Hn. rewrite E. now apply in_map.
  - exfalso. apply Hn. rewrite <- E. now apply in_map.
Qed.

Lemma perform_keeps_distinct (o : operation) :
  keeps (fun cs => names_distinct cs = true) (perform o).
Proof.
  destruct o; simpl.
  - apply keeps_add. intros cs name r. apply names_distinct_add.
  - apply keeps_view.
  - apply keeps_search.
  - apply keeps_update. intros cs a d. apply names_distinct_update.
  - apply keeps_delete. intros cs a. apply names_distinct_del.
Qed.

Lemma menu_round_keeps_distinct :
  keeps (fun cs => names_distinct cs = true) ContactBook.menu_round.
Proof.
  assert (Hpause : keeps (fun cs => names_distinct cs = true)
                     ContactBook.press_enter).
  { unfold ContactBook.press_enter.
    apply keeps_bind; [apply keeps_input | intros _; apply keeps_ret]. }
  assert (Hthen : forall m : M unit,
             keeps (fun cs => names_distinct cs = true) m ->
             keeps (fun cs => names_distinct cs = true)
               (m ;; ContactBook.press_enter)).
  { intros m Hm. apply keeps_bind; [exact Hm | intros _; exact Hpause]. }
  unfold ContactBook.menu_round.
  apply keeps_bind.
  { unfold ContactBook.display_menu.
    repeat (apply keeps_bind; [apply keeps_print | intros _]).
    apply keeps_print. }
  intros _. apply keeps_bind; [apply keeps_input|]. intros choice.
  branch; [apply Hthen, (perform_keeps_distinct Add)|].
  branch; [apply Hthen, (perform_keeps_distinct View)|].
  branch; [apply Hthen, (perform_keeps_distinct Search)|].
  branch; [apply Hthen, (perform_keeps_distinct Update)|].
  branch; [apply Hthen, (perform_keeps_distinct Delete)|].
  branch.
  - apply keeps_bind; [apply keeps_print | intros _].
    apply keeps_bind; [apply keeps_print | intros _]. apply keeps_ret.
  - apply Hthen, keeps_print.
Qed.

Lemma loops_keeps_distinct (w : world) (r : result unit) :
  ContactBook.loops w r ->
  names_distinct (contacts w) = true ->
  forall w', final r = Some w' -> names_distinct (contacts w') = true.
Proof.
  induction 1 as [w w1 Hround | w w1 e Hround | w w1 r Hround _ IH];
    intros Hnd w' Hf.
  - simpl in Hf. inversion Hf; subst.
    pose proof (menu_round_keeps_distinct w Hnd) as H.
    now rewrite Hround in H.
  - simpl in Hf. inversion Hf; subst.
    pose proof (menu_round_keeps_distinct w Hnd) as H.
    now rewrite Hround in H.
  - apply IH; [|exact Hf].
    pose proof (menu_round_keeps_distinct w Hnd) as H.
    now rewrite Hround in H.
Qed.

(** A session of the whole program: with no file yet, add "Alice", look
    at the list, leave.  The book ends with Alice in it and on disk. *)
Example main_session :
  let w := mkWorld [] Missing None
             ["1"; "Alice"; "123"; ""; ""; ""; "2"; ""; "6"] [] [] in
  let book := [("Alice", new_record "123" "" "")] in
  exists w',
    ContactBook.main w (Ok tt w')
    /\ contacts w' = book
    /\ disk w' = Text (Json.dumps book)
    /\ stdin w' = [].
Proof.
  intros w book. eexists. split; [|split; [|split]].
  - unfold ContactBook.main.
    replace (ContactBook.init w) with (Ok tt w) by reflexivity.
    eexists. split; [reflexivity|].
    eapply ContactBook.loops_on; [vm_compute; reflexivity|].
    eapply ContactBook.loops_on; [vm_compute; reflexivity|].
    eapply ContactBook.loops_break. vm_compute. reflexivity.
  - reflexivity.
  - reflexivity.
  - reflexivity.
Qed.

(** C9. The uniqueness invariant is kept by every operation, however it
    ends: [add_contact] only ever adds a name no contact goes by,
    [update_contact] leaves the keys as they are, [delete_contact] only
    takes keys away.  So in every world a session reaches from a book of
    distinct names, and in the world the menu loop [run] ends in, the
    names are distinct: no two keys are equal up to case. *)
Theorem names_stay_distinct (w : world) :
  names_distinct (contacts w) = true ->
  (forall o w',
     final (perform o w) = Some w' -> names_distinct (contacts w') = true)
  /\ (forall w',
        final (ContactBook.update_contact w) = Some w' ->
        keys (contacts w') = keys (contacts w))
  /\ (forall w',
        final (ContactBook.delete_contact w) = Some w' ->
        incl (keys (contacts w')) (keys (contacts w)))
  /\ (forall w',
        reachable w w' ->
        names_distinct (contacts w') = true
        /\ forall k1 k2,
             In k1 (keys (contacts w')) -> In k2 (keys (contacts w')) ->
             same_name k1 k2 -> k1 = k2)
  /\ (forall r w',
        ContactBook.run w r -> final r = Some w' ->
        names_distinct (contacts w') = true).
Proof.
  intros Hnd. split; [|split; [|split; [|split]]].
  - intros o w' Hf.
    exact (keeps_final _ _ _ _ (perform_keeps_distinct o) Hnd Hf).
  - intros w' Hf.
    apply (keeps_final (fun cs => keys cs = keys (contacts w))
             ContactBook.update_contact w w'); [|reflexivity|exact Hf].
    apply keeps_update. intros cs a d Hcs Ha.
    now rewrite keys_set_present.
  - intros w' Hf.
    apply (keeps_final (fun cs => incl (keys cs) (keys (contacts w)))
             ContactBook.delete_contact w w'); [|apply incl_refl|exact Hf].
    apply keeps_delete. intros cs a Hcs x Hx.
    apply Hcs. eapply keys_del_subset. exact Hx.
  - intros w' Hreach.
    assert (H : names_distinct (contacts w') = true).
    { induction Hreach as [|w1 w2 Hreach IH Hstep]; [exact Hnd|].
      destruct Hstep as [o Hf|Hio].
      - exact (keeps_final _ _ _ _ (perform_keeps_distinct o) IH Hf).
      - now rewrite Hio. }
    split; [exact H|]. intros k1 k2. now apply distinct_names_one_key.
  - intros r w' [w1 [Hwelcome Hloops]] Hf.
    apply (loops_keeps_distinct w1 r Hloops); [|exact Hf].
    inversion Hwelcome; subst. exact Hnd.
Qed.

(** C9 at work: "Bob" is added beside "Alice", and the names are still
    distinct. *)
Lemma names_stay_distinct_witness :
  let w := mkWorld [("Alice", new_record "123" "" "")] Missing None
             ["Bob"; "555"; ""; ""] [] [] in
  names_distinct (contacts w) = true
  /\ exists w',
       final (perform Add w) = Some w'
       /\ keys (contacts w') = ["Alice"; "Bob"]
       /\ names_distinct (contacts w') = true.
Proof.
  intros w. split; [reflexivity|].
  destruct (names_stay_distinct w eq_refl) as [Hops _].
  eexists. split; [vm_compute; reflexivity|]. split; [reflexivity|].
  apply (Hops Add). vm_compute. reflexivity.
Defined.

(** ** After a successful add *)

Lemma error_not_added (tail : string) :
  ~ exists msg, line ("ERROR: " ++ tail) = line msg /\ Added msg.
Proof. intros [msg [E H]]. destruct H; discriminate E. Qed.

(** [add_contact] ends with its message of success only when the name
    and phone read are not empty, the name is free and the file could be
    written. *)
Lemma added_inv (w : world) (l1 l2 l3 l4 : string) (rest : list string) :
  stdin w = l1 :: l2 :: l3 :: l4 :: rest ->
  ends_with Added (ContactBook.add_contact w) ->
  Str.strip l1 <> ""
  /\ ~ name_taken (Str.strip l1) (contacts w)
  /\ Str.strip l2 <> ""
  /\ write_fault w = None.
Proof.
  intros Hin Hadded.
  destruct (string_dec (Str.strip l1) "") as [Hname|Hname].
  { exfalso. eapply ends_with_inv with (pre := [_; _]) in Hadded;
      [|exact (add_name_empty w l1 _ Hin Hname) | reflexivity].
    revert Hadded. apply error_not_added. }
  destruct (Str.list_in (Str.lower (Str.strip l1))
              (map Str.lower (keys (contacts w)))) eqn:Htaken.
  { exfalso. apply name_taken_iff in Htaken.
    eapply ends_with_inv with (pre := [_; _]) in Hadded;
      [|exact (add_name_taken w l1 _ Hin Hname Htaken) | reflexivity].
    revert Hadded. apply error_not_added. }
  assert (Hfree : ~ name_taken (Str.strip l1) (contacts w)).
  { rewrite <- name_taken_iff. congruence. }
  destruct (string_dec (Str.strip l2) "") as [Hphone|Hphone].
  { exfalso. eapply ends_with_inv with (pre := [_; _; _; _; _]) in Hadded;
      [|exact (add_phone_empty w l1 l2 l3 l4 rest Hin Hname Hfree Hphone)
       | reflexivity].
    revert Hadded. apply error_not_added. }
  destruct (write_fault w) as [x|] eqn:Hwf; [|auto].
  exfalso. destruct Hadded as [w' [before [msg [Hr _]]]].
  rewrite (add_not_saved w l1 l2 l3 l4 rest Hin Hname Hfree x Hphone Hwf)
    in Hr.
  discriminate Hr.
Qed.

(** C8. After a successful [add_contact] the contact is the last entry
    of the book, under the name as it was typed (trimmed, its case
    kept), and the lookup loop finds that key for the name in any
    casing, be it a casing of the key or, once trimmed as
    [update_contact] and [delete_contact] trim what they read, a casing
    of the line typed.  In a book of distinct names the new book has distinct names
    too, so the lookup has one key at most to find. *)
Theorem add_then_find (w : world) (typed phone email address : string)
    (rest : list string) :
  stdin w = typed :: phone :: email :: address :: rest ->
  ends_with Added (ContactBook.add_contact w) ->
  let name := Str.strip typed in
  let record :=
    new_record (Str.strip phone) (Str.strip email) (Str.strip address) in
  exists w',
    ContactBook.add_contact w = Ok tt w'
    /\ contacts w' = (contacts w ++ [(name, record)])%list
    /\ get name (contacts w') = Some record
    /\ (forall q,
          same_name q name ->
          ContactBook.find_actual_name q (keys (contacts w')) = Some name)
    /\ (forall q,
          same_name q typed ->
          ContactBook.find_actual_name (Str.strip q) (keys (contacts w'))
          = Some name)
    /\ (names_distinct (contacts w) = true ->
        names_distinct (contacts w') = true
        /\ forall q k1 k2,
             In k1 (keys (contacts w')) -> In k2 (keys (contacts w')) ->
             same_name k1 q -> same_name k2 q -> k1 = k2).
Proof.
  intros Hin Hadded name record.
  destruct (added_inv w typed phone email address rest Hin Hadded)
    as [Hname [Hfree [Hphone Hwf]]].
  pose proof (add_saved w typed phone email address rest Hin Hname Hfree
                Hphone Hwf) as Hrun.
  eexists. split; [exact Hrun|]. cbn [contacts].
  fold name. fold record.
  split; [apply set_fresh, free_name_fresh, Hfree|].
  split; [apply get_set_same|].
  assert (Hfound : forall q,
             same_name q name ->
             ContactBook.find_actual_name q
               (keys (set name record (contacts w))) = Some name).
  { intros q Hq. rewrite (find_same_name q name _ Hq).
    rewrite (set_fresh _ _ _ (free_name_fresh _ _ Hfree)).
    unfold keys. rewrite map_app. rewrite find_app.
    - cbn [map fst ContactBook.find_actual_name].
      now rewrite String.eqb_refl.
    - now apply find_none_free. }
  split; [exact Hfound|]. split.
  - intros q Hq. apply Hfound. unfold same_name in *. subst name.
    now rewrite <- !strip_lower, Hq.
  - intros Hnd.
    assert (Hnd' : names_distinct (set name record (contacts w)) = true)
      by now apply names_distinct_add.
    split; [exact Hnd'|]. intros q k1 k2 H1 H2 E1 E2.
    apply (distinct_names_one_key _ k1 k2 Hnd' H1 H2).
    unfold same_name in *. congruence.
Qed.

(** C8 at work: after adding "Alice", the lookup of "ALICE" finds her. *)
Lemma add_then_find_witness :
  let w := mkWorld [] Missing None ["Alice"; "123"; "a@x.com"; "1 Main St"]
             [] [] in
  stdin w = ["Alice"; "123"; "a@x.com"; "1 Main St"]
  /\ ends_with Added (ContactBook.add_contact w)
  /\ exists w',
       ContactBook.add_contact w = Ok tt w'
       /\ contacts w' = [("Alice", new_record "123" "a@x.com" "1 Main St")]
       /\ ContactBook.find_actual_name "ALICE" (keys (contacts w'))
          = Some "Alice"
       /\ get "Alice" (contacts w')
          = Some (new_record "123" "a@x.com" "1 Main St").
Proof.
  intros w. split; [reflexivity|].
  assert (Hadded : ends_with Added (ContactBook.add_contact w)).
  { eexists. exists [line (Str.nl ++ "=== ADD NEW CONTACT ===");
                     "Enter contact name: "; "Enter phone number: ";
                     "Enter email address: "; "Enter address: "].
    exists "SUCCESS: Contact 'Alice' added successfully!".
    split; [vm_compute; reflexivity|].
    split; [reflexivity | exact (added "Alice")]. }
  split; [exact Hadded|].
  destruct (add_then_find w "Alice" "123" "a@x.com" "1 Main St" []
              eq_refl Hadded) as [w' [Hrun [Hcs [Hget [Hfind _]]]]].
  exists w'. split; [exact Hrun|]. split; [exact Hcs|].
  split; [|exact Hget]. apply Hfind. reflexivity.
Defined.

(** * Further properties *)

(** ** Relations a call keeps *)

Section Stays.
Variable R : world -> world -> Prop.
Hypothesis R_refl : forall w, R w w.
Hypothesis R_trans : forall w1 w2 w3, R w1 w2 -> R w2 w3 -> R w1 w3.
Hypothesis R_written : forall w s,
  R w (mkWorld (contacts w) (disk w) (write_fault w) (stdin w)
         (stdout w ++ [s]) (written w)).
Hypothesis R_read : forall w line rest,
  stdin w = line :: rest ->
  R w (mkWorld (contacts w) (disk w) (write_fault w) rest (stdout w)
         (written w)).

Lemma stays_ret {A} (a : A) : stays R (ret a).
Proof. intros w. apply R_refl. Qed.

Lemma stays_raise {A} (e : exn) : stays R (@raise A e).
Proof. intros w. apply R_refl. Qed.

Lemma stays_bind {A B} (m : M A) (k : A -> M B) :
  stays R m -> (forall a, stays R (k a)) -> stays R (bind m k).
Proof.
  intros Hm Hk w. unfold bind. specialize (Hm w).
  destruct (m w) as [a w1|e w1|]; [|exact Hm|exact Hm].
  specialize (Hk a w1).
  destruct (k a w1) as [b w2|e w2|]; [| |exact Hk];
    apply (R_trans _ _ _ Hm Hk).
Qed.

Lemma stays_get_contacts : stays R get_contacts.
Proof. intros w. apply R_refl. Qed.

Lemma stays_write_stdout (s : string) : stays R (write_stdout s).
Proof. intros w. apply R_written. Qed.

Lemma stays_print (s : string) : stays R (print s).
Proof. apply stays_write_stdout. Qed.

Lemma stays_input (prompt : string) : stays R (input prompt).
Proof.
  unfold input. apply stays_bind; [apply stays_write_stdout|].
  intros _ w. destruct (stdin w) as [|line rest] eqn:E.
  - apply R_refl.
  - now apply (R_read w line rest).
Qed.

Lemma stays_getitem {V} (d : dict V) (key : string) : stays R (getitem d key).
Proof. intros w. unfold getitem. destruct (get key d); apply R_refl. Qed.

Lemma stays_for_each {A} (xs : list A) (body : A -> M unit) :
  (forall x, stays R (body x)) -> stays R (for_each xs body).
Proof.
  intros Hb. induction xs as [|x xs IH]; simpl.
  - apply stays_ret.
  - apply stays_bind; [apply Hb | intros _; exact IH].
Qed.

Lemma stays_print_row (item : string * details) :
  stays R (ContactBook.print_row item).
Proof.
  destruct item as [name d]. unfold ContactBook.print_row.
  apply stays_bind; [apply stays_getitem | intros phone].
  apply stays_bind; [apply stays_getitem | intros email].
  apply stays_bind; [apply stays_getitem | intros address].
  apply stays_print.
Qed.

Lemma stays_is_match (query : string) (item : string * details) :
  stays R (ContactBook.is_match query item).
Proof.
  destruct item as [name d]. unfold ContactBook.is_match.
  destruct (Str.contains query (Str.lower name)); [apply stays_ret|].
  apply stays_bind; [apply stays_getitem | intros phone].
  destruct (Str.contains query phone); [apply stays_ret|].
  apply stays_bind; [apply stays_getitem | intros email]. apply stays_ret.
Qed.

Lemma stays_collect_matches (query : string) (items : store) :
  stays R (ContactBook.collect_matches query items).
Proof.
  induction items as [|item items IH]; simpl; [apply stays_ret|].
  apply stays_bind; [apply stays_is_match | intros hit].
  apply stays_bind; [exact IH | intros more]. apply stays_ret.
Qed.

Lemma stays_view : stays R ContactBook.view_contacts.
Proof.
  unfold ContactBook.view_contacts.
  apply stays_bind; [apply stays_get_contacts | intros cs].
  destruct (is_empty cs); [apply stays_print|].
  apply stays_bind; [apply stays_print | intros _].
  apply stays_bind; [apply stays_print | intros _].
  apply stays_bind; [apply stays_print | intros _].
  apply stays_bind; [apply stays_for_each, stays_print_row | intros _].
  apply stays_print.
Qed.

Lemma stays_search : stays R ContactBook.search_contact.
Proof.
  unfold ContactBook.search_contact.
  apply stays_bind; [apply stays_get_contacts | intros cs].
  destruct (is_empty cs); [apply stays_print|].
  apply stays_bind; [apply stays_print | intros _].
  apply stays_bind; [apply stays_input | intros typed]. cbv zeta.
  destruct (Str.is_empty (Str.lower (Str.strip typed))); [apply stays_print|].
  apply stays_bind; [apply stays_collect_matches | intros found].
  destruct (negb (is_empty found)); [|apply stays_print].
  apply stays_bind; [apply stays_print | intros _].
  apply stays_bind; [apply stays_print | intros _].
  apply stays_bind; [apply stays_print | intros _].
  apply stays_for_each, stays_print_row.
Qed.

End Stays.

Lemma untouched_refl (w : world) : untouched w w.
Proof. unfold untouched. auto. Qed.

Lemma untouched_trans (w1 w2 w3 : world) :
  untouched w1 w2 -> untouched w2 w3 -> untouched w1 w3.
Proof. unfold untouched. intuition congruence. Qed.

Lemma stays_final {A} (R : world -> world -> Prop) (m : M A) (w w' : world) :
  stays R m -> final (m w) = Some w' -> R w w'.
Proof.
  intros Hm Hf. specialize (Hm w).
  destruct (m w); simpl in Hf; inversion Hf; subst; exact Hm.
Qed.

Lemma stays_typed {A} (R : world -> world -> Prop) (m : M A) (w : world) :
  stays R m -> m w <> Untyped.
Proof. intros Hm E. specialize (Hm w). now rewrite E in Hm. Qed.

(** X1. [view_contacts] and [search_contact] only read and print.
    However they end, be it by KeyError on a contact without a field or
    by EOFError at the end of input, the book, the file and the record
    of saves are as before; [view_contacts] reads no input at all. *)
Theorem view_and_search_read_only (w : world) :
  (forall w',
     final (ContactBook.view_contacts w) = Some w' ->
     untouched w w' /\ stdin w' = stdin w)
  /\ (forall w',
        final (ContactBook.search_contact w) = Some w' -> untouched w w')
  /\ ContactBook.view_contacts w <> Untyped
  /\ ContactBook.search_contact w <> Untyped.
Proof.
  assert (Hv : stays (fun w w' => untouched w w' /\ stdin w' = stdin w)
                 ContactBook.view_contacts).
  { apply stays_view.
    - intros w0. split; [apply untouched_refl | reflexivity].
    - intros w1 w2 w3 [H12 E12] [H23 E23].
      split; [eapply untouched_trans; eassumption | congruence].
    - intros w0 s. unfold untouched. cbn. auto. }
  assert (Hs : stays untouched ContactBook.search_contact).
  { apply stays_search.
    - apply untouched_refl.
    - apply untouched_trans.
    - intros w0 s. unfold untouched. cbn. auto.
    - intros w0 line rest _. unfold untouched. cbn. auto. }
  split; [|split; [|split]].
  - intros w' Hf. exact (stays_final _ _ _ _ Hv Hf).
  - intros w' Hf. exact (stays_final _ _ _ _ Hs Hf).
  - exact (stays_typed _ _ _ Hv).
  - exact (stays_typed _ _ _ Hs).
Qed.

(** ** What the methods that write keep *)

Section StaysWriting.
Variable R : world -> world -> Prop.
Hypothesis R_refl : forall w, R w w.
Hypothesis R_trans : forall w1 w2 w3, R w1 w2 -> R w2 w3 -> R w1 w3.
Hypothesis R_written : forall w s,
  R w (mkWorld (contacts w) (disk w) (write_fault w) (stdin w)
         (stdout w ++ [s]) (written w)).
Hypothesis R_read : forall w line rest,
  stdin w = line :: rest ->
  R w (mkWorld (contacts w) (disk w) (write_fault w) rest (stdout w)
         (written w)).
Hypothesis R_book : forall w cs,
  R w (mkWorld cs (disk w) (write_fault w) (stdin w) (stdout w) (written w)).
Hypothesis R_saved : forall w text,
  R w (mkWorld (contacts w) (Text text) None (stdin w) (stdout w)
         (written w ++ [text])).

Lemma stays_set_contacts (cs : store) : stays R (set_contacts cs).
Proof. intros w. apply R_book. Qed.

Lemma stays_save : stays R ContactBook.save_contacts.
Proof.
  intros w. unfold ContactBook.save_contacts, bind, get_contacts, write_file.
  destruct (write_fault w); [apply R_refl | apply R_saved].
Qed.

(** Steps through a method along its binds. *)
Ltac stays_steps :=
  repeat first
    [ apply (stays_print R R_written)
    | apply (stays_input R R_refl R_trans R_written R_read)
    | apply (stays_getitem R R_refl)
    | apply (stays_get_contacts R R_refl)
    | apply stays_set_contacts
    | apply stays_save
    | apply (stays_ret R R_refl)
    | apply (stays_bind R R_trans); [|intros ?] ].

Ltac stays_branch :=
  cbv zeta;
  match goal with
  | |- stays _ (if ?c then _ else _) => destruct c
  end.

Lemma stays_add : stays R ContactBook.add_contact.
Proof.
  unfold ContactBook.add_contact. stays_steps.
  stays_branch; stays_steps. stays_branch; stays_steps.
  stays_branch; stays_steps.
Qed.

Lemma stays_update : stays R ContactBook.update_contact.
Proof.
  unfold ContactBook.update_contact. stays_steps.
  stays_branch; stays_steps. stays_branch; stays_steps.
Qed.

Lemma stays_delete : stays R ContactBook.delete_contact.
Proof.
  unfold ContactBook.delete_contact. stays_steps.
  stays_branch; stays_steps. stays_branch; stays_steps.
  stays_branch; stays_steps.
Qed.

Lemma stays_perform (o : operation) : stays R (perform o).
Proof.
  destruct o; simpl.
  - apply stays_add.
  - apply (stays_view R R_refl R_trans R_written).
  - apply (stays_search R R_refl R_trans R_written R_read).
  - apply stays_update.
  - apply stays_delete.
Qed.

Lemma stays_press_enter : stays R ContactBook.press_enter.
Proof. unfold ContactBook.press_enter. stays_steps. Qed.

Lemma stays_display_menu : stays R ContactBook.display_menu.
Proof.
  unfold ContactBook.display_menu.
  repeat (apply (stays_bind R R_trans);
          [apply (stays_print R R_written) | intros _]).
  apply (stays_print R R_written).
Qed.

(** What a round of the menu does once the choice is read. *)
Lemma stays_dispatch (choice : string) :
  stays R
    (if (choice =? "1")%string
     then ContactBook.add_contact ;; ContactBook.press_enter
     else if (choice =? "2")%string
     then ContactBook.view_contacts ;; ContactBook.press_enter
     else if (choice =? "3")%string
     then ContactBook.search_contact ;; ContactBook.press_enter
     else if (choice =? "4")%string
     then ContactBook.update_contact ;; ContactBook.press_enter
     else if (choice =? "5")%string
     then ContactBook.delete_contact ;; ContactBook.press_enter
     else if (choice =? "6")%string
     then print (Str.nl ++ "Thank you for using Contact Book Manager!") ;;
          print "All contacts have been saved automatically." ;;
          ret false
     else print "ERROR: Invalid choice! Please select 1-6." ;;
          ContactBook.press_enter).
Proof.
  pose proof stays_press_enter as Hp.
  assert (Hthen : forall m : M unit,
             stays R m -> stays R (m ;; ContactBook.press_enter)).
  { intros m Hm. apply (stays_bind R R_trans); [exact Hm | intros _; exact Hp]. }
  destruct (choice =? "1")%string; [apply Hthen, (stays_perform Add)|].
  destruct (choice =? "2")%string; [apply Hthen, (stays_perform View)|].
  destruct (choice =? "3")%string; [apply Hthen, (stays_perform Search)|].
  destruct (choice =? "4")%string; [apply Hthen, (stays_perform Update)|].
  destruct (choice =? "5")%string; [apply Hthen, (stays_perform Delete)|].
  destruct (choice =? "6")%string.
  - apply (stays_bind R R_trans); [apply (stays_print R R_written)|intros _].
    apply (stays_bind R R_trans); [apply (stays_print R R_written)|intros _].
    apply (stays_ret R R_refl).
  - apply Hthen, (stays_print R R_written).
Qed.

Lemma stays_menu_round : stays R ContactBook.menu_round.
Proof.
  unfold ContactBook.menu_round.
  apply (stays_bind R R_trans); [apply stays_display_menu | intros _].
  apply (stays_bind R R_trans);
    [apply (stays_input R R_refl R_trans R_written R_read) | intros line].
  apply stays_dispatch.
Qed.

End StaysWriting.

(** ** The menu loop ends *)

Lemma no_more_input_refl (w : world) : no_more_input w w.
Proof. unfold no_more_input. auto. Qed.

Lemma no_more_input_trans (w1 w2 w3 : world) :
  no_more_input w1 w2 -> no_more_input w2 w3 -> no_more_input w1 w3.
Proof. unfold no_more_input. intros. lia. Qed.

Lemma dispatch_no_more_input (choice : string) (w : world) :
  match
    (if (choice =? "1")%string
     then ContactBook.add_contact ;; ContactBook.press_enter
     else if (choice =? "2")%string
     then ContactBook.view_contacts ;; ContactBook.press_enter
     else if (choice =? "3")%string
     then ContactBook.search_contact ;; ContactBook.press_enter
     else if (choice =? "4")%string
     then ContactBook.update_contact ;; ContactBook.press_enter
     else if (choice =? "5")%string
     then ContactBook.delete_contact ;; ContactBook.press_enter
     else if (choice =? "6")%string
     then print (Str.nl ++ "Thank you for using Contact Book Manager!") ;;
          print "All contacts have been saved automatically." ;;
          ret false
     else print "ERROR: Invalid choice! Please select 1-6." ;;
          ContactBook.press_enter) w
  with
  | Ok _ w' | Raise _ w' => no_more_input w w'
  | Untyped => False
  end.
Proof.
  apply (stays_dispatch no_more_input no_more_input_refl no_more_input_trans).
  - intros w0 s. apply Nat.le_refl.
  - intros w0 line rest E. unfold no_more_input. cbn. rewrite E. cbn. lia.
  - intros w0 cs. apply Nat.le_refl.
  - intros w0 text. apply Nat.le_refl.
Qed.

(** A round of the menu that does not raise has read a line at least. *)
Lemma menu_round_reads (w : world) :
  match ContactBook.menu_round w with
  | Ok _ w' => List.length (stdin w') < List.length (stdin w)
  | Raise _ w' => List.length (stdin w') <= List.length (stdin w)
  | Untyped => False
  end.
Proof.
  unfold ContactBook.menu_round. unfold bind at 1.
  pose proof (stays_display_menu (fun w w' => stdin w' = stdin w)
                ltac:(intros; congruence) ltac:(intros; reflexivity) w) as Hm.
  destruct (ContactBook.display_menu w) as [[] w1|e w1|];
    [|now rewrite Hm|exact Hm].
  rewrite <- Hm. clear Hm w. unfold bind at 1, input at 1, bind at 1.
  unfold write_stdout at 1. cbn [stdin].
  destruct (stdin w1) as [|line rest] eqn:E; [cbn; lia|].
  cbv zeta.
  match goal with
  | |- match ?m ?w0 with _ => _ end =>
      pose proof (dispatch_no_more_input (Str.strip line) w0) as Hd;
      destruct (m w0) as [b w2|e w2|]
  end; unfold no_more_input in Hd; cbn [stdin] in Hd; cbn [List.length];
    try lia; exact Hd.
Qed.

Lemma loops_terminate (n : nat) :
  forall w, List.length (stdin w) <= n ->
  exists r, ContactBook.loops w r /\ r <> Untyped.
Proof.
  induction n as [|n IH]; intros w Hn;
    pose proof (menu_round_reads w) as Hr;
    destruct (ContactBook.menu_round w) as [[|] w1|e w1|] eqn:E;
    try contradiction; try lia.
  - exists (Raise e w1). split; [now apply ContactBook.loops_raise|discriminate].
  - destruct (IH w1 ltac:(lia)) as [r [Hl Hu]].
    exists r. split; [|exact Hu]. eapply ContactBook.loops_on; eassumption.
  - exists (Ok tt w1). split; [now apply ContactBook.loops_break|discriminate].
  - exists (Raise e w1). split; [now apply ContactBook.loops_raise|discriminate].
Qed.

Lemma loops_unique (w : world) (r1 r2 : result unit) :
  ContactBook.loops w r1 -> ContactBook.loops w r2 -> r1 = r2.
Proof.
  intros H1. revert r2.
  induction H1 as [w w1 E|w w1 e E|w w1 r E _ IH]; intros r2 H2;
    inversion H2; subst; try congruence.
  apply IH. congruence.
Qed.

(** X2. [run] comes to an end on every input: whatever lines wait on
    standard input, the welcome line and the menu loop have exactly one
    outcome, a return or an exception (a round that does not raise has
    read a line at least, and the lines run out), and the book has kept
    its type. *)
Theorem run_terminates (w : world) :
  exists r,
    ContactBook.run w r
    /\ r <> Untyped
    /\ forall r', ContactBook.run w r' -> r' = r.
Proof.
  destruct (print "Welcome to Contact Book Manager!" w) as [[] w1|e w1|] eqn:E;
    try discriminate E.
  destruct (loops_terminate (List.length (stdin w1)) w1 (Nat.le_refl _))
    as [r [Hl Hu]].
  exists r. split; [exists w1; auto|]. split; [exact Hu|].
  intros r' [w1' [E' Hl']]. rewrite E in E'. inversion E'; subst w1'.
  exact (loops_unique _ _ _ Hl' Hl).
Qed.

(** ** Every way a method can end *)

(** Follows a method, in the hypothesis [H] about its end, down every
    path: the lines left on standard input, the tests, the lookups. *)
Ltac explore H :=
  repeat
    (cbv beta iota zeta delta
       [bind ret raise print write_stdout input get_contacts set_contacts
        write_file getitem ContactBook.save_contacts final
        contacts disk write_fault stdin stdout written] in H;
     match type of H with
     | context [match ?l with nil => _ | cons _ _ => _ end] =>
         is_var l; destruct l
     | context [if ?c then _ else _] => destruct c eqn:?
     | context [match ?o with Some _ => _ | None => _ end] =>
         destruct o eqn:?
     end).

(** X3. [add_contact] never alters or moves a contact that is in the
    book.  However it ends, the book is as before or longer by one entry
    at its end; and an entry is added only when all four lines were read,
    name and phone are not empty once trimmed, and no contact went by the
    name. *)
Theorem add_only_appends (w w' : world) :
  final (ContactBook.add_contact w) = Some w' ->
  contacts w' = contacts w
  \/ exists l1 l2 l3 l4,
       stdin w = l1 :: l2 :: l3 :: l4 :: stdin w'
       /\ Str.strip l1 <> "" /\ Str.strip l2 <> ""
       /\ ~ name_taken (Str.strip l1) (contacts w)
       /\ contacts w'
          = (contacts w
             ++ [(Str.strip l1,
                  new_record (Str.strip l2) (Str.strip l3) (Str.strip l4))])%list.
Proof.
  intros Hf. destruct w as [cs dk wf inp out wr].
  unfold ContactBook.add_contact in Hf. explore Hf;
    inversion Hf; subst w'; cbn [contacts stdin]; try (left; reflexivity);
    right; exists s, s0, s1, s2;
    repeat match goal with
           | E : Str.is_empty _ = false |- _ => apply is_empty_false in E
           | E : Str.list_in _ _ = false |- _ =>
               apply not_true_iff_false in E; rewrite name_taken_iff in E
           end;
    (repeat split; try assumption; try reflexivity;
     apply set_fresh, free_name_fresh; assumption).
Qed.

(** ** Saving *)

Section Endings.

Lemma untouched_out (w : world) (s : string) :
  untouched w (mkWorld (contacts w) (disk w) (write_fault w) (stdin w)
                 (stdout w ++ [s]) (written w)).
Proof. unfold untouched. cbn. auto. Qed.

Lemma untouched_in (w : world) (line : string) (rest : list string) :
  stdin w = line :: rest ->
  untouched w (mkWorld (contacts w) (disk w) (write_fault w) rest
                 (stdout w) (written w)).
Proof. unfold untouched. cbn. auto. Qed.

Lemma quiet_print (s : string) : stays untouched (print s).
Proof. apply stays_print, untouched_out. Qed.

Lemma quiet_input (prompt : string) : stays untouched (input prompt).
Proof.
  apply stays_input;
    [apply untouched_refl | apply untouched_trans | apply untouched_out
     | apply untouched_in].
Qed.

Lemma quiet_getitem {V} (d : dict V) (key : string) :
  stays untouched (getitem d key).
Proof. apply stays_getitem, untouched_refl. Qed.

Lemma quiet_get_contacts : stays untouched get_contacts.
Proof. apply stays_get_contacts, untouched_refl. Qed.

Lemma ending_untouched (w w1 : world) (r : result unit) :
  untouched w w1 -> ending w1 r -> ending w r.
Proof.
  unfold ending, saved, save_failed, untouched.
  intros [Hc [Hd [Hf Hw]]]. destruct r as [[] w2|e w2|]; [| |auto].
  - intros [[Hc2 [Hd2 [Hf2 Hw2]]]|[Hf2 [Hd2 Hw2]]].
    + left. repeat split; congruence.
    + right. repeat split; congruence.
  - intros [[Hc2 [Hd2 [Hf2 Hw2]]]|[Hf2 [Hd2 Hw2]]].
    + left. repeat split; congruence.
    + right. repeat split; congruence.
Qed.

(** After a step that only reads and prints, the rest decides. *)
Lemma ending_bind {A} (m : M A) (k : A -> M unit) :
  stays untouched m ->
  (forall a w1, ending w1 (k a w1)) ->
  forall w, ending w (bind m k w).
Proof.
  intros Hm Hk w. unfold bind. specialize (Hm w).
  destruct (m w) as [a w1|e w1|]; [|now left|contradiction].
  exact (ending_untouched w w1 _ Hm (Hk a w1)).
Qed.

Lemma ending_quiet (m : M unit) :
  stays untouched m -> forall w, ending w (m w).
Proof.
  intros Hm w. specialize (Hm w).
  destruct (m w) as [[] w1|e w1|]; [now left|now left|contradiction].
Qed.

(** The three lines every change ends with: assign, save, report. *)
Lemma ending_commit (cs : store) (report : string) (w : world) :
  ending w ((set_contacts cs ;; ContactBook.save_contacts ;; print report) w).
Proof.
  destruct w as [cs0 dk wf inp out wr].
  unfold bind, set_contacts, ContactBook.save_contacts, get_contacts,
    write_file, print, write_stdout, bind.
  cbn [contacts disk write_fault stdin stdout written].
  destruct wf as [e|]; cbn.
  - right. unfold save_failed. cbn. auto.
  - right. unfold saved. cbn. auto.
Qed.

Ltac ending_steps :=
  repeat first
    [ apply ending_commit
    | apply ending_quiet, quiet_print
    | apply ending_bind;
      [ first [ apply quiet_print | apply quiet_input | apply quiet_getitem
              | apply quiet_get_contacts ]
      | intros ? ? ] ].

Ltac ending_branch :=
  cbv zeta;
  match goal with
  | |- ending _ ((if ?c then _ else _) _) => destruct c
  end.

Lemma ending_add (w : world) : ending w (ContactBook.add_contact w).
Proof.
  unfold ContactBook.add_contact. ending_steps.
  ending_branch; ending_steps. ending_branch; ending_steps.
  ending_branch; ending_steps.
Qed.

Lemma ending_update (w : world) : ending w (ContactBook.update_contact w).
Proof.
  unfold ContactBook.update_contact. ending_steps.
  ending_branch; ending_steps. ending_branch; ending_steps.
Qed.

Lemma ending_delete (w : world) : ending w (ContactBook.delete_contact w).
Proof.
  unfold ContactBook.delete_contact. ending_steps.
  ending_branch; ending_steps. ending_branch; ending_steps.
  ending_branch; ending_steps.
Qed.

Lemma ending_perform (o : operation) (w : world) : ending w (perform o w).
Proof.
  destruct o; simpl.
  - apply ending_add.
  - apply ending_quiet, stays_view;
      [apply untouched_refl | apply untouched_trans | apply untouched_out].
  - apply ending_quiet, stays_search;
      [apply untouched_refl | apply untouched_trans | apply untouched_out
       | apply untouched_in].
  - apply ending_update.
  - apply ending_delete.
Qed.

End Endings.

(** X4. No operation returns with a changed book it has not saved.  A
    call of any of the five operations ends in one of three ways: only
    input and output happened, and book and file are as before; or it
    returns after the book it leaves was written to the file; or the
    file could not be opened for writing, and then that exception is
    raised and the file is as before. *)
Theorem operations_save_or_leave (o : operation) (w : world) :
  match perform o w with
  | Ok _ w' => untouched w w' \/ saved w w'
  | Raise e w' => untouched w w' \/ save_failed e w w'
  | Untyped => False
  end.
Proof. exact (ending_perform o w). Qed.

(** ** The book is a dictionary throughout *)

Section StoreOk.

Lemma list_in_keys_set {V} (x k : string) (v : V) (d : dict V) :
  In x (keys (set k v d)) -> x = k \/ In x (keys d).
Proof.
  induction d as [|[k' v'] d IH]; simpl.
  - intros [H|[]]. now left.
  - destruct (String.eqb_spec k' k); simpl; intros [H|H]; auto.
    destruct (IH H); auto.
Qed.

Lemma nodup_keys_set {V} (k : string) (v : V) (d : dict V) :
  NoDup (keys d) -> NoDup (keys (set k v d)).
Proof.
  induction d as [|[k' v'] d IH]; simpl; intros H.
  - repeat constructor. intros [].
  - inversion H as [|? ? Hn Hd]; subst.
    destruct (String.eqb_spec k' k) as [->|Hne]; simpl.
    + now constructor.
    + constructor; [|auto]. intros Hin.
      apply list_in_keys_set in Hin. destruct Hin; [congruence|contradiction].
Qed.

Lemma nodup_keys_del {V} (k : string) (d : dict V) :
  NoDup (keys d) -> NoDup (keys (del k d)).
Proof.
  intros H. rewrite <- (map_id (keys (del k d))).
  apply nodup_map_del. now rewrite map_id.
Qed.

Lemma store_ok_iff (cs : store) :
  store_ok cs = true
  <-> NoDup (keys cs) /\ forall k d, In (k, d) cs -> NoDup (keys d).
Proof.
  unfold store_ok. rewrite andb_true_iff, nodupb_iff, forallb_forall.
  split; intros [H1 H2]; split; try assumption.
  - intros k d Hin. apply nodupb_iff. exact (H2 (k, d) Hin).
  - intros [k d] Hin. apply nodupb_iff. exact (H2 k d Hin).
Qed.

Lemma in_set_items {V} (k : string) (v : V) (d : dict V) (x : string * V) :
  In x (set k v d) -> x = (k, v) \/ In x d.
Proof.
  induction d as [|[k' v'] d IH]; simpl.
  - intros [H|[]]. now left.
  - destruct (String.eqb_spec k' k) as [->|Hne]; simpl; intros [H|H]; auto.
    destruct (IH H); auto.
Qed.

Lemma in_del_items {V} (k : string) (d : dict V) (x : string * V) :
  In x (del k d) -> In x d.
Proof.
  induction d as [|[k' v'] d IH]; simpl; [auto|].
  destruct (String.eqb_spec k' k); simpl; intros H; [now right|].
  destruct H; [now left | right; auto].
Qed.

Lemma store_ok_set (cs : store) (k : string) (d : details) :
  store_ok cs = true -> NoDup (keys d) -> store_ok (set k d cs) = true.
Proof.
  rewrite !store_ok_iff. intros [H1 H2] Hd. split.
  - now apply nodup_keys_set.
  - intros k' d' Hin. apply in_set_items in Hin.
    destruct Hin as [E|Hin]; [inversion E; now subst | eauto].
Qed.

Lemma store_ok_del (cs : store) (k : string) :
  store_ok cs = true -> store_ok (del k cs) = true.
Proof.
  rewrite !store_ok_iff. intros [H1 H2]. split.
  - now apply nodup_keys_del.
  - intros k' d' Hin. apply in_del_items in Hin. eauto.
Qed.

Lemma store_ok_get (cs : store) (k : string) (d : details) :
  store_ok cs = true -> get k cs = Some d -> NoDup (keys d).
Proof.
  rewrite store_ok_iff. intros [_ H] Hget.
  apply get_in_items in Hget. eauto.
Qed.

Lemma nodup_keys_revised (p e a : string) (d : details) :
  NoDup (keys d) -> NoDup (keys (revised p e a d)).
Proof.
  intros H. unfold revised.
  destruct (Str.is_empty p), (Str.is_empty e), (Str.is_empty a);
    repeat apply nodup_keys_set; exact H.
Qed.

Lemma nodup_keys_new_record (p e a : string) :
  NoDup (keys (new_record p e a)).
Proof. apply nodupb_iff. reflexivity. Qed.

End StoreOk.

(** ** Invariants that look at the details *)

Section KeepsRecords.
Import ContactBook.
Variable I : store -> Prop.

Lemma keeps_getitem_bind {V A} (d : dict V) (key : string) (k : V -> M A) :
  (forall v, get key d = Some v -> keeps I (k v)) ->
  keeps I (bind (getitem d key) k).
Proof.
  intros Hk w H. unfold bind, getitem.
  destruct (get key d) as [v|]; [|exact H].
  exact (Hk v eq_refl w H).
Qed.

Lemma keeps_add_record :
  (forall cs name p e a,
     I cs -> ~ name_taken name cs -> I (set name (new_record p e a) cs)) ->
  keeps I add_contact.
Proof.
  intros Hset. unfold add_contact. keeps_steps.
  branch; keeps_steps. branch; keeps_steps. branch; keeps_steps.
  apply keeps_set.
  match goal with
  | |- I (set ?n [("phone", ?p); ("email", ?e); ("address", ?a)] ?cs) =>
      apply (Hset cs n p e a)
  end; [assumption|].
  rewrite <- name_taken_iff. congruence.
Qed.

Lemma keeps_update_record :
  (forall cs a d p e ad,
     I cs -> get a cs = Some d -> I (set a (revised p e ad d) cs)) ->
  keeps I update_contact.
Proof.
  intros Hset. unfold update_contact. keeps_steps.
  branch; keeps_steps. branch; [keeps_steps|].
  apply keeps_bind; [apply keeps_print | intros _].
  apply keeps_getitem_bind. intros current Hget. keeps_steps.
  apply keeps_set.
  match goal with
  | |- I (set ?a0 (if Str.is_empty ?x then _ else _) ?cs) =>
      match goal with
      | |- context [set "email" ?y] =>
          match goal with
          | |- context [set "phone" ?z] =>
              change (I (set a0 (revised z y x current) cs))
          end
      end
  end.
  now apply Hset.
Qed.

End KeepsRecords.

(** ** What the decoder returns is a dictionary *)

Section DecoderFacts.
Import Json.

Lemma gather_nodup {V} (pairs : list (option string * V)) :
  forall acc d : dict V,
    NoDup (keys acc) -> gather pairs acc = Some d -> NoDup (keys d).
Proof.
  induction pairs as [|[[k|] v] pairs IH]; intros acc d Hacc H; simpl in H.
  - inversion H; subst. exact Hacc.
  - exact (IH _ _ (nodup_keys_set k v acc Hacc) H).
  - discriminate H.
Qed.

Lemma read_all_keys {A B} (f : A -> option B) (d : dict A) :
  forall r, read_all f d = Some r -> keys r = keys d.
Proof.
  induction d as [|[k a] d IH]; intros r H; simpl in H.
  - inversion H. reflexivity.
  - destruct (f a) as [b|]; [|discriminate H].
    destruct (read_all f d) as [r'|]; [|discriminate H].
    inversion H; subst. simpl. now rewrite (IH r' eq_refl).
Qed.

Lemma read_all_in {A B} (f : A -> option B) (d : dict A) :
  forall r k b,
    read_all f d = Some r -> In (k, b) r ->
    exists a, In (k, a) d /\ f a = Some b.
Proof.
  induction d as [|[k0 a0] d IH]; intros r k b H Hin; simpl in H.
  - inversion H; subst. destruct Hin.
  - destruct (f a0) as [b0|] eqn:E; [|discriminate H].
    destruct (read_all f d) as [r'|]; [|discriminate H].
    inversion H; subst. destruct Hin as [Hin|Hin].
    + inversion Hin; subst. exists a0. split; [now left | exact E].
    + destruct (IH r' k b eq_refl Hin) as [a [Ha Hf]].
      exists a. split; [now right | exact Hf].
Qed.

Lemma as_details_nodup (v : value) (d : details) :
  as_details v = Some d -> NoDup (keys d).
Proof.
  destruct v as [s| |pairs]; try discriminate. unfold as_details.
  destruct (gather pairs []) as [g|] eqn:E; [|discriminate].
  intros H. rewrite (read_all_keys _ _ _ H).
  exact (gather_nodup pairs [] g (NoDup_nil _) E).
Qed.

Lemma as_store_ok (v : value) (cs : store) :
  as_store v = Some cs -> store_ok cs = true.
Proof.
  destruct v as [s| |pairs]; try discriminate. unfold as_store.
  destruct (gather pairs []) as [g|] eqn:E; [|discriminate].
  intros H. apply store_ok_iff. split.
  - rewrite (read_all_keys _ _ _ H).
    exact (gather_nodup pairs [] g (NoDup_nil _) E).
  - intros k d Hin. destruct (read_all_in _ _ _ _ _ H Hin) as [a [_ Ha]].
    exact (as_details_nodup a d Ha).
Qed.

Lemma loads_store_ok (text : string) (cs : store) :
  loads text = Decoded cs -> store_ok cs = true.
Proof.
  unfold loads.
  destruct (element [] (lex Plain text)) as [v| |]; try discriminate.
  destruct (as_store v) as [s|] eqn:E; [|discriminate].
  intros H. inversion H; subst. exact (as_store_ok v cs E).
Qed.

End DecoderFacts.

(** ** Restarting *)

Lemma perform_keeps_store_ok (o : operation) :
  keeps (fun cs => store_ok cs = true) (perform o).
Proof.
  destruct o; simpl.
  - apply keeps_add_record. intros cs name p e a Hcs _.
    apply store_ok_set; [exact Hcs | apply nodup_keys_new_record].
  - apply keeps_view.
  - apply keeps_search.
  - apply keeps_update_record. intros cs a d p e ad Hcs Hget.
    apply store_ok_set; [exact Hcs|].
    apply nodup_keys_revised. exact (store_ok_get _ _ _ Hcs Hget).
  - apply keeps_delete. intros cs a. apply store_ok_del.
Qed.

Lemma restorable_text (w : world) :
  store_ok (contacts w) = true ->
  disk w = Text (Json.dumps (contacts w)) ->
  restorable w.
Proof.
  intros Hok Hd v Hv. rewrite init_load.
  rewrite (load_text _ (Json.dumps (contacts w))) by (cbn; congruence).
  now rewrite (loads_dumps _ Hok).
Qed.

(** What start-up leaves when it returns: a dictionary, and the one any
    other start on the same file finds. *)
Lemma init_outcome (w w1 : world) :
  ContactBook.init w = Ok tt w1 ->
  store_ok (contacts w1) = true /\ restorable w1 /\ disk w1 = disk w
  /\ write_fault w1 = write_fault w.
Proof.
  rewrite init_load. intros H.
  destruct (disk w) as [|text|e] eqn:Hd.
  - rewrite load_missing in H by exact Hd. inversion H; subst w1.
    split; [reflexivity|]. split; [|cbn; auto].
    intros v Hv. cbn in Hv. rewrite Hd in Hv.
    rewrite init_load, load_missing by exact Hv. reflexivity.
  - rewrite (load_text _ text) in H by exact Hd.
    destruct (Json.loads text) as [cs| |] eqn:Hl; inversion H; subst w1.
    + split; [exact (loads_store_ok _ _ Hl)|]. split; [|cbn; auto].
      intros v Hv. cbn in Hv. rewrite Hd in Hv.
      rewrite init_load, (load_text _ text) by exact Hv. now rewrite Hl.
    + split; [reflexivity|]. split; [|cbn; auto].
      intros v Hv. cbn in Hv. rewrite Hd in Hv.
      rewrite init_load, (load_text _ text) by exact Hv. now rewrite Hl.
  - rewrite (load_unreadable _ e) in H by exact Hd.
    destruct (caught_on_load e) eqn:He; inversion H; subst w1.
    split; [reflexivity|]. split; [|cbn; auto].
    intros v Hv. cbn in Hv. rewrite Hd in Hv.
    rewrite init_load, (load_unreadable _ e) by exact Hv. now rewrite He.
Qed.

Lemma step_durable (o : operation) (w w' : world) :
  store_ok (contacts w) = true ->
  restorable w ->
  perform o w = Ok tt w' ->
  store_ok (contacts w') = true /\ restorable w'.
Proof.
  intros Hok Hres Hrun.
  assert (Hok' : store_ok (contacts w') = true).
  { apply (keeps_final _ (perform o) w w' (perform_keeps_store_ok o) Hok).
    now rewrite Hrun. }
  split; [exact Hok'|].
  pose proof (ending_perform o w) as He. rewrite Hrun in He.
  destruct He as [[Hc [Hd _]]|[_ [Hd _]]].
  - intros v Hv. rewrite Hc. apply Hres. congruence.
  - now apply restorable_text.
Qed.

(** X5. What the program holds in memory is what a restart would find.
    From start-up on, after any sequence of operations that all return,
    a program started afresh on the file as it then is loads exactly
    the book in memory. *)
Theorem session_is_durable (os : list operation) (w w' : world) :
  (ContactBook.init ;; for_each os perform) w = Ok tt w' ->
  restorable w' /\ store_ok (contacts w') = true.
Proof.
  unfold bind at 1.
  destruct (ContactBook.init w) as [[] w0|e w0|] eqn:Hinit; try discriminate.
  destruct (init_outcome _ _ Hinit) as [Hok [Hres _]]. clear Hinit w.
  revert w0 Hok Hres.
  induction os as [|o os IH]; intros w0 Hok Hres H.
  - inversion H; subst. auto.
  - cbn [for_each] in H. unfold bind in H.
    destruct (perform o w0) as [[] w1|e w1|] eqn:Hrun; try discriminate.
    destruct (step_durable o w0 w1 Hok Hres Hrun) as [Hok1 Hres1].
    exact (IH w1 Hok1 Hres1 H).
Qed.

(** X6. Loading and saving again loses nothing.  Whatever file the
    program started on (its own, or one written by hand with other
    spacing, escapes or a repeated key), saving the book just loaded
    writes a file from which a fresh start loads the same book. *)
Theorem load_then_save_is_stable (w w1 : world) :
  ContactBook.init w = Ok tt w1 ->
  write_fault w = None ->
  exists w2,
    ContactBook.save_contacts w1 = Ok tt w2
    /\ contacts w2 = contacts w1
    /\ disk w2 = Text (Json.dumps (contacts w1))
    /\ restorable w2.
Proof.
  intros Hinit Hwf.
  destruct (init_outcome _ _ Hinit) as [Hok [_ [_ Hwf1]]].
  rewrite Hwf in Hwf1.
  eexists. split; [apply save_written, Hwf1|].
  split; [reflexivity|]. split; [reflexivity|].
  apply restorable_text; [exact Hok | reflexivity].
Qed.

(** ** Complete records *)

Section Clean.
Import ContactBook.

Lemma clean_ret {A} (Q : A -> Prop) (a : A) : Q a -> runs_clean Q (ret a).
Proof. intros H w Hw. cbn. auto. Qed.

Lemma clean_bind {A B} (P : A -> Prop) (Q : B -> Prop)
    (m : M A) (k : A -> M B) :
  runs_clean P m ->
  (forall a, P a -> runs_clean Q (k a)) ->
  runs_clean Q (bind m k).
Proof.
  intros Hm Hk w Hw. unfold bind. specialize (Hm w Hw).
  destruct (m w) as [a w1|e w1|]; [|exact Hm|exact Hm].
  destruct Hm as [Ha [Hw1 Hf]]. specialize (Hk a Ha w1 Hw1).
  destruct (k a w1) as [b w2|e w2|]; [| |exact Hk].
  - destruct Hk as [Hb [Hw2 Hf2]]. repeat split; congruence.
  - destruct Hk as [Hw2 He]. split; [exact Hw2|].
    destruct He as [He|He]; [now left | right; congruence].
Qed.

Lemma clean_get :
  runs_clean (fun cs => records_ok cs = true) get_contacts.
Proof. intros w Hw. cbn. auto. Qed.

Lemma clean_set (cs : store) :
  records_ok cs = true -> runs_clean any (set_contacts cs).
Proof. intros H w Hw. cbn. unfold any. auto. Qed.

Lemma clean_print (s : string) : runs_clean any (print s).
Proof. intros w Hw. cbn. unfold any. auto. Qed.

Lemma clean_input (prompt : string) : runs_clean any (input prompt).
Proof.
  intros w Hw. unfold input, bind, write_stdout. cbn [stdin].
  destruct (stdin w); cbn; unfold any; auto.
Qed.

Lemma clean_save : runs_clean any save_contacts.
Proof.
  intros w Hw. unfold save_contacts, bind, get_contacts, write_file.
  destruct (write_fault w) as [e|] eqn:E; cbn; unfold any; auto.
Qed.

Lemma clean_getitem {V} (d : dict V) (key : string) :
  In key (keys d) -> runs_clean (fun v => get key d = Some v) (getitem d key).
Proof.
  intros Hin w Hw. unfold getitem.
  destruct (in_keys_get _ _ Hin) as [v Hv]. rewrite Hv. cbn. auto.
Qed.

Lemma clean_for_each {A} (xs : list A) (body : A -> M unit) :
  (forall x, In x xs -> runs_clean any (body x)) ->
  runs_clean any (for_each xs body).
Proof.
  induction xs as [|x xs IH]; intros Hb; simpl.
  - now apply clean_ret.
  - apply (clean_bind any); [apply Hb; now left | intros _ _].
    apply IH. intros y Hy. apply Hb. now right.
Qed.

Lemma record_ok_keys (d : details) :
  record_ok d = true ->
  In "phone" (keys d) /\ In "email" (keys d) /\ In "address" (keys d).
Proof.
  unfold record_ok.
  destruct (get "phone" d) eqn:E1; [|discriminate].
  destruct (get "email" d) eqn:E2; [|discriminate].
  destruct (get "address" d) eqn:E3; [|discriminate].
  intros _. repeat split; eapply get_some_in; eassumption.
Qed.

Lemma records_ok_in (cs : store) (item : string * details) :
  records_ok cs = true -> In item cs -> record_ok (snd item) = true.
Proof.
  unfold records_ok. rewrite forallb_forall. intros H Hin. exact (H _ Hin).
Qed.

Lemma records_ok_get (cs : store) (a : string) (d : details) :
  records_ok cs = true -> get a cs = Some d -> record_ok d = true.
Proof.
  intros H Hget. exact (records_ok_in cs (a, d) H (get_in_items _ _ _ Hget)).
Qed.

Lemma records_ok_set (cs : store) (k : string) (d : details) :
  records_ok cs = true -> record_ok d = true ->
  records_ok (set k d cs) = true.
Proof.
  unfold records_ok. rewrite !forallb_forall. intros H Hd x Hx.
  destruct (in_set_items _ _ _ _ Hx) as [->|Hin]; [exact Hd | exact (H _ Hin)].
Qed.

Lemma records_ok_del (cs : store) (k : string) :
  records_ok cs = true -> records_ok (del k cs) = true.
Proof.
  unfold records_ok. rewrite !forallb_forall. intros H x Hx.
  exact (H _ (in_del_items _ _ _ Hx)).
Qed.

Lemma record_ok_set (k v : string) (d : details) :
  record_ok d = true -> record_ok (set k v d) = true.
Proof.
  intros H. destruct (record_ok_keys d H) as [H1 [H2 H3]].
  assert (Hin : forall key, In key (keys d) ->
                  exists x, get key (set k v d) = Some x).
  { intros key Hkey. destruct (String.eqb_spec k key) as [->|Hne].
    - exists v. apply get_set_same.
    - rewrite (get_set_other _ _ _ _ Hne). now apply in_keys_get. }
  unfold record_ok.
  destruct (Hin _ H1) as [x1 ->], (Hin _ H2) as [x2 ->], (Hin _ H3) as [x3 ->].
  reflexivity.
Qed.

Lemma record_ok_revised (p e ad : string) (d : details) :
  record_ok d = true -> record_ok (revised p e ad d) = true.
Proof.
  intros H. unfold revised.
  destruct (Str.is_empty p), (Str.is_empty e), (Str.is_empty ad);
    repeat apply record_ok_set; exact H.
Qed.

Lemma clean_print_row (item : string * details) :
  record_ok (snd item) = true -> runs_clean any (print_row item).
Proof.
  destruct item as [name d]. cbn [snd]. intros H.
  destruct (record_ok_keys d H) as [H1 [H2 H3]]. unfold print_row.
  eapply clean_bind; [apply clean_getitem, H1 | intros phone _].
  eapply clean_bind; [apply clean_getitem, H2 | intros email _].
  eapply clean_bind; [apply clean_getitem, H3 | intros address _].
  apply clean_print.
Qed.

Lemma clean_rows (items : store) :
  records_ok items = true -> runs_clean any (for_each items print_row).
Proof.
  intros H. apply clean_for_each. intros x Hx.
  apply clean_print_row. exact (records_ok_in _ _ H Hx).
Qed.

Lemma clean_is_match (query : string) (item : string * details) :
  record_ok (snd item) = true -> runs_clean any (is_match query item).
Proof.
  destruct item as [name d]. cbn [snd]. intros H.
  destruct (record_ok_keys d H) as [H1 [H2 _]]. unfold is_match.
  destruct (Str.contains query (Str.lower name)); [now apply clean_ret|].
  eapply clean_bind; [apply clean_getitem, H1 | intros phone _].
  destruct (Str.contains query phone); [now apply clean_ret|].
  eapply clean_bind; [apply clean_getitem, H2 | intros email _].
  now apply clean_ret.
Qed.

Lemma clean_collect_matches (query : string) (items : store) :
  records_ok items = true ->
  runs_clean (fun found => records_ok found = true)
    (collect_matches query items).
Proof.
  induction items as [|item items IH]; simpl.
  - intros _. now apply clean_ret.
  - rewrite andb_true_iff. intros [Hitem Hitems].
    eapply clean_bind; [apply clean_is_match, Hitem | intros hit _].
    eapply clean_bind; [apply IH, Hitems | intros more Hmore].
    apply clean_ret. destruct hit; [|exact Hmore].
    simpl. now rewrite Hitem, Hmore.
Qed.

Ltac clean_steps :=
  repeat first
    [ apply clean_print | apply clean_input | apply clean_save
    | eapply clean_bind;
      [ first [ apply clean_print | apply clean_input | apply clean_save ]
      | intros ? _ ] ].

Ltac clean_branch :=
  cbv zeta;
  match goal with
  | |- runs_clean _ (if ?c then _ else _) => destruct c eqn:?
  end.

Lemma clean_view : runs_clean any view_contacts.
Proof.
  unfold view_contacts.
  eapply clean_bind; [apply clean_get | intros cs Hcs].
  clean_branch; clean_steps.
  eapply clean_bind; [|intros ? _; apply clean_print].
  apply clean_rows.
  exact (records_ok_perm _ _ (Permutation_sym (sorted_perm cs)) Hcs).
Qed.

Lemma clean_search : runs_clean any search_contact.
Proof.
  unfold search_contact.
  eapply clean_bind; [apply clean_get | intros cs Hcs].
  clean_branch; clean_steps. clean_branch; clean_steps.
  eapply clean_bind; [apply clean_collect_matches, Hcs | intros found Hfound].
  clean_branch; clean_steps. now apply clean_rows.
Qed.

Lemma clean_add : runs_clean any add_contact.
Proof.
  unfold add_contact. clean_steps.
  clean_branch; clean_steps.
  eapply clean_bind; [apply clean_get | intros cs Hcs].
  clean_branch; clean_steps. clean_branch; clean_steps.
  eapply clean_bind; [|intros ? _; clean_steps].
  apply clean_set, records_ok_set; [exact Hcs | reflexivity].
Qed.

Lemma clean_lookup (cs : store) (name : string) (A : Type) (Q : A -> Prop)
    (k : details -> M A) :
  records_ok cs = true ->
  falsy (find_actual_name name (keys cs)) = false ->
  (forall d, get (the (find_actual_name name (keys cs))) cs = Some d ->
             record_ok d = true -> runs_clean Q (k d)) ->
  runs_clean Q (bind (getitem cs (the (find_actual_name name (keys cs)))) k).
Proof.
  intros Hcs Hf Hk.
  destruct (find_actual_name name (keys cs)) as [a|] eqn:Hfind;
    [|discriminate Hf].
  cbn [the] in *. destruct (find_some _ _ _ Hfind) as [Hin _].
  eapply clean_bind; [apply clean_getitem, Hin | intros d Hd].
  apply Hk; [exact Hd | exact (records_ok_get _ _ _ Hcs Hd)].
Qed.

Lemma clean_update : runs_clean any update_contact.
Proof.
  unfold update_contact.
  eapply clean_bind; [apply clean_get | intros cs Hcs].
  clean_branch; clean_steps. clean_branch; clean_steps.
  apply clean_lookup; [exact Hcs | assumption | intros d Hget Hd].
  destruct (record_ok_keys d Hd) as [H1 [H2 H3]].
  eapply clean_bind; [apply clean_getitem, H1 | intros phone _].
  clean_steps.
  eapply clean_bind; [apply clean_getitem, H2 | intros email _].
  clean_steps.
  eapply clean_bind; [apply clean_getitem, H3 | intros address _].
  clean_steps.
  eapply clean_bind; [|intros ? _; clean_steps].
  apply clean_set, records_ok_set; [exact Hcs|].
  match goal with
  | |- record_ok (if Str.is_empty ?x then _ else _) = true =>
      match goal with
      | |- context [set "email" ?y] =>
          match goal with
          | |- context [set "phone" ?z] =>
              change (record_ok (revised z y x d) = true)
          end
      end
  end.
  now apply record_ok_revised.
Qed.

Lemma clean_delete : runs_clean any delete_contact.
Proof.
  unfold delete_contact.
  eapply clean_bind; [apply clean_get | intros cs Hcs].
  clean_branch; clean_steps. clean_branch; clean_steps.
  apply clean_lookup; [exact Hcs | assumption | intros d Hget Hd].
  destruct (record_ok_keys d Hd) as [H1 [H2 H3]].
  clean_steps.
  eapply clean_bind; [apply clean_getitem, H1 | intros phone _].
  clean_steps.
  eapply clean_bind; [apply clean_getitem, H2 | intros email _].
  clean_steps.
  eapply clean_bind; [apply clean_getitem, H3 | intros address _].
  clean_steps.
  clean_branch; clean_steps.
  eapply clean_bind; [|intros ? _; clean_steps].
  apply clean_set, records_ok_del, Hcs.
Qed.

Lemma clean_perform (o : operation) : runs_clean any (perform o).
Proof.
  destruct o; simpl;
    [apply clean_add | apply clean_view | apply clean_search
     | apply clean_update | apply clean_delete].
Qed.

End Clean.

(** X7. A book of complete records never makes an operation fail.  When
    every contact has a phone, an email and an address, each of the five
    operations returns, or raises for one of two reasons only: standard
    input ended (EOFError), or the file could not be opened for writing;
    no field is ever found missing (KeyError).  The records it leaves
    are complete again. *)
Theorem complete_records_never_fail (o : operation) (w : world) :
  records_ok (contacts w) = true ->
  match perform o w with
  | Ok _ w' => records_ok (contacts w') = true
  | Raise e w' =>
      records_ok (contacts w') = true
      /\ (e = EOFError \/ write_fault w = Some e)
  | Untyped => False
  end.
Proof.
  intros Hw. pose proof (clean_perform o w Hw) as H.
  destruct (perform o w) as [a w'|e w'|]; tauto.
Qed.

(** ** A contact without a field *)

Section Incomplete.
Import ContactBook.

Lemma print_row_fails (item : string * details) (w : world) :
  record_ok (snd item) = false ->
  exists key, field_name key /\ print_row item w = Raise (KeyError key) w.
Proof.
  destruct item as [name d]. unfold record_ok, field_name. cbn [snd].
  unfold print_row, bind, getitem.
  destruct (get "phone" d); [|intros _; exists "phone"; auto].
  destruct (get "email" d); [|intros _; exists "email"; auto].
  destruct (get "address" d); [discriminate|].
  intros _; exists "address"; auto.
Qed.

Lemma rows_fail (items : store) (w : world) :
  records_ok items = false ->
  exists key w',
    field_name key /\ for_each items print_row w = Raise (KeyError key) w'.
Proof.
  revert w. induction items as [|item items IH]; intros w; simpl;
    [discriminate|].
  unfold bind. destruct (record_ok (snd item)) eqn:Hitem; simpl; intros H.
  - rewrite (print_row_ok _ _ Hitem). exact (IH _ H).
  - destruct (print_row_fails item w Hitem) as [key [Hkey ->]].
    exists key, w. auto.
Qed.

End Incomplete.

(** X8. One contact without a phone, an email or an address breaks the
    listing.  (Such a book comes from a file written by hand.)
    [view_contacts] then raises KeyError for one of the three fields;
    book and file are as before. *)
Theorem view_fails_on_incomplete_record (w : world) :
  records_ok (contacts w) = false ->
  exists key w',
    ContactBook.view_contacts w = Raise (KeyError key) w'
    /\ field_name key
    /\ untouched w w'.
Proof.
  intros H.
  assert (Hs : records_ok (sorted (contacts w)) = false).
  { destruct (records_ok (sorted (contacts w))) eqn:E; [|reflexivity].
    rewrite <- H. symmetry.
    exact (records_ok_perm _ _ (sorted_perm (contacts w)) E). }
  assert (Hview : exists key w',
             field_name key
             /\ ContactBook.view_contacts w = Raise (KeyError key) w').
  { destruct w as [cs dk wf inp out wr]. cbn [contacts] in *.
    destruct cs as [|c cs]; [discriminate H|].
    unfold ContactBook.view_contacts. exec. cbn [is_empty].
    match goal with
    | |- context [for_each _ _ ?v] =>
        destruct (rows_fail _ v Hs) as [key [w' [Hkey ->]]]
    end.
    exists key, w'. auto. }
  destruct Hview as [key [w' [Hkey Hrun]]]. exists key, w'.
  split; [exact Hrun|]. split; [exact Hkey|].
  apply (stays_final untouched ContactBook.view_contacts w w').
  - apply stays_view;
      [apply untouched_refl | apply untouched_trans | apply untouched_out].
  - now rewrite Hrun.
Qed.

Lemma view_fails_on_incomplete_record_witness :
  let w := mkWorld [("Ann", [("phone", "1"); ("email", "a@x")])]
             Missing None [] [] [] in
  records_ok (contacts w) = false
  /\ exists key w',
       ContactBook.view_contacts w = Raise (KeyError key) w'
       /\ field_name key /\ untouched w w'.
Proof.
  intros w. split; [reflexivity|].
  apply (view_fails_on_incomplete_record w). reflexivity.
Defined.

Lemma complete_records_never_fail_witness :
  let w := mkWorld [("Ann", new_record "1" "a@x" "Rome")]
             Missing None [] [] [] in
  records_ok (contacts w) = true
  /\ match perform View w with
     | Ok _ w' => records_ok (contacts w') = true
     | Raise e w' =>
         records_ok (contacts w') = true
         /\ (e = EOFError \/ write_fault w = Some e)
     | Untyped => False
     end.
Proof.
  intros w. split; [reflexivity|].
  apply (complete_records_never_fail View w). reflexivity.
Defined.

(** ** The order of the listing *)

Section ListingOrder.
Import ContactBook.

Lemma sorted_unique {V} (l l' : list (string * V)) :
  StronglySorted name_le l -> StronglySorted name_le l' ->
  Permutation l l' -> NoDup (keys l) -> l = l'.
Proof.
  revert l'. induction l as [|x t IH]; intros l' Hl Hl' Hp Hnd.
  - now apply Permutation_nil in Hp.
  - destruct l' as [|y t'];
      [apply Permutation_sym, Permutation_nil in Hp; discriminate|].
    inversion Hl as [|? ? Ht Hx]; subst.
    inversion Hl' as [|? ? Ht' Hy]; subst.
    cbn [keys map] in Hnd. inversion Hnd as [|? ? Hfresh Hndt]; subst.
    assert (E : x = y).
    { assert (Hxin : In x (y :: t'))
        by (eapply Permutation_in; [exact Hp | now left]).
      assert (Hyin : In y (x :: t))
        by (eapply Permutation_in; [apply Permutation_sym, Hp | now left]).
      destruct Hxin as [E|Hxin]; [now symmetry|].
      destruct Hyin as [E|Hyin]; [assumption|]. exfalso.
      rewrite Forall_forall in Hx, Hy.
      pose proof (String.leb_antisym _ _ (Hx _ Hyin) (Hy _ Hxin)) as Hk.
      apply Hfresh. rewrite Hk. now apply in_map. }
    subst y. f_equal. apply IH; try assumption.
    now apply Permutation_cons_inv in Hp.
Qed.

Lemma sorted_of_perm {V} (l l' : list (string * V)) :
  Permutation l l' -> NoDup (keys l) -> sorted l = sorted l'.
Proof.
  intros Hp Hnd. apply sorted_unique; try apply sorted_ordered.
  - eapply perm_trans; [apply sorted_perm|].
    eapply perm_trans; [exact Hp | apply Permutation_sym, sorted_perm].
  - eapply Permutation_NoDup; [|exact Hnd].
    unfold keys. apply Permutation_map, Permutation_sym, sorted_perm.
Qed.

End ListingOrder.

(** X9. The listing does not depend on the order in which the contacts
    were added.  Two books with the same complete contacts, entered in
    whatever order, are listed by [view_contacts] with the very same
    lines. *)
Theorem listing_ignores_insertion_order (w v : world) :
  Permutation (contacts w) (contacts v) ->
  NoDup (keys (contacts w)) ->
  records_ok (contacts w) = true ->
  exists lines,
    ContactBook.view_contacts w = Ok tt (saying lines w)
    /\ ContactBook.view_contacts v = Ok tt (saying lines v).
Proof.
  intros Hp Hnd Hok.
  pose proof (records_ok_perm _ _ Hp Hok) as Hok'.
  destruct (contacts w) as [|c cs] eqn:Hw.
  - apply Permutation_nil in Hp.
    eexists. split; [apply view_empty, Hw | apply view_empty, Hp].
  - assert (Hv : contacts v <> []).
    { intros E. rewrite E in Hp.
      apply Permutation_sym, Permutation_nil in Hp. discriminate. }
    eexists. split.
    + rewrite view_listing; [reflexivity | congruence | congruence].
    + rewrite (view_listing v Hv Hok').
      rewrite <- (sorted_of_perm _ _ Hp Hnd), <- (Permutation_length Hp).
      now rewrite Hw.
Qed.

Lemma listing_ignores_insertion_order_witness :
  let ann := ("Ann", new_record "1" "a@x" "Rome") in
  let bob := ("Bob", new_record "2" "b@x" "Oslo") in
  let w := mkWorld [ann; bob] Missing None [] [] [] in
  let v := mkWorld [bob; ann] Missing None [] [] [] in
  exists lines,
    ContactBook.view_contacts w = Ok tt (saying lines w)
    /\ ContactBook.view_contacts v = Ok tt (saying lines v).
Proof.
  intros ann bob w v. apply (listing_ignores_insertion_order w v).
  - apply perm_swap.
  - cbn. repeat constructor; cbn; intuition discriminate.
  - reflexivity.
Defined.

(** ** The contacts an operation leaves alone *)

Section Frame.
Import ContactBook.

Lemma frame_view_search (o : operation) (w w' : world) :
  o = View \/ o = Search ->
  final (perform o w) = Some w' -> contacts w' = contacts w.
Proof.
  intros Ho Hf.
  apply (stays_final (fun w w' => contacts w' = contacts w) (perform o) w w');
    [|exact Hf].
  destruct Ho as [->| ->]; simpl.
  - apply stays_view; [reflexivity | intros; congruence | reflexivity].
  - apply stays_search;
      [reflexivity | intros; congruence | reflexivity | reflexivity].
Qed.

Lemma frame_add (w w' : world) (k : string) :
  final (add_contact w) = Some w' ->
  ~ same_name k (Str.strip (hd "" (stdin w))) ->
  get k (contacts w') = get k (contacts w).
Proof.
  intros Hf Hk. destruct w as [cs dk wf inp out wr].
  unfold add_contact in Hf. explore Hf;
    inversion Hf; subst w'; cbn [contacts stdin hd] in *; try reflexivity;
    apply get_set_other; intros E; apply Hk; now rewrite E.
Qed.

Lemma frame_update (w w' : world) (k : string) :
  final (update_contact w) = Some w' ->
  ~ same_name k (Str.strip (hd "" (stdin w))) ->
  get k (contacts w') = get k (contacts w).
Proof.
  intros Hf Hk. destruct w as [cs dk wf inp out wr].
  unfold update_contact in Hf. explore Hf;
    inversion Hf; subst w'; cbn [contacts stdin hd] in *; try reflexivity;
    match goal with
    | H : falsy (find_actual_name ?n ?ks) = false |- _ =>
        destruct (find_actual_name n ks) as [a|] eqn:Hfind;
          [|rewrite ?Hfind in H; discriminate H]
    end;
    cbn [the]; apply find_some in Hfind; destruct Hfind as [_ Hsame];
    apply get_set_other; intros E; apply Hk; now rewrite <- E.
Qed.

Lemma frame_delete (w w' : world) (k : string) :
  final (delete_contact w) = Some w' ->
  ~ same_name k (Str.strip (hd "" (stdin w))) ->
  get k (contacts w') = get k (contacts w).
Proof.
  intros Hf Hk. destruct w as [cs dk wf inp out wr].
  unfold delete_contact in Hf. explore Hf;
    inversion Hf; subst w'; cbn [contacts stdin hd] in *; try reflexivity;
    match goal with
    | H : falsy (find_actual_name ?n ?ks) = false |- _ =>
        destruct (find_actual_name n ks) as [a|] eqn:Hfind;
          [|rewrite ?Hfind in H; discriminate H]
    end;
    cbn [the]; apply find_some in Hfind; destruct Hfind as [_ Hsame];
    apply get_del_other; intros E; apply Hk; now rewrite <- E.
Qed.

End Frame.

(** X10. An operation changes no contact but the one it was asked
    about.  The name an operation works on is its first line of input,
    trimmed; whatever the operation and however it ends, every contact
    whose name is another one (also when letter case is ignored) has
    afterwards the details it had before. *)
Theorem other_contacts_untouched (o : operation) (w w' : world) (k : string) :
  final (perform o w) = Some w' ->
  ~ same_name k (Str.strip (hd "" (stdin w))) ->
  get k (contacts w') = get k (contacts w).
Proof.
  intros Hf Hk. destruct o.
  - exact (frame_add w w' k Hf Hk).
  - now rewrite (frame_view_search View w w' (or_introl eq_refl) Hf).
  - now rewrite (frame_view_search Search w w' (or_intror eq_refl) Hf).
  - exact (frame_update w w' k Hf Hk).
  - exact (frame_delete w w' k Hf Hk).
Qed.

(** ** Leaving the program *)

Section Leaving.
Import ContactBook.

Lemma settled_untouched (w w' : world) :
  untouched w w' -> settled w -> settled w'.
Proof.
  intros [Hc [Hd _]] [Hok Hres]. split; [congruence|].
  intros v Hv. rewrite Hc. apply Hres. congruence.
Qed.

Lemma quiet_press_enter : stays untouched press_enter.
Proof.
  apply stays_press_enter;
    [apply untouched_refl | apply untouched_trans | apply untouched_out
     | apply untouched_in].
Qed.

(** What came before the pause of a round that went on to it. *)
Lemma then_press_enter (m : M unit) (w0 w' : world) (b : bool) :
  (m ;; press_enter) w0 = Ok b w' ->
  b = true /\ exists w3, m w0 = Ok tt w3 /\ untouched w3 w'.
Proof.
  unfold bind at 1. destruct (m w0) as [[] w3|e w3|]; try discriminate.
  intros H. split.
  - destruct w3 as [cs dk wf inp out wr].
    cbv beta iota zeta delta
      [press_enter bind input write_stdout ret
       contacts disk write_fault stdin stdout written] in H.
    destruct inp; [discriminate H | now inversion H].
  - exists w3. split; [reflexivity|].
    apply (stays_final untouched press_enter w3 w' quiet_press_enter).
    now rewrite H.
Qed.

(** The ways a round of the menu returns, once the choice is read: after
    one operation and the pause, after the complaint about the choice
    and the pause, or by the exit. *)
Lemma dispatch_cases (choice : string) (w0 w' : world) (b : bool) :
  (if (choice =? "1")%string then add_contact ;; press_enter
   else if (choice =? "2")%string then view_contacts ;; press_enter
   else if (choice =? "3")%string then search_contact ;; press_enter
   else if (choice =? "4")%string then update_contact ;; press_enter
   else if (choice =? "5")%string then delete_contact ;; press_enter
   else if (choice =? "6")%string then
     print (Str.nl ++ "Thank you for using Contact Book Manager!") ;;
     print "All contacts have been saved automatically." ;;
     ret false
   else
     print "ERROR: Invalid choice! Please select 1-6." ;;
     press_enter) w0 = Ok b w' ->
  (b = true
   /\ exists w3,
        untouched w3 w'
        /\ (untouched w0 w3 \/ exists o, perform o w0 = Ok tt w3))
  \/ (b = false /\ choice = "6" /\ untouched w0 w'
      /\ stdin w' = stdin w0
      /\ stdout w' = (stdout w0 ++ farewell)%list).
Proof.
  assert (Hop : forall o,
             (perform o ;; press_enter) w0 = Ok b w' ->
             b = true
             /\ exists w3,
                  untouched w3 w'
                  /\ (untouched w0 w3 \/ exists o, perform o w0 = Ok tt w3)).
  { intros o H. destruct (then_press_enter _ _ _ _ H) as [Hb [w3 [Hm Hu]]].
    split; [exact Hb|]. exists w3. split; [exact Hu|]. right. now exists o. }
  destruct (choice =? "1")%string; [intros H; left; exact (Hop Add H)|].
  destruct (choice =? "2")%string; [intros H; left; exact (Hop View H)|].
  destruct (choice =? "3")%string; [intros H; left; exact (Hop Search H)|].
  destruct (choice =? "4")%string; [intros H; left; exact (Hop Update H)|].
  destruct (choice =? "5")%string; [intros H; left; exact (Hop Delete H)|].
  destruct (String.eqb_spec choice "6") as [E|_]; intros H.
  - right. unfold bind, print, write_stdout, ret in H.
    cbn [contacts disk write_fault stdin stdout written] in H.
    inversion H; subst b w'. split; [reflexivity|]. split; [exact E|].
    unfold untouched, farewell, line.
    cbn [contacts disk write_fault stdin stdout written].
    rewrite <- app_assoc. cbn [app]. auto.
  - left. destruct (then_press_enter _ _ _ _ H) as [Hb [w3 [Hm Hu]]].
    split; [exact Hb|]. exists w3. split; [exact Hu|]. left.
    eapply (stays_final untouched); [apply quiet_print|]. now rewrite Hm.
Qed.

(** A round that returns has read its choice: the first line waiting. *)
Lemma menu_round_cases (w w' : world) (b : bool) :
  menu_round w = Ok b w' ->
  exists l w0,
    stdin w = l :: stdin w0
    /\ untouched w w0
    /\ ((b = true
         /\ exists w3,
              untouched w3 w'
              /\ (untouched w0 w3 \/ exists o, perform o w0 = Ok tt w3))
        \/ (b = false /\ Str.strip l = "6" /\ untouched w0 w'
            /\ stdin w' = stdin w0
            /\ stdout w' = (stdout w0 ++ farewell)%list)).
Proof.
  unfold menu_round. unfold bind at 1.
  pose proof (stays_display_menu (fun w w' => stdin w' = stdin w)
                ltac:(intros; congruence) ltac:(intros; reflexivity) w) as Hs.
  pose proof (stays_display_menu untouched untouched_trans untouched_out w)
    as Hu.
  destruct (display_menu w) as [[] w1|e w1|]; try discriminate.
  unfold bind at 1, input at 1, bind at 1. unfold write_stdout at 1.
  cbn [stdin].
  destruct (stdin w1) as [|l rest] eqn:E; [discriminate|].
  cbv zeta. intros H. apply dispatch_cases in H.
  match type of H with
  | context [untouched ?v w'] =>
      match v with
      | mkWorld _ _ _ _ _ _ => exists l, v
      end
  end.
  cbn [stdin]. split; [congruence|]. split; [|exact H].
  destruct Hu as [Hc [Hd [Hf Hw]]]. unfold untouched. cbn. auto.
Qed.

Lemma menu_round_settled (w w' : world) (b : bool) :
  settled w -> menu_round w = Ok b w' -> settled w'.
Proof.
  intros Hw H.
  destruct (menu_round_cases _ _ _ H) as [l [w0 [_ [Hu0 Hcase]]]].
  pose proof (settled_untouched _ _ Hu0 Hw) as Hw0.
  destruct Hcase as [[_ [w3 [Hu3 Hmid]]]|[_ [_ [Hu _]]]].
  - apply (settled_untouched _ _ Hu3).
    destruct Hmid as [Hu|[o Ho]]; [exact (settled_untouched _ _ Hu Hw0)|].
    destruct Hw0 as [Hok Hres].
    destruct (step_durable o w0 w3 Hok Hres Ho). now split.
  - exact (settled_untouched _ _ Hu Hw0).
Qed.

Lemma loops_settled (w : world) (r : result unit) :
  loops w r -> settled w -> forall w', r = Ok tt w' -> settled w'.
Proof.
  induction 1 as [w w1 E|w w1 e E|w w1 r E _ IH]; intros Hw w' Hr.
  - inversion Hr; subst. exact (menu_round_settled _ _ _ Hw E).
  - discriminate Hr.
  - exact (IH (menu_round_settled _ _ _ Hw E) w' Hr).
Qed.

(** A loop that returns has come to a line that is the choice 6. *)
Lemma loops_exit (w : world) (r : result unit) :
  loops w r ->
  forall w', r = Ok tt w' ->
  exists before l after,
    stdin w = (before ++ l :: after)%list
    /\ Str.strip l = "6"
    /\ stdin w' = after
    /\ exists out, stdout w' = (out ++ farewell)%list.
Proof.
  induction 1 as [w w1 E|w w1 e E|w w1 r E _ IH]; intros w' Hr.
  - inversion Hr; subst w1. clear Hr.
    destruct (menu_round_cases _ _ _ E) as [l [w0 [Hin [_ Hcase]]]].
    destruct Hcase as [[Hb _]|[_ [H6 [_ [Hrest Hout]]]]]; [discriminate|].
    exists [], l, (stdin w'). cbn [app].
    split; [congruence|]. split; [exact H6|]. split; [reflexivity|].
    now exists (stdout w0).
  - discriminate Hr.
  - destruct (IH w' Hr) as [before [l [after [Hin [H6 [Hrest Hout]]]]]].
    pose proof (stays_menu_round
                  (fun w w' => exists pre, stdin w = (pre ++ stdin w')%list))
      as Hsuffix.
    specialize (Hsuffix
      ltac:(intros; now exists [])
      ltac:(intros ? ? ? [p1 H1] [p2 H2]; exists (p1 ++ p2)%list;
            rewrite H1, H2; apply app_assoc)
      ltac:(intros; now exists [])
      ltac:(intros ? line ? Hl; exists [line]; exact Hl)
      ltac:(intros; now exists [])
      ltac:(intros; now exists [])
      w).
    rewrite E in Hsuffix. destruct Hsuffix as [pre Hpre].
    exists (pre ++ before)%list, l, after.
    split; [rewrite Hpre, Hin; apply app_assoc|]. auto.
Qed.

End Leaving.

(** X11. The farewell tells the truth.  When the program, started on
    any file, leaves by the exit of the menu, what it last printed is
    the farewell with its line that all contacts have been saved; and
    they have: a program started afresh on the file loads exactly the
    book the session ended with. *)
Theorem exit_means_saved (w w' : world) :
  ContactBook.main w (Ok tt w') ->
  restorable w'
  /\ exists out, stdout w' = (out ++ farewell)%list.
Proof.
  unfold ContactBook.main.
  destruct (ContactBook.init w) as [[] w0|e w0|] eqn:Hinit;
    [|discriminate|discriminate].
  intros [w1 [Hprint Hloops]].
  destruct (init_outcome _ _ Hinit) as [Hok [Hres _]].
  assert (Hw1 : settled w1).
  { apply (settled_untouched w0); [|now split].
    eapply (stays_final untouched); [apply quiet_print|]. now rewrite Hprint. }
  split.
  - exact (proj2 (loops_settled _ _ Hloops Hw1 w' eq_refl)).
  - destruct (loops_exit _ _ Hloops w' eq_refl) as [_ [_ [_ [_ [_ [_ H]]]]]].
    exact H.
Qed.

(** X12. The menu loop is left in one way only.  [run] returns only
    when some line of its input, read as a menu choice, is 6 once
    trimmed; the lines after it stay unread. *)
Theorem run_returns_on_exit_only (w w' : world) :
  ContactBook.run w (Ok tt w') ->
  exists before l,
    stdin w = (before ++ l :: stdin w')%list /\ Str.strip l = "6".
Proof.
  intros [w1 [Hprint Hloops]].
  destruct (loops_exit _ _ Hloops w' eq_refl)
    as [before [l [after [Hin [H6 [Hrest _]]]]]].
  exists before, l. split; [|exact H6].
  unfold print, write_stdout in Hprint. inversion Hprint; subst w1.
  cbn [stdin] in Hin. congruence.
Qed.

(** ** Adding, then deleting *)

Section Undo.
Import ContactBook.

Lemma del_last_fresh {V} (d : dict V) (k : string) (v : V) :
  ~ In k (keys d) -> del k (d ++ [(k, v)])%list = d.
Proof.
  induction d as [|[k' v'] d IH]; simpl; intros H.
  - now rewrite String.eqb_refl.
  - destruct (String.eqb_spec k' k) as [->|Hne]; [exfalso; auto|].
    rewrite IH; [reflexivity | tauto].
Qed.

Lemma find_last (typed name : string) (ks : list string) :
  same_name typed name ->
  (~ exists k, In k ks /\ same_name k name) ->
  find_actual_name typed (ks ++ [name]) = Some name.
Proof.
  intros Hsame Hfree. rewrite find_app.
  - simpl. unfold same_name in Hsame. rewrite Hsame.
    now rewrite String.eqb_refl.
  - apply find_none. intros [k [Hin Hk]]. apply Hfree. exists k.
    split; [exact Hin|]. unfold same_name in *. congruence.
Qed.

End Undo.

(** X13. Deleting undoes adding.  A contact just added under a free
    name, then deleted under that name in any letter case and with the
    deletion confirmed, leaves the book exactly as it was before the
    two calls, every contact in its place, and the file holds that
    book. *)
Theorem delete_undoes_add (w : world) (l1 l2 l3 l4 l5 l6 : string)
    (rest : list string) :
  stdin w = l1 :: l2 :: l3 :: l4 :: l5 :: l6 :: rest ->
  Str.strip l1 <> "" ->
  ~ name_taken (Str.strip l1) (contacts w) ->
  Str.strip l2 <> "" ->
  same_name (Str.strip l5) (Str.strip l1) ->
  Str.lower (Str.strip l6) = "y" \/ Str.lower (Str.strip l6) = "yes" ->
  write_fault w = None ->
  exists w1 w2,
    ContactBook.add_contact w = Ok tt w1
    /\ ContactBook.delete_contact w1 = Ok tt w2
    /\ contacts w2 = contacts w
    /\ disk w2 = Text (Json.dumps (contacts w))
    /\ stdin w2 = rest.
Proof.
  intros Hin Hname Hfree Hphone Hsame Hyes Hwf.
  pose proof (free_name_fresh _ _ Hfree) as Hfresh.
  eexists. eexists. split;
    [exact (add_saved w l1 l2 l3 l4 _ Hin Hname Hfree Hphone Hwf)|].
  rewrite (set_fresh _ _ _ Hfresh).
  match goal with
  | |- ContactBook.delete_contact ?w1 = _ /\ _ =>
      assert (Hdel := delete_saved w1 l5)
  end.
  cbn [contacts stdin write_fault] in Hdel.
  specialize (Hdel ltac:(now destruct (contacts w)) l6 rest (Str.strip l1)
                (new_record (Str.strip l2) (Str.strip l3) (Str.strip l4))
                eq_refl).
  rewrite (del_last_fresh _ _ _ Hfresh) in Hdel.
  split.
  - apply Hdel.
    + unfold keys. rewrite map_app. apply find_last; assumption.
    + exact Hname.
    + rewrite <- (set_fresh _ _ _ Hfresh). apply get_set_same.
    + reflexivity.
    + now apply confirmed_iff.
    + reflexivity.
  - cbn. auto.
Qed.

Lemma delete_undoes_add_witness :
  let w := mkWorld [("Bob", new_record "2" "b@x" "Oslo")] Missing None
             ["Ann"; "1"; "a@x"; "Rome"; " ANN "; "Yes"] [] [] in
  exists w1 w2,
    ContactBook.add_contact w = Ok tt w1
    /\ ContactBook.delete_contact w1 = Ok tt w2
    /\ contacts w2 = contacts w
    /\ disk w2 = Text (Json.dumps (contacts w))
    /\ stdin w2 = [].
Proof.
  intros w.
  apply (delete_undoes_add w "Ann" "1" "a@x" "Rome" " ANN " "Yes" []).
  - reflexivity.
  - discriminate.
  - intros [k [[E|[]] Hk]]. subst k. discriminate Hk.
  - discriminate.
  - reflexivity.
  - right. reflexivity.
  - reflexivity.
Defined.

(** ** The empty name *)

(** X14. No operation reaches a contact stored under the empty name.
    (Only a file written by hand holds one: [add_contact] refuses the
    name.)  A blank line typed to [update_contact] or [delete_contact]
    does find it, but the test [not actual_name] takes the empty name
    found for no name at all; so whatever is typed, and however the
    operation ends, what the book holds under the empty name is as
    before. *)
Theorem empty_name_is_out_of_reach (o : operation) (w w' : world) :
  final (perform o w) = Some w' ->
  get "" (contacts w') = get "" (contacts w).
Proof.
  intros Hf. destruct o.
  - destruct w as [cs dk wf inp out wr]. cbn [perform] in Hf.
    unfold ContactBook.add_contact in Hf. explore Hf;
      inversion Hf; subst w'; cbn [contacts]; try reflexivity;
      apply get_set_other; intros E;
      match goal with
      | H : Str.is_empty (Str.strip ?s) = false |- _ =>
          rewrite E in H; discriminate H
      end.
  - now rewrite (frame_view_search View w w' (or_introl eq_refl) Hf).
  - now rewrite (frame_view_search Search w w' (or_intror eq_refl) Hf).
  - destruct w as [cs dk wf inp out wr]. cbn [perform] in Hf.
    unfold ContactBook.update_contact in Hf. explore Hf;
      inversion Hf; subst w'; cbn [contacts]; try reflexivity;
      match goal with
      | H : ContactBook.falsy (ContactBook.find_actual_name ?n ?ks) = false
        |- _ =>
          destruct (ContactBook.find_actual_name n ks) as [a|];
            [|discriminate H]
      end;
      cbn [ContactBook.falsy ContactBook.the] in *;
      apply get_set_other; intros E; subst a;
      match goal with
      | H : Str.is_empty "" = false |- _ => discriminate H
      end.
  - destruct w as [cs dk wf inp out wr]. cbn [perform] in Hf.
    unfold ContactBook.delete_contact in Hf. explore Hf;
      inversion Hf; subst w'; cbn [contacts]; try reflexivity;
      match goal with
      | H : ContactBook.falsy (ContactBook.find_actual_name ?n ?ks) = false
        |- _ =>
          destruct (ContactBook.find_actual_name n ks) as [a|];
            [|discriminate H]
      end;
      cbn [ContactBook.falsy ContactBook.the] in *;
      apply get_del_other; intros E; subst a;
      match goal with
      | H : Str.is_empty "" = false |- _ => discriminate H
      end.
Qed.

(** ** Instances *)

Lemma add_only_appends_witness :
  let w := mkWorld [("Bob", new_record "2" "b@x" "Oslo")] Missing None
             ["Ann"; "1"; "a@x"; "Rome"] [] [] in
  let w' := match final (ContactBook.add_contact w) with
            | Some x => x
            | None => w
            end in
  contacts w' = contacts w
  \/ exists l1 l2 l3 l4,
       stdin w = l1 :: l2 :: l3 :: l4 :: stdin w'
       /\ Str.strip l1 <> "" /\ Str.strip l2 <> ""
       /\ ~ name_taken (Str.strip l1) (contacts w)
       /\ contacts w'
          = (contacts w
             ++ [(Str.strip l1,
                  new_record (Str.strip l2) (Str.strip l3) (Str.strip l4))])%list.
Proof.
  intros w w'. apply (add_only_appends w w'). vm_compute. reflexivity.
Defined.

Lemma session_is_durable_witness :
  let w := mkWorld [] Missing None
             ["Ann"; "1"; "a@x"; "Rome"; "ann"; "y"] [] [] in
  let w' := match final ((ContactBook.init ;;
                          for_each [Add; View; Delete] perform) w) with
            | Some x => x
            | None => w
            end in
  restorable w' /\ store_ok (contacts w') = true.
Proof.
  intros w w'.
  apply (session_is_durable [Add; View; Delete] w w').
  vm_compute. reflexivity.
Defined.

Lemma load_then_save_is_stable_witness :
  let book := [("Ann", [("phone", "1")]); ("Bob", [])] in
  let w := mkWorld [] (Text (Json.dumps book)) None [] [] [] in
  exists w2,
    ContactBook.save_contacts (with_contacts book w) = Ok tt w2
    /\ contacts w2 = book
    /\ disk w2 = Text (Json.dumps book)
    /\ restorable w2.
Proof.
  intros book w.
  apply (load_then_save_is_stable w (with_contacts book w)).
  - vm_compute. reflexivity.
  - reflexivity.
Defined.

Lemma other_contacts_untouched_witness :
  let w := mkWorld [("Ann", new_record "1" "a@x" "Rome");
                    ("Bob", new_record "2" "b@x" "Oslo")] Missing None
             ["ann"; "yes"] [] [] in
  let w' := match final (perform Delete w) with
            | Some x => x
            | None => w
            end in
  get "Bob" (contacts w') = get "Bob" (contacts w).
Proof.
  intros w w'. apply (other_contacts_untouched Delete w w' "Bob").
  - vm_compute. reflexivity.
  - vm_compute. discriminate.
Defined.

Lemma exit_means_saved_witness :
  let w := mkWorld [] Missing None ["6"] [] [] in
  let w' := match ContactBook.menu_round
                    (saying [line "Welcome to Contact Book Manager!"] w) with
            | Ok _ x => x
            | _ => w
            end in
  restorable w' /\ exists out, stdout w' = (out ++ farewell)%list.
Proof.
  intros w w'. apply (exit_means_saved w w').
  unfold ContactBook.main.
  assert (E : ContactBook.init w = Ok tt w) by reflexivity.
  rewrite E.
  exists (saying [line "Welcome to Contact Book Manager!"] w).
  split; [reflexivity|].
  apply ContactBook.loops_break. subst w'. vm_compute. reflexivity.
Defined.

Lemma run_returns_on_exit_only_witness :
  let w := mkWorld [] Missing None ["9"; ""; " 6 "; "1"] [] [] in
  let w1 := saying [line "Welcome to Contact Book Manager!"] w in
  let w2 := match ContactBook.menu_round w1 with
            | Ok _ x => x
            | _ => w
            end in
  let w' := match ContactBook.menu_round w2 with
            | Ok _ x => x
            | _ => w
            end in
  exists before l,
    stdin w = (before ++ l :: stdin w')%list /\ Str.strip l = "6".
Proof.
  intros w w1 w2 w'. apply (run_returns_on_exit_only w w').
  exists w1. split; [reflexivity|].
  apply (ContactBook.loops_on w1 w2).
  - subst w2 w1. vm_compute. reflexivity.
  - apply ContactBook.loops_break. subst w' w2 w1. vm_compute. reflexivity.
Defined.

Lemma empty_name_is_out_of_reach_witness :
  let w := mkWorld [("", new_record "1" "a@x" "Rome")] Missing None
             [" "; "y"] [] [] in
  let w' := match final (perform Delete w) with
            | Some x => x
            | None => w
            end in
  get "" (contacts w') = get "" (contacts w).
Proof.
  intros w w'. apply (empty_name_is_out_of_reach Delete w w').
  vm_compute. reflexivity.
Defined.

Lemma view_and_search_read_only_witness :
  let w := mkWorld [("Ann", new_record "1" "a@x" "Rome"); ("Bob", [])]
             Missing None ["x"] [] [] in
  let w' := match final (ContactBook.view_contacts w) with
            | Some x => x
            | None => w
            end in
  untouched w w' /\ stdin w' = stdin w.
Proof.
  intros w w'. apply (proj1 (view_and_search_read_only w) w').
  vm_compute. reflexivity.
Defined.
